(** * GPXPy: tiled Gaussian-process linear algebra on HPX futures

  A shallow embedding of
  - [hpx_py11/cpp_code/include/gp_headers/tiled_algorithms_cpu.hpp]
    (tiled Cholesky, triangular solves, prediction, posterior covariance,
    the Adam hyperparameter steps, and the solves with a matrix of
    right-hand sides, the loss, the prediction uncertainty and the gradient
    assembly), and
  - [core/src/adapter_cublas.cpp] (the cuSOLVER/cuBLAS adapter kernels
    [potrf] and [gemv], and the host kernels [dot_diag_syrk] and
    [dot_diag_gemm]),
  followed by the properties of the specification that were checked
  against them.

  A [std::vector<hpx::shared_future<std::vector<double>>>] is a list of
  futures.  A future is a dependency token: it is either a value the
  caller made ready, or the node that [hpx::dataflow] created for one
  kernel invocation, holding the tokens the invocation waits for.  Every
  call of [hpx::dataflow] / [hpx::async] is also appended to a log, so the
  order in which the invocations are issued can be stated. *)

From Stdlib Require Import ZArith NArith List Lia Reals Lra String.
From Stdlib Require PrimFloat.
From stdpp Require Import base list strings.

Local Open Scope nat_scope.

(** ** Machine integers *)

Module Machine.

(** [std::size_t] is a 64-bit unsigned integer. *)
Definition size_t_modulus : N := 2 ^ 64.

Definition size_wrap (x : N) : N := (x mod size_t_modulus)%N.

(** [i * n + j], the row-major slot of tile [(i,j)], as [std::size_t]
    arithmetic computes it. *)
Definition slot (i n j : nat) : nat :=
  N.to_nat (size_wrap (N.of_nat i * N.of_nat n + N.of_nat j)).

(** [n - 1] on [std::size_t]. *)
Definition size_pred (n : nat) : N :=
  size_wrap (N.of_nat n + (size_t_modulus - 1)).

(** Conversion of a [std::size_t] to [int] (32 bits, two's complement),
    as in [int k = n_tiles - 1]. *)
Definition int_of_size_t (x : N) : Z :=
  let r := (Z.of_N x mod 2 ^ 32)%Z in
  if (r <? 2 ^ 31)%Z then r else (r - 2 ^ 32)%Z.

Definition INT_MAX : Z := 2 ^ 31 - 1.

(** [std::vector<T>::max_size()] for the 8-byte handles and doubles stored
    here: [PTRDIFF_MAX / 8] elements. *)
Definition vector_max_size : N := 2 ^ 60.

End Machine.
Export Machine.

(** ** Kernels, futures and the invocation log *)

(** The functions handed to [hpx::dataflow] and [hpx::async], with the
  arguments that are passed by value (tile sizes). *)
Inductive kernel : Type :=
| fn_mkl_potrf (N : nat)
| fn_mkl_trsm (N : nat)
| fn_mkl_syrk (N : nat)
| fn_mkl_gemm (N : nat)
| fn_mkl_trsv_l (N : nat)
| fn_mkl_gemv_l (N : nat)
| fn_mkl_trsv_u (N : nat)
| fn_mkl_gemv_u (N : nat)
| fn_mkl_gemv_p (N_row N_col : nat)
| fn_mkl_gemm_uncertainty_matrix (N M : nat)
| fn_gen_tile_zeros_diag (N : nat)
| fn_mkl_gemm_diag (N : nat)
| fn_compute_gradient (N n_tiles : nat)
| fn_compute_gradient_noise (N n_tiles : nat)
| fn_to_unconstrained (noise : bool)
| fn_update_fist_moment
| fn_update_second_moment
| fn_update_param (iter : Z)
| fn_to_constrained (noise : bool).

(** The vectors the routines receive by reference, by parameter name, and
  the one local vector ([diag_tiles] of [update_hyperparameter]). *)
Inductive ref : Type :=
| ft_tiles | ft_rhs | ft_vector
| ft_CC_tiles | ft_tCC_tiles | ft_K_tiles
| diag_tiles.

(** A place an invocation reads or writes: a slot of a vector, an entry of
  one of the optimizer's arrays, or a local future. *)
Inductive loc : Type :=
| Slot (r : ref) (i : nat)
| Hyper (i : nat)
| MomentM (i : nat)
| MomentV (i : nat)
| Local (x : string).

(** One issued invocation: the function, the places whose tokens it was
  given, and the place its result token was stored in. *)
Record event : Type := Event {
ev_fn : kernel;
ev_reads : list loc;
ev_write : loc
}.

Section Futures.

Context {tile : Type}.

(** [hpx::shared_future<std::vector<double>>]. *)
#[local] Unset Elimination Schemes.
Inductive future : Type :=
| no_state                                   (* default constructed *)
| ready (v : tile)                           (* made ready by the caller *)
| dataflow (f : kernel) (args : list future) (* one kernel invocation *).

(** What a C++ routine can end with. *)
Inductive exn : Type :=
| invalid_argument (what : string)
| runtime_error (what : string)
| cuda_exception (code : Z)
| hpx_no_state
| undefined_behaviour.

Inductive outcome (A : Type) : Type :=
| Returned (a : A)
| Thrown (e : exn).

(** The objects the routines reach through references and pointers. *)
Record world : Type := World {
  mem : ref → list future;
  hyperparameters : list R;
  m_T : list R;
  v_T : list R;
  issued : list event
}.

End Futures.

Arguments future : clear implicits.
Arguments world : clear implicits.
Arguments Returned {A} a.
Arguments Thrown {A} e.

Global Instance ref_eq_dec : EqDecision ref.
Proof. solve_decision. Defined.

Global Instance loc_eq_dec : EqDecision loc.
Proof. solve_decision. Defined.

(** ** A state and exception monad

  Writes made before a [throw] stay visible to the caller, so a computation
  returns the final world together with its outcome. *)

Section Monad.

Context {tile : Type}.

Definition M (A : Type) : Type := world tile → outcome A * world tile.

Definition ret {A} (a : A) : M A := fun w => (Returned a, w).

Definition bind {A B} (c : M A) (k : A → M B) : M B :=
  fun w =>
    match c w with
    | (Returned a, w') => k a w'
    | (Thrown e, w') => (Thrown e, w')
    end.

Definition throw {A} (e : exn) : M A := fun w => (Thrown e, w).

Definition get_world : M (world tile) := fun w => (Returned w, w).

End Monad.

Declare Scope cpp_scope.
Delimit Scope cpp_scope with cpp.
Notation "x <- c1 ;; c2" := (bind c1 (fun x => c2))
  (at level 100, c1 at next level, c2 at level 200, right associativity) : cpp_scope.
Notation "c1 ;; c2" := (bind c1 (fun _ => c2))
  (at level 100, c2 at level 200, right associativity) : cpp_scope.
Local Open Scope cpp_scope.

Section Statements.

Context {tile : Type}.
Abbreviation M := (@M tile).

Definition set_mem (r : ref) (l : list (future tile)) (w : world tile) : world tile :=
  {| mem := fun r' => if decide (r' = r) then l else mem w r';
     hyperparameters := hyperparameters w;
     m_T := m_T w; v_T := v_T w;
     issued := issued w |}.

Definition set_hyperparameters (h : list R) (w : world tile) : world tile :=
  {| mem := mem w; hyperparameters := h;
     m_T := m_T w; v_T := v_T w; issued := issued w |}.

Definition set_m_T (l : list R) (w : world tile) : world tile :=
  {| mem := mem w; hyperparameters := hyperparameters w;
     m_T := l; v_T := v_T w; issued := issued w |}.

Definition set_v_T (l : list R) (w : world tile) : world tile :=
  {| mem := mem w; hyperparameters := hyperparameters w;
     m_T := m_T w; v_T := l; issued := issued w |}.

Definition log (e : event) (w : world tile) : world tile :=
  {| mem := mem w; hyperparameters := hyperparameters w;
     m_T := m_T w; v_T := v_T w; issued := issued w ++ [e] |}.

(** [v[i]] as an rvalue; [operator[]] beyond [size()] is undefined. *)
Definition vec_read (r : ref) (i : nat) : M (future tile) :=
  fun w =>
    match mem w r !! i with
    | Some f => (Returned f, w)
    | None => (Thrown undefined_behaviour, w)
    end.

(** [v[i] = f]. *)
Definition vec_write (r : ref) (i : nat) (f : future tile) : M unit :=
  fun w =>
    if decide (i < length (mem w r))
    then (Returned tt, set_mem r (<[i := f]> (mem w r)) w)
    else (Thrown undefined_behaviour, w).

(** [std::vector<...> v; v.resize(n)]. *)
Definition vec_resize (r : ref) (n : nat) : M unit :=
  fun w => (Returned tt, set_mem r (replicate n no_state) w).

(** The end of the scope of a local vector. *)
Definition vec_destroy (r : ref) : M unit :=
  fun w => (Returned tt, set_mem r [] w).

Definition issue (e : event) : M unit :=
  fun w => (Returned tt, log e w).

Fixpoint read_all (srcs : list (ref * nat)) : M (list (future tile)) :=
  match srcs with
  | [] => ret []
  | (r, i) :: rest =>
      f <- vec_read r i;;
      fs <- read_all rest;;
      ret (f :: fs)
  end.

Definition slots (srcs : list (ref * nat)) : list loc :=
  map (fun s => Slot (fst s) (snd s)) srcs.

(** [dst[i] = hpx::dataflow(hpx::unwrapping(&f), a[j], b[k], ..., N)]:
    the argument tokens are read, the invocation is issued, and its result
    token supersedes the one in the destination slot. *)
Definition assign_dataflow (dst : ref * nat) (f : kernel)
    (srcs : list (ref * nat)) : M unit :=
  args <- read_all srcs;;
  issue (Event f (slots srcs) (Slot (fst dst) (snd dst)));;
  vec_write (fst dst) (snd dst) (dataflow f args).

(** Counted loops.  The bounds are not changed by the bodies. *)
Fixpoint for_each {A} (l : list A) (body : A → M unit) : M unit :=
  match l with
  | [] => ret tt
  | x :: l' => body x;; for_each l' body
  end.

(** [for (std::size_t i = lo; i < hi; i++)] *)
Definition for_up (lo hi : nat) (body : nat → M unit) : M unit :=
  for_each (seq lo (hi - lo)) body.

(** [for (int i = start; i >= 0; i--)] *)
Definition for_down (start : Z) (body : nat → M unit) : M unit :=
  for_each (rev (seq 0 (Z.to_nat (start + 1)))) body.

(** [for (int i = 0; i < hi; ++i)] with [hi] a [std::size_t]: the counter
    overflows, which is undefined, when [hi] exceeds [INT_MAX]. *)
Definition for_up_int (hi : nat) (body : nat → M unit) : M unit :=
  if decide (Z.of_nat hi ≤ INT_MAX)%Z
  then for_each (seq 0 hi) body
  else throw undefined_behaviour.

End Statements.

(** ** tiled_algorithms_cpu.hpp *)

Section TiledAlgorithms.

Context {tile : Type}.
Abbreviation M := (@M tile).

(** Tiled Cholesky Algorithms *)

(** The body of the loop over [k]: one stage of the factorization. *)
Definition cholesky_stage (N n_tiles k : nat) : M unit :=
  (* POTRF *)
  assign_dataflow (ft_tiles, slot k n_tiles k) (fn_mkl_potrf N)
    [(ft_tiles, slot k n_tiles k)];;
  for_up (k + 1) n_tiles (fun m =>
    (* TRSM *)
    assign_dataflow (ft_tiles, slot m n_tiles k) (fn_mkl_trsm N)
      [(ft_tiles, slot k n_tiles k); (ft_tiles, slot m n_tiles k)]);;
  for_up (k + 1) n_tiles (fun m =>
    (* SYRK *)
    assign_dataflow (ft_tiles, slot m n_tiles m) (fn_mkl_syrk N)
      [(ft_tiles, slot m n_tiles m); (ft_tiles, slot m n_tiles k)];;
    for_up (k + 1) m (fun n =>
      (* GEMM *)
      assign_dataflow (ft_tiles, slot m n_tiles n) (fn_mkl_gemm N)
        [(ft_tiles, slot m n_tiles k); (ft_tiles, slot n n_tiles k);
         (ft_tiles, slot m n_tiles n)])).

Definition right_looking_cholesky_tiled_mkl (N n_tiles : nat) : M unit :=
  for_up 0 n_tiles (cholesky_stage N n_tiles).

(** Tiled Triangular Solve Algorithms *)
Definition forward_solve_tiled (N n_tiles : nat) : M unit :=
  for_up 0 n_tiles (fun k =>
    (* TRSM *)
    assign_dataflow (ft_rhs, k) (fn_mkl_trsv_l N)
      [(ft_tiles, slot k n_tiles k); (ft_rhs, k)];;
    for_up (k + 1) n_tiles (fun m =>
      (* GEMV *)
      assign_dataflow (ft_rhs, m) (fn_mkl_gemv_l N)
        [(ft_tiles, slot m n_tiles k); (ft_rhs, k); (ft_rhs, m)])).

Definition backward_solve_tiled (N n_tiles : nat) : M unit :=
  for_down (int_of_size_t (size_pred n_tiles)) (fun k =>
    (* TRSM *)
    assign_dataflow (ft_rhs, k) (fn_mkl_trsv_u N)
      [(ft_tiles, slot k n_tiles k); (ft_rhs, k)];;
    for_down (Z.of_nat k - 1) (fun m =>
      (* GEMV *)
      assign_dataflow (ft_rhs, m) (fn_mkl_gemv_u N)
        [(ft_tiles, slot k n_tiles m); (ft_rhs, k); (ft_rhs, m)])).

(** Tiled Prediction *)
Definition prediction_tiled (N_row N_col n_tiles m_tiles : nat) : M unit :=
  for_up 0 m_tiles (fun k =>
    for_up 0 n_tiles (fun m =>
      assign_dataflow (ft_rhs, k) (fn_mkl_gemv_p N_row N_col)
        [(ft_tiles, slot k n_tiles m); (ft_vector, m); (ft_rhs, k)])).

(** Tiled Diagonal of Posterior Covariance Matrix *)
Definition posterior_covariance_tiled (N M_ n_tiles m_tiles : nat) : M unit :=
  for_up_int m_tiles (fun i =>
    for_up i (i + 1) (fun j =>
      (* outer two loops used for diagonal tiles of prior K *)
      for_up_int n_tiles (fun m =>
        assign_dataflow (ft_K_tiles, slot i m_tiles j)
          (fn_mkl_gemm_uncertainty_matrix N M_)
          [(ft_CC_tiles, slot i n_tiles m); (ft_tCC_tiles, slot m m_tiles i);
           (ft_K_tiles, slot i m_tiles j)]))).

End TiledAlgorithms.

(** ** The kernel library

    Modelled from the spec: the host kernels ([mkl_adapter.hpp]) and the
    gradient helpers ([gp_functions_grad.hpp]) are included by
    [tiled_algorithms_cpu.hpp] but are not part of the sources at hand.  The
    interface below gives each kernel the signature its call site shows
    (futures unwrapped to tiles, sizes by value); the contracts the spec
    states for them are in [KernelSpec] further down.  The interface
    describes the invocations that return: a kernel that throws, as the
    spec's factorize does on a tile that is not positive definite, has no
    case here. *)
Class Kernels (tile : Type) : Type := {
  mkl_potrf : tile → nat → tile;
  mkl_trsm : tile → tile → nat → tile;
  mkl_syrk : tile → tile → nat → tile;
  mkl_gemm : tile → tile → tile → nat → tile;
  mkl_trsv_l : tile → tile → nat → tile;
  mkl_gemv_l : tile → tile → tile → nat → tile;
  mkl_trsv_u : tile → tile → nat → tile;
  mkl_gemv_u : tile → tile → tile → nat → tile;
  mkl_gemv_p : tile → tile → tile → nat → nat → tile;
  mkl_gemm_uncertainty_matrix : tile → tile → tile → nat → nat → tile;
  gen_tile_zeros_diag : nat → tile;
  mkl_gemm_diag : tile → tile → tile → nat → tile;
  compute_gradient : list tile → nat → nat → R;
  compute_gradient_noise : list tile → list R → nat → nat → R
}.

Section Get.

Context {tile : Type} `{Kernels tile}.

(** [hpx::unwrapping(&f)] applied to the values of the argument futures.
    An argument without a value leaves the result without one. *)
Definition unwrapping (f : kernel) (args : list (option tile)) : option tile :=
  match f, args with
  | fn_mkl_potrf N, [Some A] => Some (mkl_potrf A N)
  | fn_mkl_trsm N, [Some L; Some A] => Some (mkl_trsm L A N)
  | fn_mkl_syrk N, [Some A; Some B] => Some (mkl_syrk A B N)
  | fn_mkl_gemm N, [Some A; Some B; Some C] => Some (mkl_gemm A B C N)
  | fn_mkl_trsv_l N, [Some L; Some a] => Some (mkl_trsv_l L a N)
  | fn_mkl_gemv_l N, [Some A; Some a; Some b] => Some (mkl_gemv_l A a b N)
  | fn_mkl_trsv_u N, [Some L; Some a] => Some (mkl_trsv_u L a N)
  | fn_mkl_gemv_u N, [Some A; Some a; Some b] => Some (mkl_gemv_u A a b N)
  | fn_mkl_gemv_p N_row N_col, [Some A; Some a; Some b] =>
      Some (mkl_gemv_p A a b N_row N_col)
  | fn_mkl_gemm_uncertainty_matrix N M, [Some A; Some B; Some C] =>
      Some (mkl_gemm_uncertainty_matrix A B C N M)
  | fn_gen_tile_zeros_diag N, [] => Some (gen_tile_zeros_diag N)
  | fn_mkl_gemm_diag N, [Some A; Some B; Some C] => Some (mkl_gemm_diag A B C N)
  | _, _ => None
  end.

(** [shared_future::get()]: the tile a token stands for. *)
Fixpoint get (f : future tile) : option tile :=
  match f with
  | no_state => None
  | ready v => Some v
  | dataflow k args => unwrapping k (map get args)
  end.

(** The value in slot [i] of vector [r]. *)
Definition value (w : world tile) (r : ref) (i : nat) : option tile :=
  match mem w r !! i with
  | Some f => get f
  | None => None
  end.

End Get.

(** ** gp_functions_grad.hpp: the scalar steps of Adam *)

Module Adam.

Local Open Scope R_scope.

(** Modelled from the spec: [to_unconstrained] is not under src/.  "Reparametrize
    the hyperparameter into an unconstrained space ([log] for strictly-positive
    parameters)".  The flag [noise] is the one the call sites pass. *)
Definition to_unconstrained (parameter : R) (noise : bool) : R := ln parameter.

(** Modelled from the spec: [to_constrained] is not under src/.  "Then map back
    to constrained space": the inverse of the logarithm.  It is taken over
    the real numbers, as the other helpers are: what the call sites get on
    [double] for a NaN, an infinity or an underflow is not described. *)
Definition to_constrained (parameter : R) (noise : bool) : R := exp parameter.

(** Modelled from the spec: [update_fist_moment] is not under src/.
    "m = β1·m + (1-β1)·g". *)
Definition update_fist_moment (gradient m_T beta_1 : R) : R :=
  beta_1 * m_T + (1 - beta_1) * gradient.

(** Modelled from the spec: [update_second_moment] is not under src/.
    "v = β2·v + (1-β2)·g²". *)
Definition update_second_moment (gradient v_T beta_2 : R) : R :=
  beta_2 * v_T + (1 - beta_2) * (gradient * gradient).

(** Position of the learning rate in the hyperparameter array: the three
    tunable scalars are followed by "learning rate, Adam β1, β2"; the source
    reads β1 at 4 and β2 at 5. *)
Definition learning_rate_idx : nat := 3.

(** Modelled from the spec: [update_param] is not under src/.  "Bias-correct
    using β1^t, β2^t, apply θ_unconstrained -= lr·m̂/(√v̂+ε)".  The power
    accumulators are read at [iter]; [epsilon] is the ε of the rule, whose
    storage the spec leaves open. *)
Definition update_param (epsilon : R) (unconstrained_hyperparam : R)
    (hyperparameters : list R) (gradient m_T v_T : R)
    (beta1_T beta2_T : list R) (iter : Z) : option R :=
  if (iter <? 0)%Z then None else
  match hyperparameters !! learning_rate_idx,
        beta1_T !! Z.to_nat iter, beta2_T !! Z.to_nat iter with
  | Some lr, Some beta1_t, Some beta2_t =>
      let mhat := m_T / (1 - beta1_t) in
      let vhat := v_T / (1 - beta2_t) in
      Some (unconstrained_hyperparam - lr * mhat / (sqrt vhat + epsilon))
  | _, _, _ => None
  end.

End Adam.
Export Adam.

(** The events an Adam step issues. *)
Definition adam_events (idx : nat) (noise : bool) (iter : Z) : list event :=
  [Event (fn_to_unconstrained noise) [Hyper idx] (Local "unconstrained_param");
   Event fn_update_fist_moment [Local "gradient"; MomentM idx; Hyper 4] (MomentM idx);
   Event fn_update_second_moment [Local "gradient"; MomentV idx; Hyper 5] (MomentV idx);
   Event (fn_update_param iter)
     [Local "unconstrained_param"; Hyper learning_rate_idx; Local "gradient";
      MomentM idx; MomentV idx]
     (Local "updated_param");
   Event (fn_to_constrained noise) [Local "updated_param"] (Hyper idx)].


Section Optimizer.

Context {tile : Type} `{Kernels tile}.
Variable epsilon : R.
Abbreviation M := (@M tile).

(** [hyperparameters[i]] through the [double *]. *)
Definition hyper_read (i : nat) : M R :=
  fun w =>
    match hyperparameters w !! i with
    | Some x => (Returned x, w)
    | None => (Thrown undefined_behaviour, w)
    end.

Definition hyper_write (i : nat) (x : R) : M unit :=
  fun w =>
    if decide (i < length (hyperparameters w))
    then (Returned tt, set_hyperparameters (<[i := x]> (hyperparameters w)) w)
    else (Thrown undefined_behaviour, w).

Definition m_T_read (i : nat) : M R :=
  fun w =>
    match m_T w !! i with
    | Some x => (Returned x, w)
    | None => (Thrown undefined_behaviour, w)
    end.

Definition m_T_write (i : nat) (x : R) : M unit :=
  fun w =>
    if decide (i < length (m_T w))
    then (Returned tt, set_m_T (<[i := x]> (m_T w)) w)
    else (Thrown undefined_behaviour, w).

Definition v_T_read (i : nat) : M R :=
  fun w =>
    match v_T w !! i with
    | Some x => (Returned x, w)
    | None => (Thrown undefined_behaviour, w)
    end.

Definition v_T_write (i : nat) (x : R) : M unit :=
  fun w =>
    if decide (i < length (v_T w))
    then (Returned tt, set_v_T (<[i := x]> (v_T w)) w)
    else (Thrown undefined_behaviour, w).

(** The values of all the futures of a vector, for a kernel that takes the
    whole vector.  A future without a value makes the consumer fail. *)
Definition get_all (r : ref) : M (list tile) :=
  fun w =>
    match mapM get (mem w r) with
    | Some vs => (Returned vs, w)
    | None => (Thrown hpx_no_state, w)
    end.

Definition all_slots (r : ref) (n : nat) : list loc :=
  map (Slot r) (seq 0 n).

(** The Adam step both update routines end with.  A [shared_future<double>]
    is represented by the value it delivers; each [hpx::dataflow] is logged
    when it is issued. *)
Definition adam_step (gradient : R) (idx : nat) (noise : bool)
    (beta1_T beta2_T : list R) (iter : Z) : M unit :=
  (* transform hyperparameter to unconstrained form *)
  theta <- hyper_read idx;;
  issue (Event (fn_to_unconstrained noise) [Hyper idx] (Local "unconstrained_param"));;
  let unconstrained_param := to_unconstrained theta noise in
  (* update moments *)
  m <- m_T_read idx;;
  beta_1 <- hyper_read 4;;
  issue (Event fn_update_fist_moment [Local "gradient"; MomentM idx; Hyper 4] (MomentM idx));;
  m_T_write idx (update_fist_moment gradient m beta_1);;
  v <- v_T_read idx;;
  beta_2 <- hyper_read 5;;
  issue (Event fn_update_second_moment [Local "gradient"; MomentV idx; Hyper 5] (MomentV idx));;
  v_T_write idx (update_second_moment gradient v beta_2);;
  (* update parameter *)
  m' <- m_T_read idx;;
  v' <- v_T_read idx;;
  w <- get_world;;
  issue (Event (fn_update_param iter)
           [Local "unconstrained_param"; Hyper learning_rate_idx; Local "gradient";
            MomentM idx; MomentV idx]
           (Local "updated_param"));;
  match update_param epsilon unconstrained_param (hyperparameters w) gradient
          m' v' beta1_T beta2_T iter with
  | None => throw undefined_behaviour
  | Some updated_param =>
      (* transform hyperparameter to constrained form *)
      issue (Event (fn_to_constrained noise) [Local "updated_param"] (Hyper idx));;
      hyper_write idx (to_constrained updated_param noise)
  end.

(** Perform a gradient scent step for selected hyperparameter *)
Definition update_hyperparameter (N n_tiles : nat)
    (beta1_T beta2_T : list R) (iter param_idx : Z) : M unit :=
  if ((param_idx =? 0)%Z || (param_idx =? 1)%Z)%bool then
    vec_resize diag_tiles n_tiles;;
    for_up 0 n_tiles (fun d =>
      assign_dataflow (diag_tiles, d) (fn_gen_tile_zeros_diag N) []);;
    (* Compute diagonal tiles using GEMM *)
    for_up 0 n_tiles (fun i =>
      for_up 0 n_tiles (fun j =>
        assign_dataflow (diag_tiles, i) (fn_mkl_gemm_diag N)
          [(ft_tiles, slot i n_tiles j); (ft_rhs, slot j n_tiles i);
           (diag_tiles, i)]));;
    (* compute trace of diag_tiles *)
    tiles <- get_all diag_tiles;;
    issue (Event (fn_compute_gradient N n_tiles) (all_slots diag_tiles n_tiles)
             (Local "gradient"));;
    let gradient := compute_gradient tiles N n_tiles in
    adam_step gradient (Z.to_nat param_idx) false beta1_T beta2_T iter;;
    vec_destroy diag_tiles
  else
    (* Throw an exception for invalid param_idx *)
    throw (invalid_argument "Invalid param_idx").

(** Update noise variance using gradient decent *)
Definition update_noise_variance (N n_tiles : nat)
    (beta1_T beta2_T : list R) (iter : Z) : M unit :=
  (* compute gradient ^= trace of diag_tiles *)
  tiles <- get_all ft_tiles;;
  w <- get_world;;
  issue (Event (fn_compute_gradient_noise N n_tiles)
           (all_slots ft_tiles (length (mem w ft_tiles))) (Local "gradient"));;
  let gradient := compute_gradient_noise tiles (hyperparameters w) N n_tiles in
  adam_step gradient 2 true beta1_T beta2_T iter.

(** A call site: the caller binds [ft_tiles] and [ft_rhs] to vectors of
    its own. *)
Definition call_update_hyperparameter (tiles rhs : list (future tile))
    (N n_tiles : nat) (beta1_T beta2_T : list R) (iter param_idx : Z) : M unit :=
  fun w =>
    update_hyperparameter N n_tiles beta1_T beta2_T iter param_idx
      (set_mem ft_rhs rhs (set_mem ft_tiles tiles w)).

End Optimizer.

(** The optimizer state of [w'] is that of [w] with the entries of
    parameter [idx] replaced. *)
Definition adam_post {tile : Type} (idx : nat) (r : R * R * R)
    (w w' : world tile) : Prop :=
  m_T w' = <[idx := fst (fst r)]> (m_T w) ∧
  v_T w' = <[idx := snd (fst r)]> (v_T w) ∧
  hyperparameters w' = <[idx := snd r]> (hyperparameters w).

(** ** adapter_cublas.cpp *)

Module Cublas.

Import PrimFloat.

(** The status words the CUDA runtime and the host allocator hand back to
    one call of [potrf], in program order. *)
Record runtime : Type := Runtime {
  cudaMalloc_d_info : Z;
  workspaceInBytesOnHost : N;
  cudaMalloc_d_work : Z;
  malloc_h_work_ok : bool;
  cudaStreamSynchronize_stream : Z;
  cudaFree_d_work : Z;
  cudaFree_d_info : Z
}.

Definition cudaSuccess : Z := 0.

(** [hpx::cuda::experimental::check_cuda_error]: throws unless the status is
    [cudaSuccess]. *)
Definition check_cuda_error (err : Z) : option exn :=
  if (err =? cudaSuccess)%Z then None else Some (cuda_exception err).

(** What [f_A.get()] yields: the device pointer the shared future holds, or
    the exception it holds, which [get] rethrows. *)
Inductive device_future : Type :=
| holds_pointer
| holds_exception (e : exn).

(** What is known of the device buffer behind [d_A].  The solver is enqueued
    on the handle's stream, so its output is in the buffer only once
    [cudaStreamSynchronize] has succeeded; after a failed synchronization
    the content is [unspecified]. *)
Inductive device_buffer : Type :=
| contents (l : list float)
| unspecified.

(** [potrf]: the device buffer behind [d_A] is the state; the solver is the
    external [cusolverDnXpotrf], which overwrites the buffer and writes its
    status to [d_info].  The result is the ready future of [d_A], given here
    by the contents of the buffer it points to. *)
Definition potrf (cusolverDnXpotrf : list float → nat → list float * Z)
    (rt : runtime) (f_A : device_future) (d_A : list float) (N : nat)
    : outcome (list float) * device_buffer :=
  match check_cuda_error (cudaMalloc_d_info rt) with
  | Some e => (Thrown e, contents d_A)
  | None =>
  match f_A with
  | holds_exception e => (Thrown e, contents d_A)
  | holds_pointer =>
  match check_cuda_error (cudaMalloc_d_work rt) with
  | Some e => (Thrown e, contents d_A)
  | None =>
  if ((0 <? workspaceInBytesOnHost rt)%N && negb (malloc_h_work_ok rt))%bool
  then (Thrown (runtime_error "Error: h_work not allocated."), contents d_A)
  else
  let '(factored, d_info) := cusolverDnXpotrf d_A N in
  match check_cuda_error (cudaStreamSynchronize_stream rt) with
  | Some e => (Thrown e, unspecified)
  | None =>
  match check_cuda_error (cudaFree_d_work rt) with
  | Some e => (Thrown e, contents factored)
  | None =>
  match check_cuda_error (cudaFree_d_info rt) with
  | Some e => (Thrown e, contents factored)
  | None => (Returned factored, contents factored)
  end end end end end end.

(** *** Reference behaviour of the external solver

    [cusolverDnXpotrf] on a row-major [N×N] tile of doubles, lower triangle,
    as its documentation describes it: the unblocked Cholesky recurrence,
    which stops at the first leading minor that is not positive definite and
    reports its (one-based) order in [info]. *)
Definition entry (A : list float) (N i j : nat) : float :=
  nth (i * N + j) A 0%float.

Fixpoint row_dot (A : list float) (N i j k : nat) : float :=
  match k with
  | O => 0%float
  | S k' => (row_dot A N i j k' + entry A N i k' * entry A N j k')%float
  end.

Definition potf2_column (N : nat) (st : list float * Z) (j : nat) : list float * Z :=
  let '(A, info) := st in
  if (info =? 0)%Z then
    let ajj := (entry A N j j - row_dot A N j j j)%float in
    if (PrimFloat.leb ajj 0 || negb (PrimFloat.eqb ajj ajj))%bool
    then (<[j * N + j := ajj]> A, Z.of_nat (j + 1))
    else
      let ljj := PrimFloat.sqrt ajj in
      (fold_left
         (fun A' i =>
            <[i * N + j := ((entry A' N i j - row_dot A' N i j j) / ljj)%float]> A')
         (seq (j + 1) (N - (j + 1)))
         (<[j * N + j := ljj]> A),
       0%Z)
  else st.

Definition Xpotrf_reference (A : list float) (N : nat) : list float * Z :=
  fold_left (potf2_column N) (seq 0 N) (A, 0%Z).

(** The tile [[1,2],[2,1]] of the spec's invalid-input scenario. *)
Definition indefinite_tile : list float := [1; 2; 2; 1]%float.

Definition runtime_ok : runtime :=
  {| cudaMalloc_d_info := 0; workspaceInBytesOnHost := 0;
     cudaMalloc_d_work := 0; malloc_h_work_ok := true;
     cudaStreamSynchronize_stream := 0;
     cudaFree_d_work := 0; cudaFree_d_info := 0 |}.

(** What the claim about [NotPositiveDefinite] asks of [potrf] on a tile:
    when the solver reports a minor that is not positive definite, the call
    fails and returns no factor. *)
Definition reports_not_positive_definite
    (solver : list float → nat → list float * Z)
    (rt : runtime) (A : list float) (N : nat) : Prop :=
  snd (solver A N) ≠ 0%Z →
  ∃ e, fst (potrf solver rt holds_pointer A N) = Thrown e.

End Cublas.

Inductive CBLAS_TRANSPOSE : Type := CblasNoTrans | CblasTrans.

(** ** Dense algebra on tiles

    The mathematical operations the kernel contracts are stated with.
    [mul_nt A B] is [A·Bᵀ], [mul_vec A x] is [A·x] and [mul_tvec A x] is
    [Aᵀ·x]. *)
Class TileAlgebra (tile : Type) : Type := {
  tzero : tile;
  tadd : tile → tile → tile;
  tsub : tile → tile → tile;
  scal : R → tile → tile;
  mul_nt : tile → tile → tile;
  mul_vec : tile → tile → tile;
  mul_tvec : tile → tile → tile;
  pos_def : tile → Prop;
  nonsingular : tile → Prop
}.

Section Blas.

Context {tile : Type} `{TileAlgebra tile}.

(** The external [cblas_dgemv] (row major, unit strides):
    [y := alpha·op(A)·x + beta·y]. *)
Definition cblas_dgemv (trans : CBLAS_TRANSPOSE) (N M : nat) (alpha : R)
    (A x : tile) (beta : R) (y : tile) : tile :=
  tadd (scal alpha (match trans with
                    | CblasNoTrans => mul_vec A x
                    | CblasTrans => mul_tvec A x
                    end))
       (scal beta y).

(** [gemv] of adapter_cublas.cpp, on the values of its three futures. *)
Definition gemv (A a b : tile) (N M : nat) (alpha : R)
    (transpose_A : CBLAS_TRANSPOSE) : tile :=
  (* GEMV constants *)
  let beta := 1%R in
  (* GEMV:  b{N} = b{N} - A(^T){NxM} * a{M} *)
  cblas_dgemv transpose_A N M alpha A a beta b.

End Blas.

(** Exact arithmetic: the laws of the real numbers that the consequences
    drawn from the kernel contracts rely on. *)
Class ExactArithmetic (tile : Type) `{TileAlgebra tile} : Prop := {
  tsub_tadd : ∀ a b : tile, tadd (tsub a b) b = a;
  scal_one : ∀ a : tile, scal 1%R a = a;
  tadd_cancel_l : ∀ a b c : tile, tadd a b = tadd a c → b = c
}.

(** Modelled from the spec: the bodies of the host kernels are not under
    src/.  Their contracts, from the kernel library section:
    "factorize(A): Cholesky factor of tile A (lower triangular)",
    "triangular_solve(L, A): solves L·X=A or X·L=A (or transposed)",
    "rank_update(A, B): A' = A - B·Bᵀ", "matmul_update(A, B, C): C' = C - A·Bᵀ",
    and the vector kernels [triangular_solve_vec] and [matvec_update];
    [mkl_gemv_p] is the accumulating [gemv] of the adapter with [alpha = 1]. *)
Class KernelSpec (tile : Type) `{Kernels tile} `{TileAlgebra tile} : Prop := {
  potrf_spec : ∀ A N,
    pos_def A → mul_nt (mkl_potrf A N) (mkl_potrf A N) = A;
  potrf_nonsingular : ∀ A N, pos_def A → nonsingular (mkl_potrf A N);
  trsm_spec : ∀ L A N, nonsingular L → mul_nt (mkl_trsm L A N) L = A;
  syrk_spec : ∀ A B N, mkl_syrk A B N = tsub A (mul_nt B B);
  gemm_spec : ∀ A B C N, mkl_gemm A B C N = tsub C (mul_nt A B);
  trsv_l_spec : ∀ L b N, nonsingular L → mul_vec L (mkl_trsv_l L b N) = b;
  gemv_l_spec : ∀ A a b N, mkl_gemv_l A a b N = tsub b (mul_vec A a);
  trsv_u_spec : ∀ L b N, nonsingular L → mul_tvec L (mkl_trsv_u L b N) = b;
  gemv_u_spec : ∀ A a b N, mkl_gemv_u A a b N = tsub b (mul_tvec A a);
  gemv_p_spec : ∀ A a b N_row N_col,
    mkl_gemv_p A a b N_row N_col = gemv A a b N_row N_col 1%R CblasNoTrans
}.

(** ** Well-formed vectors *)

(** A vector of [n] elements: a [std::vector] never holds more than
    [max_size()] of them. *)
Definition vector_ok {A} (l : list A) (n : nat) : Prop :=
  length l = n ∧ (N.of_nat n ≤ vector_max_size)%N.

(** A row-major grid of [n × m] tiles. *)
Definition grid {A} (l : list A) (n m : nat) : Prop := vector_ok l (n * m).

(** What the update routines need of the world: the optimizer's arrays hold
    the entries of parameter [idx] and the scheduling scalars; the power
    accumulators reach [iter]; the gradient inputs are two square grids of
    tiles with values. *)
Definition optimizer_ready {tile : Type} (w : world tile) (idx : nat)
    (theta lr beta1 beta2 m v : R) : Prop :=
  hyperparameters w !! idx = Some theta ∧
  hyperparameters w !! learning_rate_idx = Some lr ∧
  hyperparameters w !! 4 = Some beta1 ∧
  hyperparameters w !! 5 = Some beta2 ∧
  m_T w !! idx = Some m ∧
  v_T w !! idx = Some v.

Definition accumulators_ready (beta1_T beta2_T : list R) (iter : Z)
    (beta1_t beta2_t : R) : Prop :=
  (0 ≤ iter)%Z ∧
  beta1_T !! Z.to_nat iter = Some beta1_t ∧
  beta2_T !! Z.to_nat iter = Some beta2_t.

Definition gradient_inputs {tile : Type} `{Kernels tile} (w : world tile)
    (n : nat) (T G : nat → nat → tile) : Prop :=
  grid (mem w ft_tiles) n n ∧
  grid (mem w ft_rhs) n n ∧
  (∀ i j, i < n → j < n → value w ft_tiles (i * n + j) = Some (T i j)) ∧
  (∀ i j, i < n → j < n → value w ft_rhs (i * n + j) = Some (G i j)).

(** ** Straight-line view of the tiled routines

    Every statement of the tiled routines is one assignment of a dataflow
    node to a vector slot.  An instruction names the slot, the kernel and the
    argument slots; [exec] is its effect when all slots exist. *)
Record instr : Type := Instr {
  i_dst : ref * nat;
  i_fn : kernel;
  i_srcs : list (ref * nat)
}.

Definition event_of (i : instr) : event :=
  Event (i_fn i) (slots (i_srcs i)) (Slot (fst (i_dst i)) (snd (i_dst i))).

Section Exec.

Context {tile : Type}.

Definition run_instr (i : instr) : @M tile unit :=
  assign_dataflow (i_dst i) (i_fn i) (i_srcs i).

Definition token_at (w : world tile) (s : ref * nat) : future tile :=
  default no_state (mem w (fst s) !! snd s).

Definition exec (w : world tile) (i : instr) : world tile :=
  set_mem (fst (i_dst i))
    (<[snd (i_dst i) := dataflow (i_fn i) (map (token_at w) (i_srcs i))]>
       (mem w (fst (i_dst i))))
    (log (event_of i) w).

Definition in_range (w : world tile) (i : instr) : Prop :=
  snd (i_dst i) < length (mem w (fst (i_dst i))) ∧
  Forall (fun s => snd s < length (mem w (fst s))) (i_srcs i).

(** Two worlds whose vectors have the same sizes. *)
Definition same_shape (w w' : world tile) : Prop :=
  ∀ r, length (mem w' r) = length (mem w r).

End Exec.

(** The instructions of each routine, loop by loop as the source nests
    them. *)
Definition potrf_instr (N n k : nat) : instr :=
  Instr (ft_tiles, slot k n k) (fn_mkl_potrf N) [(ft_tiles, slot k n k)].

Definition trsm_instr (N n k m : nat) : instr :=
  Instr (ft_tiles, slot m n k) (fn_mkl_trsm N)
    [(ft_tiles, slot k n k); (ft_tiles, slot m n k)].

Definition syrk_instr (N n k m : nat) : instr :=
  Instr (ft_tiles, slot m n m) (fn_mkl_syrk N)
    [(ft_tiles, slot m n m); (ft_tiles, slot m n k)].

Definition gemm_instr (N n k m j : nat) : instr :=
  Instr (ft_tiles, slot m n j) (fn_mkl_gemm N)
    [(ft_tiles, slot m n k); (ft_tiles, slot j n k); (ft_tiles, slot m n j)].

Definition update_row_instrs (N n k m : nat) : list instr :=
  syrk_instr N n k m :: map (gemm_instr N n k m) (seq (k + 1) (m - (k + 1))).

Definition cholesky_stage_instrs (N n k : nat) : list instr :=
  potrf_instr N n k
  :: map (trsm_instr N n k) (seq (k + 1) (n - (k + 1)))
  ++ flat_map (update_row_instrs N n k) (seq (k + 1) (n - (k + 1))).

Definition cholesky_instrs (N n : nat) : list instr :=
  flat_map (cholesky_stage_instrs N n) (seq 0 n).

Definition trsv_l_instr (N n k : nat) : instr :=
  Instr (ft_rhs, k) (fn_mkl_trsv_l N) [(ft_tiles, slot k n k); (ft_rhs, k)].

Definition gemv_l_instr (N n k m : nat) : instr :=
  Instr (ft_rhs, m) (fn_mkl_gemv_l N)
    [(ft_tiles, slot m n k); (ft_rhs, k); (ft_rhs, m)].

Definition forward_stage_instrs (N n k : nat) : list instr :=
  trsv_l_instr N n k :: map (gemv_l_instr N n k) (seq (k + 1) (n - (k + 1))).

Definition forward_instrs (N n : nat) : list instr :=
  flat_map (forward_stage_instrs N n) (seq 0 n).

Definition trsv_u_instr (N n k : nat) : instr :=
  Instr (ft_rhs, k) (fn_mkl_trsv_u N) [(ft_tiles, slot k n k); (ft_rhs, k)].

Definition gemv_u_instr (N n k m : nat) : instr :=
  Instr (ft_rhs, m) (fn_mkl_gemv_u N)
    [(ft_tiles, slot k n m); (ft_rhs, k); (ft_rhs, m)].

Definition backward_stage_instrs (N n k : nat) : list instr :=
  trsv_u_instr N n k :: map (gemv_u_instr N n k) (rev (seq 0 k)).

Definition backward_instrs (N n : nat) : list instr :=
  flat_map (backward_stage_instrs N n) (rev (seq 0 n)).

Definition gemv_p_instr (N_row N_col n k m : nat) : instr :=
  Instr (ft_rhs, k) (fn_mkl_gemv_p N_row N_col)
    [(ft_tiles, slot k n m); (ft_vector, m); (ft_rhs, k)].

Definition prediction_instrs (N_row N_col n m_tiles : nat) : list instr :=
  flat_map (fun k => map (gemv_p_instr N_row N_col n k) (seq 0 n)) (seq 0 m_tiles).

Definition uncertainty_instr (N M_ n m_tiles i m : nat) : instr :=
  Instr (ft_K_tiles, slot i m_tiles i) (fn_mkl_gemm_uncertainty_matrix N M_)
    [(ft_CC_tiles, slot i n m); (ft_tCC_tiles, slot m m_tiles i);
     (ft_K_tiles, slot i m_tiles i)].

Definition posterior_instrs (N M_ n m_tiles : nat) : list instr :=
  flat_map (fun i => map (uncertainty_instr N M_ n m_tiles i) (seq 0 n))
    (seq 0 m_tiles).

Definition zeros_instr (N d : nat) : instr :=
  Instr (diag_tiles, d) (fn_gen_tile_zeros_diag N) [].

Definition gemm_diag_instr (N n i j : nat) : instr :=
  Instr (diag_tiles, i) (fn_mkl_gemm_diag N)
    [(ft_tiles, slot i n j); (ft_rhs, slot j n i); (diag_tiles, i)].

Definition gradient_instrs (N n : nat) : list instr :=
  map (zeros_instr N) (seq 0 n)
  ++ flat_map (fun i => map (gemm_diag_instr N n i) (seq 0 n)) (seq 0 n).

(** ** The invocation patterns, in the words of the specification *)

Module Spec.

(** Tile [(i,j)] of a grid with [n] columns, stored in vector [r]. *)
Definition grid_slot (r : ref) (i n j : nat) : loc := Slot r (i * n + j).

Definition rows_below (n k : nat) : list nat := filter (fun m => k < m) (seq 0 n).

Definition rows_above (k : nat) : list nat := rev (seq 0 k).

Definition columns_between (n k m : nat) : list nat :=
  filter (fun j => k < j ∧ j < m) (seq 0 n).

(** Factorize diagonal tile [(k,k)]. *)
Definition factorize (N n k : nat) : event :=
  Event (fn_mkl_potrf N) [grid_slot ft_tiles k n k] (grid_slot ft_tiles k n k).

(** Triangular-solve panel tile [(m,k)] against the factor in [(k,k)]. *)
Definition triangular_solve (N n k m : nat) : event :=
  Event (fn_mkl_trsm N) [grid_slot ft_tiles k n k; grid_slot ft_tiles m n k]
    (grid_slot ft_tiles m n k).

(** Rank-update diagonal tile [(m,m)] using panel tile [(m,k)]. *)
Definition rank_update (N n k m : nat) : event :=
  Event (fn_mkl_syrk N) [grid_slot ft_tiles m n m; grid_slot ft_tiles m n k]
    (grid_slot ft_tiles m n m).

(** Matmul-update tile [(m,j)] using panel tiles [(m,k)] and [(j,k)]. *)
Definition matmul_update (N n k m j : nat) : event :=
  Event (fn_mkl_gemm N)
    [grid_slot ft_tiles m n k; grid_slot ft_tiles j n k; grid_slot ft_tiles m n j]
    (grid_slot ft_tiles m n j).

Definition panel (N n k : nat) : list event :=
  map (triangular_solve N n k) (rows_below n k).

Definition updates (N n k : nat) : list event :=
  flat_map (fun m => rank_update N n k m
                     :: map (matmul_update N n k m) (columns_between n k m))
    (rows_below n k).

Definition stage (N n k : nat) : list event :=
  factorize N n k :: panel N n k ++ updates N n k.

Definition cholesky (N n : nat) : list event := flat_map (stage N n) (seq 0 n).

(** Block forward substitution: solve rhs tile [k] against diagonal factor
    tile [(k,k)], then subtract its contribution from every rhs tile [m > k]
    using factor tile [(m,k)]. *)
Definition solve_rhs (f : kernel) (n k : nat) : event :=
  Event f [grid_slot ft_tiles k n k; Slot ft_rhs k] (Slot ft_rhs k).

Definition propagate (f : kernel) (n i j k m : nat) : event :=
  Event f [grid_slot ft_tiles i n j; Slot ft_rhs k; Slot ft_rhs m] (Slot ft_rhs m).

Definition forward_solve (N n : nat) : list event :=
  flat_map (fun k => solve_rhs (fn_mkl_trsv_l N) n k
                     :: map (fun m => propagate (fn_mkl_gemv_l N) n m k k m)
                          (rows_below n k))
    (seq 0 n).

(** The mirror image: [k] from [n-1] down to [0], propagating into every rhs
    tile [m < k] using the (transposed) factor tile [(k,m)]. *)
Definition backward_solve (N n : nat) : list event :=
  flat_map (fun k => solve_rhs (fn_mkl_trsv_u N) n k
                     :: map (fun m => propagate (fn_mkl_gemv_u N) n k m k m)
                          (rows_above k))
    (rev (seq 0 n)).

(** Prediction: result tile [k] accumulates the contribution of covariance
    tile [(k,p)] applied to input tile [p], for every [p]. *)
Definition accumulate (N_row N_col n k p : nat) : event :=
  Event (fn_mkl_gemv_p N_row N_col)
    [grid_slot ft_tiles k n p; Slot ft_vector p; Slot ft_rhs k] (Slot ft_rhs k).

Definition prediction (N_row N_col n m : nat) : list event :=
  flat_map (fun k => map (accumulate N_row N_col n k) (seq 0 n)) (seq 0 m).

(** Posterior covariance: for each diagonal position [i] of the prior, one
    accumulation per tile [p] of the shared inner dimension. *)
Definition accumulate_diagonal (N M_ n m i p : nat) : event :=
  Event (fn_mkl_gemm_uncertainty_matrix N M_)
    [grid_slot ft_CC_tiles i n p; grid_slot ft_tCC_tiles p m i;
     grid_slot ft_K_tiles i m i]
    (grid_slot ft_K_tiles i m i).

Definition posterior_covariance (N M_ n m : nat) : list event :=
  flat_map (fun i => map (accumulate_diagonal N M_ n m i) (seq 0 n)) (seq 0 m).

(** Two invocations are independent when neither writes a slot the other
    reads or writes. *)
Definition touches (e : event) : list loc := ev_write e :: ev_reads e.

Definition independent (e1 e2 : event) : Prop :=
  (ev_write e1 ∉ touches e2) ∧ (ev_write e2 ∉ touches e1).

Definition pairwise_independent (l : list event) : Prop :=
  ∀ i j e1 e2, i ≠ j → l !! i = Some e1 → l !! j = Some e2 → independent e1 e2.

(** [e2] consumes the token [e1] produced. *)
Definition reads_result_of (e2 e1 : event) : Prop := ev_write e1 ∈ ev_reads e2.

(** The panel and update invocations among the events of a stage. *)
Definition is_panel_or_update (e : event) : bool :=
  match ev_fn e with
  | fn_mkl_trsm _ | fn_mkl_syrk _ | fn_mkl_gemm _ => true
  | _ => false
  end.

(** The slots of the lower triangle from column [k] on. *)
Definition in_trailing_triangle (n k : nat) (l : loc) : Prop :=
  ∃ i j, l = grid_slot ft_tiles i n j ∧ k ≤ j ∧ j ≤ i ∧ i < n.

(** The Adam rule for one hyperparameter [theta] with moments [m], [v] and
    gradient [g]: map to unconstrained space, update the biased moments,
    correct their bias with the power accumulators [beta1_t], [beta2_t],
    step, and map back.  The result is the new [(m, v, theta)]. *)
Definition adam (epsilon lr beta1 beta2 beta1_t beta2_t g theta m v : R)
    : R * R * R :=
  let u := ln theta in
  let m' := (beta1 * m + (1 - beta1) * g)%R in
  let v' := (beta2 * v + (1 - beta2) * (g * g))%R in
  let m_hat := (m' / (1 - beta1_t))%R in
  let v_hat := (v' / (1 - beta2_t))%R in
  (m', v', exp (u - lr * m_hat / (sqrt v_hat + epsilon))%R).

End Spec.

(** ** Blocked recurrences on tile values *)

Section Recurrences.

Context {tile : Type} `{Kernels tile} `{TileAlgebra tile}.

(** The tile [(i,j)] of the trailing matrix after the updates of stages
    [0 .. c-1], given the factor tiles [L] and the input tiles [A]. *)
Definition residual (N : nat) (A L : nat → nat → tile) (i j c : nat) : tile :=
  fold_left
    (fun acc p => if decide (i = j)
                  then mkl_syrk acc (L i p) N
                  else mkl_gemm (L i p) (L j p) acc N)
    (seq 0 c) (A i j).

(** Right-looking blocked Cholesky: the dense recurrence the tiled routine
    refines. *)
Definition blocked_cholesky (N n : nat) (A L : nat → nat → tile) : Prop :=
  (∀ j, j < n → L j j = mkl_potrf (residual N A L j j j) N) ∧
  (∀ i j, j < i → i < n → L i j = mkl_trsm (L j j) (residual N A L i j j) N).

(** Block forward substitution [L·y = b]. *)
Definition forward_residual (N : nat) (L : nat → nat → tile) (y b : nat → tile)
    (i c : nat) : tile :=
  fold_left (fun acc p => mkl_gemv_l (L i p) (y p) acc N) (seq 0 c) (b i).

Definition forward_substitution (N n : nat) (L : nat → nat → tile)
    (b y : nat → tile) : Prop :=
  ∀ i, i < n → y i = mkl_trsv_l (L i i) (forward_residual N L y b i i) N.

(** Block backward substitution [Lᵀ·x = y], rows [n-1] down to [0]. *)
Definition backward_residual (N n : nat) (L : nat → nat → tile) (x y : nat → tile)
    (i c : nat) : tile :=
  fold_left (fun acc p => mkl_gemv_u (L p i) (x p) acc N)
    (rev (seq c (n - c))) (y i).

Definition backward_substitution (N n : nat) (L : nat → nat → tile)
    (y x : nat → tile) : Prop :=
  ∀ i, i < n → x i = mkl_trsv_u (L i i) (backward_residual N n L x y i (S i)) N.

(** Block row [i] of [L·v] for block lower triangular [L]. *)
Definition lower_row (L : nat → nat → tile) (v : nat → tile) (i : nat) : tile :=
  fold_left (fun acc p => tadd acc (mul_vec (L i p) (v p)))
    (rev (seq 0 i)) (mul_vec (L i i) (v i)).

(** Block row [i] of [Lᵀ·v]. *)
Definition upper_row (n : nat) (L : nat → nat → tile) (v : nat → tile) (i : nat) : tile :=
  fold_left (fun acc p => tadd acc (mul_tvec (L p i) (v p)))
    (seq (S i) (n - S i)) (mul_tvec (L i i) (v i)).

(** What [prediction_tiled] leaves in a result tile that held [b]. *)
Definition accumulated (N_row N_col n : nat) (A x : nat → tile) (b : tile) : tile :=
  fold_left (fun acc m => mkl_gemv_p (A m) (x m) acc N_row N_col) (seq 0 n) b.

(** [b] plus the contributions [A m · x m], added one after the other. *)
Definition plus_contributions (n : nat) (A x : nat → tile) (b : tile) : tile :=
  fold_left (fun acc m => tadd (mul_vec (A m) (x m)) acc) (seq 0 n) b.

(** The predictive mean tile: the sum of the contributions alone. *)
Definition predictive_mean (n : nat) (A x : nat → tile) : tile :=
  plus_contributions n A x tzero.

(** The diagonal accumulator tile [i] of [update_hyperparameter]: the
    zero tile with the product of tile [(i,j)] of [ft_tiles] and tile [(j,i)]
    of [ft_rhs] accumulated for every [j]. *)
Definition diag_accumulated (N n : nat) (T G : nat → nat → tile) (i : nat) : tile :=
  fold_left (fun acc j => mkl_gemm_diag (T i j) (G j i) acc N) (seq 0 n)
    (gen_tile_zeros_diag N).

(** The gradient [update_hyperparameter] computes from them. *)
Definition gradient_value (N n : nat) (T G : nat → nat → tile) : R :=
  compute_gradient (map (diag_accumulated N n T G) (seq 0 n)) N n.

End Recurrences.

(** ** One-by-one tiles over the real numbers

    With tile size one a tile is a real number; the kernels are then the
    scalar operations.  This instance serves to run the theorems on concrete
    inputs. *)

Module Scalar.

Local Open Scope R_scope.

#[global] Instance kernels : Kernels R := {|
  mkl_potrf A _ := sqrt A;
  mkl_trsm L A _ := A / L;
  mkl_syrk A B _ := A - B * B;
  mkl_gemm A B C _ := C - A * B;
  mkl_trsv_l L b _ := b / L;
  mkl_gemv_l A a b _ := b - A * a;
  mkl_trsv_u L b _ := b / L;
  mkl_gemv_u A a b _ := b - A * a;
  mkl_gemv_p A a b _ _ := 1 * (A * a) + 1 * b;
  mkl_gemm_uncertainty_matrix A B C _ _ := C - A * B;
  gen_tile_zeros_diag _ := 0;
  mkl_gemm_diag A B C _ := C + A * B;
  compute_gradient ts _ _ := fold_right Rplus 0 ts;
  compute_gradient_noise ts _ _ _ := fold_right Rplus 0 ts
|}.

#[global] Instance algebra : TileAlgebra R := {|
  tzero := 0;
  tadd := Rplus;
  tsub := Rminus;
  scal := Rmult;
  mul_nt := Rmult;
  mul_vec := Rmult;
  mul_tvec := Rmult;
  pos_def A := 0 < A;
  nonsingular L := L ≠ 0
|}.

Definition empty_world : world R :=
  {| mem := fun _ => []; hyperparameters := []; m_T := []; v_T := [];
     issued := [] |}.

(** The matrix [[1,2],[2,5]] in four tiles, the right-hand side [(1,4)], and
    an optimizer state. *)
Definition demo : world R :=
  {| mem := fun r =>
       match r with
       | ft_tiles | ft_CC_tiles | ft_tCC_tiles | ft_K_tiles =>
           [ready 1; ready 0; ready 2; ready 5]
       | ft_rhs | ft_vector => [ready 1; ready 4]
       | diag_tiles => []
       end;
     hyperparameters := [1; 1; 1; 1; / 2; / 2];
     m_T := [0; 0; 0];
     v_T := [0; 0; 0];
     issued := [] |}.

(** The tiles of [demo] by position. *)
Definition demo_A (i j : nat) : R := nth (i * 2 + j) [1; 0; 2; 5] 0.

Definition demo_b (i : nat) : R := nth i [1; 4] 0.

(** The same state with square grids in both [ft_tiles] and [ft_rhs], as
    [update_hyperparameter] reads them. *)
Definition demo_grad : world R :=
  set_mem ft_rhs [ready 1; ready 0; ready 0; ready 1] demo.

(** The identity in four tiles. *)
Definition demo_G (i j : nat) : R := nth (i * 2 + j) [1; 0; 0; 1] 0.

(** One entry of the power accumulators: [β1^1 = β2^1 = 1/2]. *)
Definition demo_beta_T : list R := [/ 2].

End Scalar.

(** ** The values behind the tokens

    [values w] gives the tile each slot stands for; an instruction changes it
    at its destination only. *)

Section ValueExec.

Context {tile : Type} `{Kernels tile}.

Definition values (w : world tile) (s : ref * nat) : option tile :=
  value w (fst s) (snd s).

Definition vexec (V : ref * nat → option tile) (i : instr) : ref * nat → option tile :=
  fun s =>
    if decide (s = i_dst i)
    then unwrapping (i_fn i) (map V (i_srcs i))
    else V s.

End ValueExec.

(** ** adapter_cublas.cpp: the kernels on host vectors

    [dot_diag_syrk] and [dot_diag_gemm] work on the values of their
    futures, row-major matrices in [std::vector<double>].  They are the same
    for every addition on [double] and every result of the external
    [cblas_ddot]: nothing in the adapter determines in which order, or with
    which roundings, the library sums the products, so [ddot] stands for
    whatever it returns on the two sequences of elements it walks over. *)

Class Arithmetic (double : Type) : Type := {
  dadd : double → double → double;
  ddot : list double → list double → double
}.

Module Host.

(** A [std::size_t] handed to a CBLAS parameter, which is an [int]. *)
Definition to_int (x : nat) : Z := int_of_size_t (N.of_nat x).

(** The offset of the [i]-th of the [n] elements a BLAS routine walks over
    with increment [inc]: forwards from the pointer or, for a negative
    increment, backwards from the last of them. *)
Definition stride (n i : nat) (inc : Z) : nat :=
  if (0 <=? inc)%Z then i * Z.to_nat inc else (n - 1 - i) * Z.to_nat (- inc).

Section Kernels.

Context {double : Type} `{Arithmetic double}.

(** [&A[j]]: [operator[]] of [std::vector] requires [j < A.size()], also
    when only the address of the element is taken.  The pointer is the
    array with the offset into it. *)
Definition address_of (A : list double) (j : nat) : option nat :=
  if decide (j < length A) then Some j else None.

(** The [n] elements a BLAS routine walks over from a pointer; a read beyond
    the end of the array is undefined ([None]).  There is none to walk over
    when [n] is not positive. *)
Definition walk (n : Z) (X : list double) (off : nat) (inc : Z)
    : option (list double) :=
  mapM (fun i => X !! (off + stride (Z.to_nat n) i inc)) (seq 0 (Z.to_nat n)).

(** The external [cblas_ddot(n, X, incX, Y, incY)], on the elements walked
    over in [X] and in [Y]. *)
Definition cblas_ddot (n : Z) (X : list double) (offX : nat) (incX : Z)
    (Y : list double) (offY : nat) (incY : Z) : option double :=
  xs ← walk n X offX incX;
  ys ← walk n Y offY incY;
  Some (ddot xs ys).

(** [r[j] += d], with [d] the result of a call that may be undefined. *)
Definition add_at (r : list double) (j : nat) (d : option double)
    : outcome (list double) :=
  match r !! j, d with
  | Some r_j, Some x => Returned (<[j := dadd r_j x]> r)
  | _, _ => Thrown undefined_behaviour
  end.

(** A counted loop over the local vector [r]. *)
Fixpoint loop (l : list nat) (body : list double → nat → outcome (list double))
    (r : list double) : outcome (list double) :=
  match l with
  | [] => Returned r
  | j :: l' =>
      match body r j with
      | Returned r' => loop l' body r'
      | Thrown e => Thrown e
      end
  end.

(** [dot_diag_syrk], on the values of its two futures; the counter is an
    [int] compared with the [std::size_t M]. *)
Definition dot_diag_syrk (A r : list double) (N M : nat) : outcome (list double) :=
  (* r = r + diag(A^T * A) *)
  if decide (Z.of_nat M ≤ INT_MAX)%Z then
    loop (seq 0 M)
      (fun r j =>
         (* Extract the j-th column and compute the dot product with itself *)
         add_at r j
           (p ← address_of A j;
            cblas_ddot (to_int N) A p (to_int M) A p (to_int M)))
      r
  else Thrown undefined_behaviour.

(** [dot_diag_gemm], on the values of its three futures. *)
Definition dot_diag_gemm (A B r : list double) (N M : nat) : outcome (list double) :=
  (* r = r + diag(A * B) *)
  loop (seq 0 N)
    (fun r i =>
       add_at r i
         (p ← address_of A (slot i M 0);
          q ← address_of B i;
          cblas_ddot (to_int M) A p 1 B q (to_int N)))
    r.

(** *** Rows and columns *)

(** Row [i] of a row-major matrix with [M] columns. *)
Definition row (A : list double) (M i : nat) : list double :=
  take M (drop (i * M) A).

(** Column [j] of a row-major [N × M] matrix. *)
Definition column (A : list double) (N M j : nat) : list double :=
  omap (fun i => row A M i !! j) (seq 0 N).

End Kernels.

Import PrimFloat.

(** An arithmetic to run the kernels on: IEEE doubles, with a dot product
    that sums the products from the first component on. *)
#[global] Instance float_arithmetic : Arithmetic PrimFloat.float := {|
  dadd := PrimFloat.add;
  ddot := fun u v => fold_left PrimFloat.add (zip_with PrimFloat.mul u v) 0%float
|}.

(** The matrix [[1,2],[3,4]] and a vector. *)
Definition demo_A : list PrimFloat.float := [1; 2; 3; 4]%float.

Definition demo_r : list PrimFloat.float := [10; 20]%float.

(** [demo_r] plus the diagonal of [demo_Aᵀ·demo_A], and plus that of
    [demo_A·demo_A]. *)
Definition demo_r_syrk : list PrimFloat.float := [20; 40]%float.

Definition demo_r_gemm : list PrimFloat.float := [17; 42]%float.

End Host.

(** ** What a solve with the tiled Cholesky factor reads *)

(** The slots the pipeline Cholesky, forward solve, backward solve computes
    with: the lower triangle of [ft_tiles], diagonal included, and the [n]
    tiles of [ft_rhs]. *)
Definition lower_triangle_inputs (n : nat) (s : ref * nat) : Prop :=
  (∃ i j, j ≤ i ∧ i < n ∧ s = (ft_tiles, i * n + j)) ∨
  (∃ k, k < n ∧ s = (ft_rhs, k)).

(** Two worlds that hold the same futures in the slots of [S]. *)
Definition agree_on {tile : Type} (S : ref * nat → Prop) (w1 w2 : world tile) : Prop :=
  ∀ s, S s → token_at w1 s = token_at w2 s.

(** [Scalar.demo] with another tile above the diagonal. *)
Definition demo_upper : world R :=
  set_mem ft_tiles [ready 1%R; ready 7%R; ready 2%R; ready 5%R] Scalar.demo.

(** ** The data flow of the tiled Cholesky

    The invocation trees of the right-looking recurrence, on the tokens [T]
    the caller passed and the tokens [L] of the factor tiles. *)

Section CholeskyTokens.

Context {tile : Type}.

(** The token of tile [(i,j)] of the trailing matrix after the updates of
    stages [0 .. c-1]: one [mkl_syrk] (on the diagonal) or [mkl_gemm] node
    per stage. *)
Definition updated_token (N : nat) (T L : nat → nat → future tile)
    (i j c : nat) : future tile :=
  fold_left
    (fun acc p => if decide (i = j)
                  then dataflow (fn_mkl_syrk N) [acc; L i p]
                  else dataflow (fn_mkl_gemm N) [L i p; L j p; acc])
    (seq 0 c) (T i j).

(** The tokens of the factor: [mkl_potrf] on the updated diagonal tile,
    [mkl_trsm] with it on the updated tiles below. *)
Definition cholesky_tokens (N n : nat) (T L : nat → nat → future tile) : Prop :=
  (∀ j, j < n → L j j = dataflow (fn_mkl_potrf N) [updated_token N T L j j j]) ∧
  (∀ i j, j < i → i < n →
     L i j = dataflow (fn_mkl_trsm N) [L j j; updated_token N T L i j j]).

End CholeskyTokens.

(** ** What a call of [potrf] needs of the runtime *)

(** The device and host allocations before the solver runs succeed. *)
Definition allocations_ok (rt : Cublas.runtime) : Prop :=
  Cublas.cudaMalloc_d_info rt = Cublas.cudaSuccess ∧
  Cublas.cudaMalloc_d_work rt = Cublas.cudaSuccess ∧
  (Cublas.workspaceInBytesOnHost rt = 0%N ∨ Cublas.malloc_h_work_ok rt = true).

(** The synchronization and the releases after the solver ran succeed. *)
Definition releases_ok (rt : Cublas.runtime) : Prop :=
  Cublas.cudaStreamSynchronize_stream rt = Cublas.cudaSuccess ∧
  Cublas.cudaFree_d_work rt = Cublas.cudaSuccess ∧
  Cublas.cudaFree_d_info rt = Cublas.cudaSuccess.

(** ** tiled_algorithms_cpu.hpp: the routines on matrices of tiles

    The triangular solves with a matrix of right-hand sides, the loss, the
    prediction uncertainty and the assembly of the gradient matrix hand
    kernels of their own to [hpx::dataflow], on vectors of their own.  They
    are embedded as the routines above are, over these kernel and vector
    names. *)

Module Tiled.

(** The functions handed to [hpx::dataflow], with the sizes passed by
    value. *)
Inductive kernel : Type :=
| fn_mkl_trsm_l_matrix (N M : nat)
| fn_mkl_gemm_l_matrix (N M : nat)
| fn_mkl_trsm_u_matrix (N M : nat)
| fn_mkl_gemm_u_matrix (N M : nat)
| fn_mkl_trsm_u_KK (N M : nat)
| fn_mkl_gemm_u_KK (N M : nat)
| fn_mkl_trsm_l_KK (N M : nat)
| fn_mkl_gemm_l_KK (N M : nat)
| fn_compute_loss (N : nat)
| fn_add_losses (N n_tiles : nat)
| fn_diag (M : nat)
| fn_mkl_ger (N : nat).

(** The vectors of futures by parameter name, the local vector
    [loss_tiled] of [compute_loss_tiled], and its one future [loss], kept as
    a vector of one element. *)
Inductive ref : Type :=
| ft_tiles | ft_rhs | K_tiles | CrossK_tiles
| ft_alpha | ft_y | loss_tiled | loss
| ft_vector | ft_v1 | ft_v2.

#[global] Instance ref_eq_dec : EqDecision ref.
Proof. solve_decision. Defined.

(** One issued invocation: the function, the slots whose futures it was
    given, and the slot its result future was stored in. *)
Record event : Type := Event {
ev_fn : kernel;
ev_reads : list (ref * nat);
ev_write : ref * nat
}.

Section Machine.

Context {tile : Type}.

(** [hpx::shared_future<...>], as a dependency token. *)
#[local] Unset Elimination Schemes.
Inductive future : Type :=
| no_state                                   (* default constructed *)
| ready (v : tile)                           (* made ready by the caller *)
| dataflow (f : kernel) (args : list future) (* one kernel invocation *).

Record world : Type := World {
  mem : ref → list future;
  issued : list event
}.

Definition M (A : Type) : Type := world → outcome A * world.

Definition ret {A} (a : A) : M A := fun w => (Returned a, w).

Definition bind {A B} (c : M A) (k : A → M B) : M B :=
  fun w =>
    match c w with
    | (Returned a, w') => k a w'
    | (Thrown e, w') => (Thrown e, w')
    end.

Definition throw {A} (e : exn) : M A := fun w => (Thrown e, w).

End Machine.

Arguments future : clear implicits.
Arguments world : clear implicits.

Declare Scope tiled_scope.
Delimit Scope tiled_scope with tiled.
Notation "x <- c1 ;; c2" := (bind c1 (fun x => c2))
  (at level 100, c1 at next level, c2 at level 200, right associativity) : tiled_scope.
Notation "c1 ;; c2" := (bind c1 (fun _ => c2))
  (at level 100, c2 at level 200, right associativity) : tiled_scope.
Local Open Scope tiled_scope.

Section Statements.

Context {tile : Type}.
Abbreviation M := (@M tile).

Definition set_mem (r : ref) (l : list (future tile)) (w : world tile) : world tile :=
  {| mem := fun r' => if decide (r' = r) then l else mem w r';
     issued := issued w |}.

Definition log (e : event) (w : world tile) : world tile :=
  {| mem := mem w; issued := issued w ++ [e] |}.

(** [v[i]] as an rvalue; [operator[]] beyond [size()] is undefined. *)
Definition vec_read (r : ref) (i : nat) : M (future tile) :=
  fun w =>
    match mem w r !! i with
    | Some f => (Returned f, w)
    | None => (Thrown undefined_behaviour, w)
    end.

(** [v[i] = f]. *)
Definition vec_write (r : ref) (i : nat) (f : future tile) : M unit :=
  fun w =>
    if decide (i < length (mem w r))
    then (Returned tt, set_mem r (<[i := f]> (mem w r)) w)
    else (Thrown undefined_behaviour, w).

(** [std::vector<...> v; v.resize(n)]. *)
Definition vec_resize (r : ref) (n : nat) : M unit :=
  fun w => (Returned tt, set_mem r (replicate n no_state) w).

(** The end of the scope of a local vector. *)
Definition vec_destroy (r : ref) : M unit :=
  fun w => (Returned tt, set_mem r [] w).

(** A vector handed to [hpx::dataflow] as a whole: all of its futures. *)
Definition vec_read_all (r : ref) : M (list (future tile)) :=
  fun w => (Returned (mem w r), w).

(** [x = f] for the future [x] behind a reference. *)
Definition var_write (r : ref) (f : future tile) : M unit :=
  fun w => (Returned tt, set_mem r [f] w).

Definition issue (e : event) : M unit :=
  fun w => (Returned tt, log e w).

Fixpoint read_all (srcs : list (ref * nat)) : M (list (future tile)) :=
  match srcs with
  | [] => ret []
  | (r, i) :: rest =>
      f <- vec_read r i;;
      fs <- read_all rest;;
      ret (f :: fs)
  end.

(** [dst[i] = hpx::dataflow(hpx::unwrapping(&f), a[j], b[k], ..., N)]:
    the argument futures are read, the invocation is issued, and its result
    future supersedes the one in the destination slot. *)
Definition assign_dataflow (dst : ref * nat) (f : kernel)
    (srcs : list (ref * nat)) : M unit :=
  args <- read_all srcs;;
  issue (Event f srcs dst);;
  vec_write (fst dst) (snd dst) (dataflow f args).

(** Counted loops.  The bounds are not changed by the bodies. *)
Fixpoint for_each {A} (l : list A) (body : A → M unit) : M unit :=
  match l with
  | [] => ret tt
  | x :: l' => body x;; for_each l' body
  end.

(** [for (std::size_t i = lo; i < hi; i++)] *)
Definition for_up (lo hi : nat) (body : nat → M unit) : M unit :=
  for_each (seq lo (hi - lo)) body.

(** [for (int i = start; i >= 0; i--)] *)
Definition for_down (start : Z) (body : nat → M unit) : M unit :=
  for_each (rev (seq 0 (Z.to_nat (start + 1)))) body.

(** [for (int i = 0; i < hi; i++)] with [hi] a [std::size_t]: the counter
    overflows, which is undefined, when [hi] exceeds [INT_MAX]. *)
Definition for_up_int (hi : nat) (body : nat → M unit) : M unit :=
  if decide (Z.of_nat hi ≤ INT_MAX)%Z
  then for_each (seq 0 hi) body
  else throw undefined_behaviour.

(** Tiled Triangular Solve Algorithms for Mtrices (K * X = B) *)
Definition forward_solve_tiled_matrix (N M_ n_tiles m_tiles : nat) : M unit :=
  for_up 0 m_tiles (fun c =>
    for_up 0 n_tiles (fun k =>
      (* TRSM *)
      assign_dataflow (ft_rhs, slot k m_tiles c) (fn_mkl_trsm_l_matrix N M_)
        [(ft_tiles, slot k n_tiles k); (ft_rhs, slot k m_tiles c)];;
      for_up (k + 1) n_tiles (fun m =>
        (* GEMV *)
        assign_dataflow (ft_rhs, slot m m_tiles c) (fn_mkl_gemm_l_matrix N M_)
          [(ft_tiles, slot m n_tiles k); (ft_rhs, slot k m_tiles c);
           (ft_rhs, slot m m_tiles c)]))).

Definition backward_solve_tiled_matrix (N M_ n_tiles m_tiles : nat) : M unit :=
  for_up_int m_tiles (fun c =>
    for_down (int_of_size_t (size_pred n_tiles)) (fun k =>
      (* TRSM *)
      assign_dataflow (ft_rhs, slot k m_tiles c) (fn_mkl_trsm_u_matrix N M_)
        [(ft_tiles, slot k n_tiles k); (ft_rhs, slot k m_tiles c)];;
      for_down (Z.of_nat k - 1) (fun m =>
        (* GEMV *)
        assign_dataflow (ft_rhs, slot m m_tiles c) (fn_mkl_gemm_u_matrix N M_)
          [(ft_tiles, slot k n_tiles m); (ft_rhs, slot k m_tiles c);
           (ft_rhs, slot m m_tiles c)]))).

(** Triangular solve A_M,N * K_NxN = K_MxN -> A_MxN = K_MxN * K^-1_NxN *)
Definition forward_solve_KK_tiled (N M_ n_tiles m_tiles : nat) : M unit :=
  for_up 0 m_tiles (fun r =>
    for_up 0 n_tiles (fun c =>
      (* TRSM *)
      assign_dataflow (ft_rhs, slot r n_tiles c) (fn_mkl_trsm_u_KK N M_)
        [(ft_tiles, slot c n_tiles c); (ft_rhs, slot r n_tiles c)];;
      for_up (c + 1) n_tiles (fun m =>
        (* GEMV *)
        assign_dataflow (ft_rhs, slot r n_tiles m) (fn_mkl_gemm_u_KK N M_)
          [(ft_tiles, slot m n_tiles c); (ft_rhs, slot r n_tiles c);
           (ft_rhs, slot r n_tiles m)]))).

Definition backward_solve_KK_tiled (N M_ n_tiles m_tiles : nat) : M unit :=
  for_up_int m_tiles (fun r =>
    for_down (int_of_size_t (size_pred n_tiles)) (fun c =>
      (* TRSM *)
      assign_dataflow (CrossK_tiles, slot r n_tiles c) (fn_mkl_trsm_l_KK N M_)
        [(K_tiles, slot c n_tiles c); (CrossK_tiles, slot r n_tiles c)];;
      for_down (Z.of_nat c - 1) (fun m =>
        (* GEMV *)
        assign_dataflow (CrossK_tiles, slot r n_tiles m) (fn_mkl_gemm_l_KK N M_)
          [(K_tiles, slot c n_tiles m); (CrossK_tiles, slot r n_tiles c);
           (CrossK_tiles, slot r n_tiles m)]))).

(** Tiled Loss *)
Definition compute_loss_tiled (N n_tiles : nat) : M unit :=
  vec_resize loss_tiled n_tiles;;
  for_up 0 n_tiles (fun k =>
    assign_dataflow (loss_tiled, k) (fn_compute_loss N)
      [(ft_tiles, slot k n_tiles k); (ft_alpha, k); (ft_y, k)]);;
  fs <- vec_read_all loss_tiled;;
  issue (Event (fn_add_losses N n_tiles)
           (map (pair loss_tiled) (seq 0 (length fs))) (loss, 0));;
  var_write loss (dataflow (fn_add_losses N n_tiles) fs);;
  vec_destroy loss_tiled.

(** Tiled Prediction Uncertainty *)
Definition prediction_uncertainty_tiled (M_ m_tiles : nat) : M unit :=
  for_up 0 m_tiles (fun i =>
    assign_dataflow (ft_vector, i) (fn_diag M_) [(ft_tiles, slot i m_tiles i)]).

(** Fill y*y^T*inv(K)-I Cholesky Algorithms *)
Definition update_grad_K_tiled_mkl (N n_tiles : nat) : M unit :=
  for_up 0 n_tiles (fun i =>
    for_up 0 n_tiles (fun j =>
      assign_dataflow (ft_tiles, slot i n_tiles j) (fn_mkl_ger N)
        [(ft_tiles, slot i n_tiles j); (ft_v1, i); (ft_v2, j)])).

End Statements.

(** *** Straight-line view

    As above: every statement of these routines but the last of
    [compute_loss_tiled] assigns one dataflow node to a vector slot. *)
Record instr : Type := Instr {
  i_dst : ref * nat;
  i_fn : kernel;
  i_srcs : list (ref * nat)
}.

Definition event_of (i : instr) : event := Event (i_fn i) (i_srcs i) (i_dst i).

Section Exec.

Context {tile : Type}.

Definition run_instr (i : instr) : @M tile unit :=
  assign_dataflow (i_dst i) (i_fn i) (i_srcs i).

Definition token_at (w : world tile) (s : ref * nat) : future tile :=
  default no_state (mem w (fst s) !! snd s).

(** The future of tile [(i,j)] of a grid with [n] columns in vector [r]. *)
Definition tile_at (w : world tile) (r : ref) (i n j : nat) : future tile :=
  token_at w (r, i * n + j).

Definition exec (w : world tile) (i : instr) : world tile :=
  set_mem (fst (i_dst i))
    (<[snd (i_dst i) := dataflow (i_fn i) (map (token_at w) (i_srcs i))]>
       (mem w (fst (i_dst i))))
    (log (event_of i) w).

Definition in_range (w : world tile) (i : instr) : Prop :=
  snd (i_dst i) < length (mem w (fst (i_dst i))) ∧
  Forall (fun s => snd s < length (mem w (fst s))) (i_srcs i).

(** Two worlds whose vectors have the same sizes. *)
Definition same_shape (w w' : world tile) : Prop :=
  ∀ r, length (mem w' r) = length (mem w r).

(** Two worlds that hold the same futures in the slots of [S]. *)
Definition agree_on (S : ref * nat → Prop) (w1 w2 : world tile) : Prop :=
  ∀ s, S s → token_at w1 s = token_at w2 s.

(** The future a triangular sweep leaves at a position that held [b]: the
    solve against the diagonal future [D] of [b] updated, in the order
    [pre], with the off-diagonal future [O p] and the result future [X p] of
    every position [p] swept before. *)
Definition solved (f g : kernel) (D : future tile) (O X : nat → future tile)
    (pre : list nat) (b : future tile) : future tile :=
  dataflow f [D; fold_left (fun acc p => dataflow g [O p; X p; acc]) pre b].

End Exec.

(** The two statements of a triangular sweep, and the sweep over the
    positions [order]: solve position [k] in place against [dg k], then
    update every position [t] still to come with [off t k] and the
    solution. *)
Definition solve_instr (f : kernel) (dg x : ref * nat) : instr :=
  Instr x f [dg; x].

Definition update_instr (g : kernel) (off src dst : ref * nat) : instr :=
  Instr dst g [off; src; dst].

Fixpoint sweep (f g : kernel) (dg : nat → ref * nat)
    (off : nat → nat → ref * nat) (x : nat → ref * nat)
    (order : list nat) : list instr :=
  match order with
  | [] => []
  | k :: rest =>
      solve_instr f (dg k) (x k)
      :: map (fun t => update_instr g (off t k) (x k) (x t)) rest
      ++ sweep f g dg off x rest
  end.

(** The instructions of each routine, loop by loop as the source nests
    them. *)
Definition forward_matrix_column (N M_ n m c : nat) : list instr :=
  sweep (fn_mkl_trsm_l_matrix N M_) (fn_mkl_gemm_l_matrix N M_)
    (fun k => (ft_tiles, slot k n k))
    (fun t k => (ft_tiles, slot t n k))
    (fun k => (ft_rhs, slot k m c))
    (seq 0 n).

Definition forward_matrix_instrs (N M_ n m : nat) : list instr :=
  flat_map (forward_matrix_column N M_ n m) (seq 0 m).

Definition backward_matrix_column (N M_ n m c : nat) : list instr :=
  sweep (fn_mkl_trsm_u_matrix N M_) (fn_mkl_gemm_u_matrix N M_)
    (fun k => (ft_tiles, slot k n k))
    (fun t k => (ft_tiles, slot k n t))
    (fun k => (ft_rhs, slot k m c))
    (rev (seq 0 n)).

Definition backward_matrix_instrs (N M_ n m : nat) : list instr :=
  flat_map (backward_matrix_column N M_ n m) (seq 0 m).

Definition forward_KK_row (N M_ n r : nat) : list instr :=
  sweep (fn_mkl_trsm_u_KK N M_) (fn_mkl_gemm_u_KK N M_)
    (fun c => (ft_tiles, slot c n c))
    (fun t c => (ft_tiles, slot t n c))
    (fun c => (ft_rhs, slot r n c))
    (seq 0 n).

Definition forward_KK_instrs (N M_ n m : nat) : list instr :=
  flat_map (forward_KK_row N M_ n) (seq 0 m).

Definition backward_KK_row (N M_ n r : nat) : list instr :=
  sweep (fn_mkl_trsm_l_KK N M_) (fn_mkl_gemm_l_KK N M_)
    (fun c => (K_tiles, slot c n c))
    (fun t c => (K_tiles, slot c n t))
    (fun c => (CrossK_tiles, slot r n c))
    (rev (seq 0 n)).

Definition backward_KK_instrs (N M_ n m : nat) : list instr :=
  flat_map (backward_KK_row N M_ n) (seq 0 m).

Definition loss_instr (N n k : nat) : instr :=
  Instr (loss_tiled, k) (fn_compute_loss N)
    [(ft_tiles, slot k n k); (ft_alpha, k); (ft_y, k)].

Definition uncertainty_instr (M_ m i : nat) : instr :=
  Instr (ft_vector, i) (fn_diag M_) [(ft_tiles, slot i m i)].

Definition ger_instr (N n i j : nat) : instr :=
  Instr (ft_tiles, slot i n j) (fn_mkl_ger N)
    [(ft_tiles, slot i n j); (ft_v1, i); (ft_v2, j)].

Definition grad_K_instrs (N n : nat) : list instr :=
  flat_map (fun i => map (ger_instr N n i) (seq 0 n)) (seq 0 n).

(** The slots column [c] of a solve with a matrix of right-hand sides is
    computed from: the lower triangle of the factor and column [c] of the
    right-hand sides. *)
Definition column_inputs (n m c : nat) (s : ref * nat) : Prop :=
  (∃ i j, j ≤ i ∧ i < n ∧ s = (ft_tiles, i * n + j)) ∨
  (∃ k, k < n ∧ s = (ft_rhs, k * m + c)).

(** A state to run the routines on: a 2 × 2 grid of tiles and vectors of two
    tiles, the tiles named by numbers. *)
Definition demo : world nat :=
  {| mem := fun r =>
       match r with
       | ft_tiles | K_tiles => [ready 0; ready 1; ready 2; ready 3]
       | loss => [no_state]
       | loss_tiled => []
       | _ => [ready 4; ready 5]
       end;
     issued := [] |}.

(** The same state with another tile above the diagonal of the grid. *)
Definition demo_upper : world nat :=
  set_mem ft_tiles [ready 0; ready 9; ready 2; ready 3] demo.

End Tiled.

(** * Properties *)

(** ** Index arithmetic *)

Lemma slot_exact (i n j : nat) :
  (N.of_nat (i * n + j) < size_t_modulus)%N → slot i n j = i * n + j.
Proof.
  intros Hlt. unfold slot, size_wrap.
  rewrite N.mod_small by lia. lia.
Qed.

Lemma vector_max_size_lt : (vector_max_size < size_t_modulus)%N.
Proof. reflexivity. Qed.

Lemma slot_in_grid (i n m j : nat) :
  (N.of_nat (n * m) ≤ vector_max_size)%N → i < n → j < m →
  slot i m j = i * m + j ∧ i * m + j < n * m.
Proof.
  intros Hmax Hi Hj.
  assert (i * m + j < n * m) by nia.
  split; [|done].
  apply slot_exact. pose proof vector_max_size_lt. lia.
Qed.

Lemma grid_side_small (n : nat) :
  (N.of_nat (n * n) ≤ vector_max_size)%N → (Z.of_nat n ≤ 2 ^ 30)%Z.
Proof.
  unfold vector_max_size. intros Hmax.
  destruct (decide (Z.of_nat n ≤ 2 ^ 30)%Z) as [|Hgt]; [done|].
  exfalso.
  assert (2 ^ 30 + 1 ≤ Z.of_nat n)%Z as Hn by lia.
  assert (Z.of_nat (n * n) ≤ 2 ^ 60)%Z as Hsq.
  { change (2 ^ 60)%Z with (Z.of_N (2 ^ 60)%N). lia. }
  rewrite Nat2Z.inj_mul in Hsq. nia.
Qed.

Lemma int_of_size_pred (n : nat) :
  (Z.of_nat n ≤ 2 ^ 30)%Z → int_of_size_t (size_pred n) = (Z.of_nat n - 1)%Z.
Proof.
  intros Hn. unfold int_of_size_t, size_pred, size_wrap, size_t_modulus.
  destruct (decide (n = 0)) as [->|Hpos].
  - reflexivity.
  - replace (N.of_nat n + (2 ^ 64 - 1))%N with (N.of_nat n - 1 + 1 * 2 ^ 64)%N
      by (change (2 ^ 64)%N with 18446744073709551616%N; lia).
    rewrite N.Div0.mod_add.
    rewrite N.mod_small
      by (change (2 ^ 64)%N with 18446744073709551616%N;
          change (2 ^ 30)%Z with 1073741824%Z in Hn; lia).
    rewrite N2Z.inj_sub by lia. rewrite nat_N_Z.
    change (Z.of_N 1) with 1%Z.
    rewrite Z.mod_small
      by (change (2 ^ 32)%Z with 4294967296%Z;
          change (2 ^ 30)%Z with 1073741824%Z in Hn; lia).
    destruct (Z.ltb_spec (Z.of_nat n - 1) (2 ^ 31)) as [|Hge]; [done|].
    change (2 ^ 31)%Z with 2147483648%Z in Hge.
    change (2 ^ 30)%Z with 1073741824%Z in Hn. lia.
Qed.

Lemma seq_snoc (lo len : nat) : seq lo (S len) = seq lo len ++ [lo + len].
Proof. rewrite seq_S. done. Qed.

Lemma filter_seq_above (n k : nat) :
  filter (fun m => k < m) (seq 0 n) = seq (k + 1) (n - (k + 1)).
Proof.
  induction n as [|n IH]; [done|].
  rewrite seq_snoc, filter_app, IH. simpl.
  rewrite filter_cons, filter_nil.
  destruct (decide (k < n)) as [Hlt|Hge].
  - replace (S n - (k + 1)) with (S (n - (k + 1))) by lia.
    rewrite seq_snoc. do 2 f_equal. lia.
  - replace (S n - (k + 1)) with 0 by lia.
    replace (n - (k + 1)) with 0 by lia. done.
Qed.

Lemma filter_seq_between_min (n k m : nat) :
  filter (fun j => k < j ∧ j < m) (seq 0 n) = seq (k + 1) (Nat.min m n - (k + 1)).
Proof.
  induction n as [|n IH].
  - replace (Nat.min m 0 - (k + 1)) with 0 by lia. done.
  - rewrite seq_snoc, filter_app, IH. simpl.
    rewrite filter_cons, filter_nil.
    destruct (decide (k < n ∧ n < m)) as [[Hlt Hlt']|Hge].
    + replace (Nat.min m (S n) - (k + 1)) with (S (Nat.min m n - (k + 1))) by lia.
      rewrite seq_snoc. do 2 f_equal. lia.
    + rewrite app_nil_r. f_equal. lia.
Qed.

Lemma filter_seq_between (n k m : nat) :
  m ≤ n → filter (fun j => k < j ∧ j < m) (seq 0 n) = seq (k + 1) (m - (k + 1)).
Proof.
  intros Hm. rewrite filter_seq_between_min. f_equal. lia.
Qed.

(** ** The monad and the loops *)

Section MonadFacts.

Context {tile : Type}.
Implicit Types w : world tile.

Lemma bind_ext {A B} (c : @M tile A) (k1 k2 : A → @M tile B) w :
  (∀ a w', k1 a w' = k2 a w') → bind c k1 w = bind c k2 w.
Proof.
  intros Hk. unfold bind. destruct (c w) as [[a|e] w']; [apply Hk|done].
Qed.

Lemma bind_assoc {A B C} (c : @M tile A) (k1 : A → @M tile B) (k2 : B → @M tile C) w :
  bind (bind c k1) k2 w = bind c (fun a => bind (k1 a) k2) w.
Proof.
  unfold bind. destruct (c w) as [[a|e] w']; done.
Qed.

Lemma bind_returned {A B} (c : @M tile A) (k : A → @M tile B) w a w' :
  c w = (Returned a, w') → bind c k w = k a w'.
Proof. intros Hc. unfold bind. by rewrite Hc. Qed.

Lemma for_each_ext {A} (l : list A) (b1 b2 : A → @M tile unit) w :
  (∀ x w', b1 x w' = b2 x w') → for_each l b1 w = for_each l b2 w.
Proof.
  intros Hb. revert w. induction l as [|x l IH]; intros w; [done|].
  simpl. unfold bind. rewrite Hb.
  destruct (b2 x w) as [[[]|e] w']; [apply IH|done].
Qed.

Lemma for_each_app {A} (l1 l2 : list A) (body : A → @M tile unit) w :
  for_each (l1 ++ l2) body w = (for_each l1 body;; for_each l2 body) w.
Proof.
  revert w. induction l1 as [|x l1 IH]; intros w; simpl.
  - done.
  - rewrite bind_assoc. apply bind_ext. intros _ w'. apply IH.
Qed.

Lemma for_each_map {A B} (g : A → B) (l : list A) (body : B → @M tile unit) w :
  for_each (map g l) body w = for_each l (fun x => body (g x)) w.
Proof.
  revert w. induction l as [|x l IH]; intros w; simpl; [done|].
  apply bind_ext. intros _ w'. apply IH.
Qed.

Lemma for_each_flat_map {A B} (g : A → list B) (l : list A)
    (body : B → @M tile unit) w :
  for_each (flat_map g l) body w = for_each l (fun x => for_each (g x) body) w.
Proof.
  revert w. induction l as [|x l IH]; intros w; simpl; [done|].
  rewrite for_each_app. apply bind_ext. intros _ w'. apply IH.
Qed.

(** *** One instruction *)

Lemma set_mem_lookup r l w r' :
  mem (set_mem r l w) r' = if decide (r' = r) then l else mem w r'.
Proof. done. Qed.

Lemma exec_length w i r : length (mem (exec w i) r) = length (mem w r).
Proof.
  unfold exec. rewrite set_mem_lookup. case_decide as Hr; [|done].
  subst r. by rewrite length_insert.
Qed.

Lemma exec_issued w i : issued (exec w i) = issued w ++ [event_of i].
Proof. done. Qed.

Lemma exec_hyperparameters w i : hyperparameters (exec w i) = hyperparameters w.
Proof. done. Qed.

Lemma exec_m_T w i : m_T (exec w i) = m_T w.
Proof. done. Qed.

Lemma exec_v_T w i : v_T (exec w i) = v_T w.
Proof. done. Qed.

Lemma exec_mem_other w i r : r ≠ fst (i_dst i) → mem (exec w i) r = mem w r.
Proof.
  intros Hr. unfold exec. rewrite set_mem_lookup. by case_decide.
Qed.

Lemma exec_lookup_other w i r k :
  (r, k) ≠ i_dst i → mem (exec w i) r !! k = mem w r !! k.
Proof.
  intros Hne. unfold exec. rewrite set_mem_lookup. case_decide as Hr; [|done].
  subst r. apply list_lookup_insert_ne. intros Hk. apply Hne.
  rewrite <- Hk. by destruct (i_dst i).
Qed.

Lemma exec_lookup_dst w i :
  in_range w i →
  mem (exec w i) (fst (i_dst i)) !! snd (i_dst i)
  = Some (dataflow (i_fn i) (map (token_at w) (i_srcs i))).
Proof.
  intros [Hd _]. unfold exec. rewrite set_mem_lookup.
  case_decide; [|done]. by apply list_lookup_insert_eq.
Qed.

Lemma read_all_in_range (srcs : list (ref * nat)) w :
  Forall (fun s => snd s < length (mem w (fst s))) srcs →
  read_all srcs w = (Returned (map (token_at w) srcs), w).
Proof.
  induction 1 as [|[r k] srcs Hlt _ IH]; [done|].
  simpl in *. unfold bind, vec_read at 1.
  destruct (lookup_lt_is_Some_2 _ _ Hlt) as [f Hf].
  rewrite Hf, IH. unfold ret, token_at. simpl. by rewrite Hf.
Qed.

Lemma run_instr_exec (i : instr) w :
  in_range w i → run_instr i w = (Returned tt, exec w i).
Proof.
  intros [Hd Hs]. unfold run_instr, assign_dataflow.
  erewrite bind_returned by (by apply read_all_in_range).
  unfold bind, issue, vec_write. simpl.
  by rewrite decide_True.
Qed.

(** *** A list of instructions *)

Lemma in_range_same_shape w w' i :
  same_shape w w' → in_range w i → in_range w' i.
Proof.
  intros Hs [Hd Hr]. split.
  - by rewrite Hs.
  - eapply Forall_impl; [done|]. intros s ?. simpl. by rewrite Hs.
Qed.

Lemma fold_exec_length (l : list instr) w r :
  length (mem (fold_left exec l w) r) = length (mem w r).
Proof.
  revert w. induction l as [|i l IH]; intros w; simpl; [done|].
  by rewrite IH, exec_length.
Qed.

Lemma fold_exec_issued (l : list instr) w :
  issued (fold_left exec l w) = issued w ++ map event_of l.
Proof.
  revert w. induction l as [|i l IH]; intros w; simpl.
  - by rewrite app_nil_r.
  - rewrite IH, exec_issued, <- app_assoc. done.
Qed.

Lemma fold_exec_hyperparameters (l : list instr) w :
  hyperparameters (fold_left exec l w) = hyperparameters w.
Proof.
  revert w. induction l as [|i l IH]; intros w; simpl; [done|]. by rewrite IH.
Qed.

Lemma fold_exec_m_T (l : list instr) w : m_T (fold_left exec l w) = m_T w.
Proof.
  revert w. induction l as [|i l IH]; intros w; simpl; [done|]. by rewrite IH.
Qed.

Lemma fold_exec_v_T (l : list instr) w : v_T (fold_left exec l w) = v_T w.
Proof.
  revert w. induction l as [|i l IH]; intros w; simpl; [done|]. by rewrite IH.
Qed.

Lemma fold_exec_mem_other (l : list instr) w r :
  Forall (fun i => fst (i_dst i) ≠ r) l → mem (fold_left exec l w) r = mem w r.
Proof.
  intros Hl. revert w. induction Hl as [|i l Hi _ IH]; intros w; simpl; [done|].
  rewrite IH. by apply exec_mem_other.
Qed.

Lemma fold_exec_lookup_other (l : list instr) w r k :
  Forall (fun i => i_dst i ≠ (r, k)) l →
  mem (fold_left exec l w) r !! k = mem w r !! k.
Proof.
  intros Hl. revert w. induction Hl as [|i l Hi _ IH]; intros w; simpl; [done|].
  rewrite IH. by apply exec_lookup_other.
Qed.

Lemma run_instrs_exec (l : list instr) w :
  Forall (in_range w) l →
  for_each l run_instr w = (Returned tt, fold_left exec l w).
Proof.
  revert w. induction l as [|i l IH]; intros w Hl; simpl; [done|].
  apply Forall_cons in Hl as [Hi Hl].
  erewrite bind_returned by (by apply run_instr_exec).
  apply IH. eapply Forall_impl; [done|].
  intros i'. apply in_range_same_shape. intros r. apply exec_length.
Qed.

End MonadFacts.

Lemma map_flat_map' {A B C} (f : B → C) (g : A → list B) (l : list A) :
  map f (flat_map g l) = flat_map (fun x => map f (g x)) l.
Proof.
  induction l as [|x l IH]; simpl; [done|]. by rewrite map_app, IH.
Qed.

Lemma flat_map_singleton {A B} (g : A → list B) (x : A) :
  flat_map g [x] = g x.
Proof. simpl. apply app_nil_r. Qed.

Lemma flat_map_ext_In {A B} (f g : A → list B) (l : list A) :
  (∀ x, In x l → f x = g x) → flat_map f l = flat_map g l.
Proof.
  induction l as [|x l IH]; simpl; intros Hfg; [done|].
  rewrite Hfg by auto. f_equal. apply IH. auto.
Qed.

Lemma Forall_flat_map' {A B} (P : B → Prop) (g : A → list B) (l : list A) :
  (∀ x, In x l → Forall P (g x)) → Forall P (flat_map g l).
Proof.
  induction l as [|x l IH]; simpl; intros Hg; [constructor|].
  apply Forall_app. split; [apply Hg; auto|apply IH; auto].
Qed.

Lemma Forall_map' {A B} (P : B → Prop) (g : A → B) (l : list A) :
  (∀ x, In x l → P (g x)) → Forall P (map g l).
Proof.
  induction l as [|x l IH]; simpl; intros Hg; constructor; auto.
Qed.

Section Refinement.

Context {tile : Type}.
Implicit Types w : world tile.

Lemma bind_cong {A B} (c1 c2 : @M tile A) (k1 k2 : A → @M tile B) w :
  c1 w = c2 w → (∀ a w', k1 a w' = k2 a w') → bind c1 k1 w = bind c2 k2 w.
Proof.
  intros Hc Hk. unfold bind. rewrite Hc.
  destruct (c2 w) as [[a|e] w']; [apply Hk|done].
Qed.

(** The source loops run exactly their instruction lists. *)
Lemma cholesky_stage_run N n k w :
  cholesky_stage N n k w = for_each (cholesky_stage_instrs N n k) run_instr w.
Proof.
  unfold cholesky_stage, cholesky_stage_instrs. simpl.
  apply bind_ext. intros _ w1.
  rewrite for_each_app. apply bind_cong.
  - unfold for_up. by rewrite for_each_map.
  - intros _ w2. unfold for_up. rewrite for_each_flat_map.
    apply for_each_ext. intros m w3. unfold update_row_instrs. simpl.
    apply bind_ext. intros _ w4. by rewrite for_each_map.
Qed.

Lemma cholesky_run N n w :
  right_looking_cholesky_tiled_mkl N n w
  = for_each (cholesky_instrs N n) run_instr w.
Proof.
  unfold right_looking_cholesky_tiled_mkl, cholesky_instrs, for_up.
  rewrite for_each_flat_map, Nat.sub_0_r.
  apply for_each_ext. intros k w'. apply cholesky_stage_run.
Qed.

Lemma forward_run N n w :
  forward_solve_tiled N n w = for_each (forward_instrs N n) run_instr w.
Proof.
  unfold forward_solve_tiled, forward_instrs, for_up.
  rewrite for_each_flat_map, Nat.sub_0_r.
  apply for_each_ext. intros k w'. unfold forward_stage_instrs. simpl.
  apply bind_ext. intros _ w''. by rewrite for_each_map.
Qed.

Lemma backward_run N n w :
  (Z.of_nat n ≤ 2 ^ 30)%Z →
  backward_solve_tiled N n w = for_each (backward_instrs N n) run_instr w.
Proof.
  intros Hn. unfold backward_solve_tiled, backward_instrs, for_down.
  rewrite int_of_size_pred by done.
  replace (Z.to_nat (Z.of_nat n - 1 + 1)) with n by lia.
  rewrite for_each_flat_map.
  apply for_each_ext. intros k w'. unfold backward_stage_instrs. simpl.
  apply bind_ext. intros _ w''.
  replace (Z.to_nat (Z.of_nat k - 1 + 1)) with k by lia.
  by rewrite for_each_map.
Qed.

Lemma prediction_run N_row N_col n m_tiles w :
  prediction_tiled N_row N_col n m_tiles w
  = for_each (prediction_instrs N_row N_col n m_tiles) run_instr w.
Proof.
  unfold prediction_tiled, prediction_instrs, for_up.
  rewrite for_each_flat_map, Nat.sub_0_r.
  apply for_each_ext. intros k w'. by rewrite for_each_map, Nat.sub_0_r.
Qed.

Lemma posterior_run N M_ n m_tiles w :
  (Z.of_nat n ≤ INT_MAX)%Z → (Z.of_nat m_tiles ≤ INT_MAX)%Z →
  posterior_covariance_tiled N M_ n m_tiles w
  = for_each (posterior_instrs N M_ n m_tiles) run_instr w.
Proof.
  intros Hn Hm. unfold posterior_covariance_tiled, posterior_instrs, for_up_int.
  rewrite decide_True by done.
  rewrite for_each_flat_map.
  apply for_each_ext. intros i w'. unfold for_up.
  replace (i + 1 - i) with 1 by lia. simpl.
  rewrite decide_True by done.
  unfold bind at 1. rewrite for_each_map.
  destruct (for_each (seq 0 n) _ w') as [[[]|e] w''] eqn:Heq.
  - unfold ret. rewrite <- Heq. done.
  - rewrite <- Heq. done.
Qed.

End Refinement.

(** ** The Cholesky routine issues the pattern of the specification *)

Ltac slot_exact Hmax :=
  repeat match goal with
  | |- context [slot ?i ?m ?j] =>
      rewrite (proj1 (slot_in_grid i _ m j Hmax ltac:(lia) ltac:(lia)))
  end.

Lemma slot_lt {A} (l : list A) (n m i j : nat) :
  grid l n m → i < n → j < m → slot i m j < length l.
Proof.
  intros [Hlen Hmax] Hi Hj.
  destruct (slot_in_grid i n m j Hmax Hi Hj) as [-> Hlt]. by rewrite Hlen.
Qed.

Section CholeskyStructure.

Context {tile : Type}.
Implicit Types w : world tile.

Lemma cholesky_stage_in_range N n k w :
  grid (mem w ft_tiles) n n → k < n →
  Forall (in_range w) (cholesky_stage_instrs N n k).
Proof.
  intros Hgrid Hk. unfold cholesky_stage_instrs.
  constructor; [|apply Forall_app; split].
  - split; simpl; [|repeat constructor; simpl]; by apply (slot_lt _ n n).
  - apply Forall_map'. intros m [_ Hm]%in_seq.
    split; simpl; [|repeat constructor; simpl];
      apply (slot_lt _ n n); done || lia.
  - apply Forall_flat_map'. intros m [? Hm]%in_seq.
    unfold update_row_instrs. constructor.
    + split; simpl; [|repeat constructor; simpl];
        apply (slot_lt _ n n); done || lia.
    + apply Forall_map'. intros j [_ Hj]%in_seq.
      split; simpl; [|repeat constructor; simpl];
        apply (slot_lt _ n n); done || lia.
Qed.

Lemma cholesky_in_range N n w :
  grid (mem w ft_tiles) n n → Forall (in_range w) (cholesky_instrs N n).
Proof.
  intros Hgrid. apply Forall_flat_map'. intros k [_ Hk]%in_seq.
  by apply cholesky_stage_in_range.
Qed.

Lemma panel_instr_events N n k :
  (N.of_nat (n * n) ≤ vector_max_size)%N → k < n →
  map event_of (map (trsm_instr N n k) (seq (k + 1) (n - (k + 1))))
  = Spec.panel N n k.
Proof.
  intros Hmax Hk.
  unfold Spec.panel, Spec.rows_below. rewrite filter_seq_above, map_map.
  apply map_ext_in. intros m [_ Hm]%in_seq.
  unfold event_of, Spec.triangular_solve, Spec.grid_slot. simpl.
  by slot_exact Hmax.
Qed.

Lemma update_instr_events N n k :
  (N.of_nat (n * n) ≤ vector_max_size)%N → k < n →
  map event_of (flat_map (update_row_instrs N n k) (seq (k + 1) (n - (k + 1))))
  = Spec.updates N n k.
Proof.
  intros Hmax Hk. unfold Spec.updates, Spec.rows_below.
  rewrite filter_seq_above, map_flat_map'.
  apply flat_map_ext_In. intros m [? Hm]%in_seq.
  unfold update_row_instrs. simpl. f_equal.
  - unfold event_of, Spec.rank_update, Spec.grid_slot. simpl.
    by slot_exact Hmax.
  - unfold Spec.columns_between.
    rewrite filter_seq_between by lia. rewrite map_map.
    apply map_ext_in. intros j [_ Hj]%in_seq.
    unfold event_of, Spec.matmul_update, Spec.grid_slot. simpl.
    by slot_exact Hmax.
Qed.

Lemma cholesky_stage_events N n k :
  (N.of_nat (n * n) ≤ vector_max_size)%N → k < n →
  map event_of (cholesky_stage_instrs N n k) = Spec.stage N n k.
Proof.
  intros Hmax Hk. unfold cholesky_stage_instrs, Spec.stage. simpl.
  f_equal.
  - unfold event_of, Spec.factorize, Spec.grid_slot. simpl. by slot_exact Hmax.
  - rewrite map_app. f_equal.
    + by apply panel_instr_events.
    + by apply update_instr_events.
Qed.

Lemma cholesky_events N n :
  (N.of_nat (n * n) ≤ vector_max_size)%N →
  map event_of (cholesky_instrs N n) = Spec.cholesky N n.
Proof.
  intros Hmax. unfold cholesky_instrs, Spec.cholesky.
  rewrite map_flat_map'. apply flat_map_ext_In. intros k [_ Hk]%in_seq.
  by apply cholesky_stage_events.
Qed.

(** The routine returns, and its effect is that of its instruction list. *)
Lemma cholesky_returns N n w :
  grid (mem w ft_tiles) n n →
  right_looking_cholesky_tiled_mkl N n w
  = (Returned tt, fold_left exec (cholesky_instrs N n) w).
Proof.
  intros Hgrid. rewrite cholesky_run.
  apply run_instrs_exec. by apply cholesky_in_range.
Qed.

Lemma cholesky_stage_returns N n k w :
  grid (mem w ft_tiles) n n → k < n →
  cholesky_stage N n k w
  = (Returned tt, fold_left exec (cholesky_stage_instrs N n k) w).
Proof.
  intros Hgrid Hk. rewrite cholesky_stage_run.
  apply run_instrs_exec. by apply cholesky_stage_in_range.
Qed.

End CholeskyStructure.

(** ** Independence inside a stage *)

Lemma grid_slot_inj r r' i j i' j' n :
  j < n → j' < n → Spec.grid_slot r i n j = Spec.grid_slot r' i' n j' →
  r = r' ∧ i = i' ∧ j = j'.
Proof.
  unfold Spec.grid_slot. intros Hj Hj' [= -> Heq].
  split; [done|].
  assert (i = i') as -> by nia. split; [done|lia].
Qed.

Lemma NoDup_flat_map' {A B} (g : A → list B) (l : list A) :
  NoDup l →
  (∀ x, In x l → NoDup (g x)) →
  (∀ x y b, In x l → In y l → In b (g x) → In b (g y) → x = y) →
  NoDup (flat_map g l).
Proof.
  induction 1 as [|x l Hx Hl IH]; intros Hg Hdisj; simpl; [constructor|].
  apply NoDup_app. split_and!.
  - apply Hg. by left.
  - intros b Hb Hb'. apply list_elem_of_In in Hb, Hb'.
    apply in_flat_map in Hb' as (y & Hy & Hby).
    assert (x = y) as ->.
    { eapply Hdisj; [by left|by right|done..]. }
    apply Hx. by apply list_elem_of_In.
  - apply IH; [intros; apply Hg; by right|].
    intros y z b ? ? ? ?. eapply Hdisj; [by right|by right|done..].
Qed.

Lemma pairwise_independent_criterion (l : list event) :
  NoDup (map ev_write l) →
  (∀ e1 e2, In e1 l → In e2 l → ev_write e1 ≠ ev_write e2 →
     ev_write e1 ∉ ev_reads e2) →
  Spec.pairwise_independent l.
Proof.
  intros Hnd Hreads i j e1 e2 Hij H1 H2.
  assert (ev_write e1 ≠ ev_write e2) as Hw.
  { intros Heq. apply Hij.
    eapply (NoDup_lookup (map ev_write l)); [done| |].
    - rewrite list_lookup_fmap, H1. done.
    - rewrite list_lookup_fmap, H2. simpl. by rewrite Heq. }
  assert (In e1 l) as Hin1
    by (apply list_elem_of_In; by eapply list_elem_of_lookup_2).
  assert (In e2 l) as Hin2
    by (apply list_elem_of_In; by eapply list_elem_of_lookup_2).
  unfold Spec.independent, Spec.touches. split.
  - intros [?|?]%elem_of_cons; [done|]. by apply (Hreads e1 e2 Hin1 Hin2 Hw).
  - intros [?|?]%elem_of_cons; [done|].
    by apply (Hreads e2 e1 Hin2 Hin1 (not_eq_sym Hw)).
Qed.

Lemma in_rows_below n k m : In m (Spec.rows_below n k) ↔ k < m ∧ m < n.
Proof.
  unfold Spec.rows_below. rewrite filter_seq_above, in_seq. lia.
Qed.

Lemma in_columns_between n k m j :
  m ≤ n → In j (Spec.columns_between n k m) ↔ k < j ∧ j < m.
Proof.
  intros Hm. unfold Spec.columns_between.
  rewrite filter_seq_between by done. rewrite in_seq. lia.
Qed.

Lemma NoDup_rows_below n k : NoDup (Spec.rows_below n k).
Proof.
  unfold Spec.rows_below. rewrite filter_seq_above. apply NoDup_seq.
Qed.

Lemma NoDup_columns_between n k m : NoDup (Spec.columns_between n k m).
Proof.
  unfold Spec.columns_between. rewrite filter_seq_between_min. apply NoDup_seq.
Qed.

(** What a panel invocation writes and reads. *)
Lemma panel_event_shape N n k e :
  In e (Spec.panel N n k) →
  ∃ m, k < m ∧ m < n ∧ e = Spec.triangular_solve N n k m.
Proof.
  unfold Spec.panel. intros (m & <- & Hm)%in_map_iff.
  apply in_rows_below in Hm. exists m. split_and!; done || lia.
Qed.

(** What an update invocation writes and reads. *)
Lemma update_event_shape N n k e :
  In e (Spec.updates N n k) →
  ∃ m j, k < j ∧ j ≤ m ∧ m < n ∧
    ev_write e = Spec.grid_slot ft_tiles m n j ∧
    (∀ l, l ∈ ev_reads e →
       l = ev_write e ∨ ∃ i, k < i ∧ i < n ∧ l = Spec.grid_slot ft_tiles i n k) ∧
    (e = Spec.rank_update N n k m ∧ j = m ∨ e = Spec.matmul_update N n k m j ∧ j < m).
Proof.
  unfold Spec.updates. intros (m & Hm & He)%in_flat_map.
  apply in_rows_below in Hm. destruct He as [<-|(j & <- & Hj)%in_map_iff].
  - exists m, m. split_and!; try done || lia; [|by left].
    simpl. intros l Hl. repeat apply elem_of_cons in Hl as [->|Hl];
      [by left|right; exists m; split_and!; done || lia|by apply elem_of_nil in Hl].
  - apply in_columns_between in Hj; [|lia].
    exists m, j. split_and!; try done || lia; [|right; split; done || lia].
    simpl. intros l Hl. repeat apply elem_of_cons in Hl as [->|Hl];
      [right; exists m; split_and!; done || lia
      |right; exists j; split_and!; done || lia
      |by left|by apply elem_of_nil in Hl].
Qed.

Lemma panel_writes_NoDup N n k :
  k < n → NoDup (map ev_write (Spec.panel N n k)).
Proof.
  intros Hk. unfold Spec.panel. rewrite map_map. simpl.
  apply NoDup_fmap_2_strong; [|apply NoDup_rows_below].
  intros m m' _ _ Heq. apply grid_slot_inj in Heq; [tauto|done..].
Qed.

Lemma panel_reads_own N n k e e' :
  k < n → In e (Spec.panel N n k) → In e' (Spec.panel N n k) →
  ev_write e' ∈ ev_reads e → ev_write e' = ev_write e.
Proof.
  intros Hk (m & ? & ? & ->)%panel_event_shape
    (m' & ? & ? & ->)%panel_event_shape. simpl.
  intros Hin. repeat apply elem_of_cons in Hin as [Heq|Hin];
    [|done|by apply elem_of_nil in Hin].
  apply grid_slot_inj in Heq; [lia|done..].
Qed.

Lemma updates_writes_NoDup N n k :
  k < n → NoDup (map ev_write (Spec.updates N n k)).
Proof.
  intros Hk. unfold Spec.updates. rewrite map_flat_map'.
  apply NoDup_flat_map'; [apply NoDup_rows_below| |].
  - intros m Hm%in_rows_below. simpl. rewrite map_map. simpl.
    apply NoDup_cons. split.
    + intros (j & Heq & Hj%list_elem_of_In)%list_elem_of_fmap.
      apply in_columns_between in Hj; [|lia].
      apply grid_slot_inj in Heq; lia.
    + apply NoDup_fmap_2_strong; [|apply NoDup_columns_between].
      intros j j' Hj%list_elem_of_In Hj'%list_elem_of_In Heq.
      apply in_columns_between in Hj, Hj'; [|lia..].
      apply grid_slot_inj in Heq; [tauto|lia..].
  - intros m m' l Hm%in_rows_below Hm'%in_rows_below Hl Hl'.
    simpl in Hl, Hl'. rewrite map_map in Hl, Hl'. simpl in Hl, Hl'.
    assert (∀ a, k < a → a < n →
      (Spec.grid_slot ft_tiles a n a = l ∨
       In l (map (fun j => Spec.grid_slot ft_tiles a n j)
               (Spec.columns_between n k a))) →
      ∃ j, j < n ∧ l = Spec.grid_slot ft_tiles a n j) as Hrow.
    { intros a ? ? [<-|(j & <- & Hj)%in_map_iff]; [exists a; done|].
      apply in_columns_between in Hj; [|lia]. exists j. split; [lia|done]. }
    destruct (Hrow m) as (j & ? & ->); [tauto..|].
    destruct (Hrow m') as (j' & ? & Heq); [tauto..|].
    apply grid_slot_inj in Heq; [tauto|done..].
Qed.

Lemma updates_reads_own N n k e e' :
  k < n → In e (Spec.updates N n k) → In e' (Spec.updates N n k) →
  ev_write e' ∈ ev_reads e → ev_write e' = ev_write e.
Proof.
  intros Hk (m & j & ? & ? & ? & Hw & Hr & _)%update_event_shape
    (m' & j' & ? & ? & ? & Hw' & _)%update_event_shape Hin.
  apply Hr in Hin as [?|(i & ? & ? & Heq)]; [done|].
  rewrite Hw' in Heq. apply grid_slot_inj in Heq; lia.
Qed.

Lemma panel_pairwise_independent N n k :
  k < n → Spec.pairwise_independent (Spec.panel N n k).
Proof.
  intros Hk. apply pairwise_independent_criterion.
  - by apply panel_writes_NoDup.
  - intros e1 e2 H1 H2 Hne Hin. apply Hne.
    by apply (panel_reads_own N n k e2 e1).
Qed.

Lemma updates_pairwise_independent N n k :
  k < n → Spec.pairwise_independent (Spec.updates N n k).
Proof.
  intros Hk. apply pairwise_independent_criterion.
  - by apply updates_writes_NoDup.
  - intros e1 e2 H1 H2 Hne Hin. apply Hne.
    by apply (updates_reads_own N n k e2 e1).
Qed.

Lemma stage_touches_trailing N n k e l :
  k < n → In e (Spec.stage N n k) → l ∈ Spec.touches e →
  Spec.in_trailing_triangle n k l.
Proof.
  intros Hk He Hl. unfold Spec.stage in He.
  destruct He as [<-|[He|He]%in_app_iff].
  - exists k, k. unfold Spec.touches in Hl. simpl in Hl.
    repeat apply elem_of_cons in Hl as [->|Hl];
      [split_and!; done || lia..|by apply elem_of_nil in Hl].
  - apply panel_event_shape in He as (m & ? & ? & ->).
    unfold Spec.touches in Hl. simpl in Hl.
    repeat apply elem_of_cons in Hl as [->|Hl];
      [exists m, k; split_and!; done || lia
      |exists k, k; split_and!; done || lia
      |exists m, k; split_and!; done || lia
      |by apply elem_of_nil in Hl].
  - apply update_event_shape in He as (m & j & ? & ? & ? & Hw & Hr & _).
    unfold Spec.touches in Hl.
    apply elem_of_cons in Hl as [->|Hl].
    + exists m, j. split_and!; done || lia.
    + apply Hr in Hl as [->|(i & ? & ? & ->)].
      * exists m, j. split_and!; done || lia.
      * exists i, k. split_and!; done || lia.
Qed.

(** C1 (as amended).  With [n_tiles × n_tiles] tiles in [ft_tiles], the
    right-looking tiled Cholesky returns after issuing, for each stage
    [k = 0 .. n_tiles-1] in turn, one factorize of tile [(k,k)], then one
    triangular solve of each panel tile [(m,k)], [m > k], then for each
    [m > k] one rank update of [(m,m)] followed by one matmul update of each
    [(m,j)], [k < j < m]; a stage touches no slot outside the lower triangle
    from column [k] on.  Within a stage the panel invocations are pairwise
    independent and the update invocations are pairwise independent, while
    every panel invocation consumes the token of the stage's factorize,
    every update consumes the tokens of the panel invocations of its tiles,
    and the next stage's factorize and panel consume tokens of this stage's
    updates. *)
Theorem cholesky_invocation_pattern {tile : Type} (N n : nat) (w : world tile) :
  grid (mem w ft_tiles) n n →
  ∃ w', right_looking_cholesky_tiled_mkl N n w = (Returned tt, w') ∧
    issued w' = issued w ++ Spec.cholesky N n ∧
    ∀ k, k < n →
      (∀ e l, In e (Spec.stage N n k) → l ∈ Spec.touches e →
         Spec.in_trailing_triangle n k l) ∧
      Spec.pairwise_independent (Spec.panel N n k) ∧
      Spec.pairwise_independent (Spec.updates N n k) ∧
      (∀ m, k < m → m < n →
         Spec.reads_result_of (Spec.triangular_solve N n k m) (Spec.factorize N n k) ∧
         Spec.reads_result_of (Spec.rank_update N n k m) (Spec.triangular_solve N n k m) ∧
         ∀ j, k < j → j < m →
           Spec.reads_result_of (Spec.matmul_update N n k m j)
             (Spec.triangular_solve N n k m) ∧
           Spec.reads_result_of (Spec.matmul_update N n k m j)
             (Spec.triangular_solve N n k j)) ∧
      (S k < n →
         Spec.reads_result_of (Spec.factorize N n (S k)) (Spec.rank_update N n k (S k)) ∧
         ∀ m, S k < m → m < n →
           Spec.reads_result_of (Spec.triangular_solve N n (S k) m)
             (Spec.matmul_update N n k m (S k))).
Proof.
  intros Hgrid. eexists. split; [by apply cholesky_returns|].
  split.
  { rewrite fold_exec_issued, cholesky_events; [done|].
    destruct Hgrid as [_ Hmax]. done. }
  intros k Hk. split_and!.
  - intros e l. by apply stage_touches_trailing.
  - by apply panel_pairwise_independent.
  - by apply updates_pairwise_independent.
  - intros m Hkm Hm. unfold Spec.reads_result_of. simpl. split_and!.
    + apply elem_of_cons. by left.
    + apply elem_of_cons. right. apply elem_of_cons. by left.
    + intros j Hj Hjm. split.
      * apply elem_of_cons. by left.
      * apply elem_of_cons. right. apply elem_of_cons. by left.
  - intros Hk'. unfold Spec.reads_result_of. simpl. split.
    + apply elem_of_cons. by left.
    + intros m Hm Hmn. apply elem_of_cons. right. apply elem_of_cons. by left.
Qed.

Lemma cholesky_invocation_pattern_witness :
  ∃ w', right_looking_cholesky_tiled_mkl 1 2 Scalar.demo = (Returned tt, w') ∧
    issued w' = Spec.cholesky 1 2.
Proof.
  destruct (cholesky_invocation_pattern 1 2 Scalar.demo) as (w' & Hrun & Hlog & _).
  - split; [reflexivity|]. by vm_compute.
  - exists w'. split; [exact Hrun|exact Hlog].
Defined.

(** C1 (as stated) fails: in stage 0 of a 2 × 2 grid the only panel
    invocation, the triangular solve of tile (1,0), writes the slot that the
    only update invocation, the rank update of tile (1,1), reads; the two are
    not independent. *)
Lemma cholesky_stage_not_fully_parallel :
  ¬ Spec.pairwise_independent
      (filter (fun e => Spec.is_panel_or_update e = true)
         (issued (snd (cholesky_stage 1 2 0 Scalar.demo)))).
Proof.
  intros Hpar.
  destruct (Hpar 0 1 (Spec.triangular_solve 1 2 0 1) (Spec.rank_update 1 2 0 1))
    as [Hno _]; [done|reflexivity|reflexivity|].
  apply Hno. unfold Spec.touches. simpl.
  apply elem_of_cons. right. apply elem_of_cons. right.
  apply elem_of_cons. by left.
Qed.

(** ** The factorize kernel of the cuSOLVER adapter *)

Lemma check_cuda_error_ok err :
  Cublas.check_cuda_error err = None ↔ err = Cublas.cudaSuccess.
Proof.
  unfold Cublas.check_cuda_error.
  destruct (Z.eqb_spec err Cublas.cudaSuccess); split; done.
Qed.

Lemma check_cuda_error_failed err :
  err ≠ Cublas.cudaSuccess →
  Cublas.check_cuda_error err = Some (cuda_exception err).
Proof.
  intros Hne. unfold Cublas.check_cuda_error.
  by destruct (Z.eqb_spec err Cublas.cudaSuccess).
Qed.

Lemma host_workspace_ok rt :
  Cublas.workspaceInBytesOnHost rt = 0%N ∨ Cublas.malloc_h_work_ok rt = true →
  ((0 <? Cublas.workspaceInBytesOnHost rt)%N
   && negb (Cublas.malloc_h_work_ok rt))%bool = false.
Proof.
  intros [->| ->]; [done|]. simpl. apply andb_false_r.
Qed.

(** C2 (as amended).  [potrf] never reports that a tile is not positive
    definite: the solver's status word is written to [d_info] and freed
    unread, so the call behaves as if the solver had reported success,
    whatever the runtime and the input future do.  When the input future
    holds its pointer and every runtime call succeeds, [potrf] returns the
    buffer as the solver left it; this includes the indefinite tile
    [[1,2],[2,1]], for which the reference solver reports the second leading
    minor. *)
Theorem potrf_discards_solver_status
    (solver : list PrimFloat.float → nat → list PrimFloat.float * Z)
    (rt : Cublas.runtime) (f_A : Cublas.device_future)
    (A : list PrimFloat.float) (N : nat) :
  Cublas.potrf solver rt f_A A N
    = Cublas.potrf (fun A N => (fst (solver A N), 0%Z)) rt f_A A N ∧
  (allocations_ok rt → releases_ok rt →
   Cublas.potrf solver rt Cublas.holds_pointer A N
     = (Returned (fst (solver A N)), Cublas.contents (fst (solver A N)))) ∧
  snd (Cublas.Xpotrf_reference Cublas.indefinite_tile 2) = 2%Z.
Proof.
  split_and!.
  - unfold Cublas.potrf. by destruct (solver A N).
  - intros (H1 & H2 & Hh) (H3 & H4 & H5). unfold Cublas.potrf.
    rewrite (proj2 (check_cuda_error_ok _) H1), (proj2 (check_cuda_error_ok _) H2),
      (host_workspace_ok _ Hh), (proj2 (check_cuda_error_ok _) H3),
      (proj2 (check_cuda_error_ok _) H4), (proj2 (check_cuda_error_ok _) H5).
    by destruct (solver A N).
  - by vm_compute.
Qed.

Lemma potrf_discards_solver_status_witness :
  Cublas.potrf Cublas.Xpotrf_reference Cublas.runtime_ok Cublas.holds_pointer
    Cublas.indefinite_tile 2
  = (Returned (fst (Cublas.Xpotrf_reference Cublas.indefinite_tile 2)),
     Cublas.contents (fst (Cublas.Xpotrf_reference Cublas.indefinite_tile 2))).
Proof.
  refine (proj1 (proj2
    (potrf_discards_solver_status Cublas.Xpotrf_reference Cublas.runtime_ok
       Cublas.holds_pointer Cublas.indefinite_tile 2)) _ _).
  - split_and!; [reflexivity|reflexivity|by left].
  - split_and!; reflexivity.
Defined.

(** C2 (as stated) fails on the tile [[1,2],[2,1]]: the solver reports that
    the tile is not positive definite, and [potrf] returns normally. *)
Lemma potrf_indefinite_tile_returns :
  ¬ Cublas.reports_not_positive_definite Cublas.Xpotrf_reference
      Cublas.runtime_ok Cublas.indefinite_tile 2.
Proof.
  unfold Cublas.reports_not_positive_definite. intros Hfail.
  destruct Hfail as [e He]; [by vm_compute|].
  vm_compute in He. discriminate He.
Qed.

(** ** From tokens to values *)

Section Values.

Context {tile : Type} `{Kernels tile}.
Implicit Types w : world tile.
Implicit Types V : ref * nat → option tile.

Lemma get_token_at w s : get (token_at w s) = values w s.
Proof.
  unfold token_at, values, value. by destruct (mem w (fst s) !! snd s).
Qed.

Lemma values_exec w i s :
  in_range w i → values (exec w i) s = vexec (values w) i s.
Proof.
  intros Hi. unfold vexec. case_decide as Hs.
  - subst s. unfold values, value. rewrite exec_lookup_dst by done. simpl.
    rewrite map_map. f_equal. apply map_ext. intros s. apply get_token_at.
  - unfold values, value. rewrite exec_lookup_other; [done|].
    intros Heq. apply Hs. rewrite <- Heq. by destruct s.
Qed.

Lemma vexec_ext V1 V2 i s :
  (∀ s', V1 s' = V2 s') → vexec V1 i s = vexec V2 i s.
Proof.
  intros HV. unfold vexec. case_decide; [|apply HV].
  f_equal. apply map_ext. intros s'. apply HV.
Qed.

Lemma fold_vexec_ext (l : list instr) V1 V2 s :
  (∀ s', V1 s' = V2 s') → fold_left vexec l V1 s = fold_left vexec l V2 s.
Proof.
  revert V1 V2 s. induction l as [|i l IH]; intros V1 V2 s HV; simpl; [apply HV|].
  apply IH. intros s'. by apply vexec_ext.
Qed.

Lemma values_fold_exec (l : list instr) w s :
  Forall (in_range w) l →
  values (fold_left exec l w) s = fold_left vexec l (values w) s.
Proof.
  revert w s. induction l as [|i l IH]; intros w s Hl; simpl; [done|].
  apply Forall_cons in Hl as [Hi Hl].
  rewrite IH.
  - apply fold_vexec_ext. intros s'. by apply values_exec.
  - eapply Forall_impl; [done|]. intros i'.
    apply in_range_same_shape. intros r. apply exec_length.
Qed.

Lemma vexec_other V i s : s ≠ i_dst i → vexec V i s = V s.
Proof. intros Hs. unfold vexec. by rewrite decide_False. Qed.

Lemma vexec_dst V i :
  vexec V i (i_dst i) = unwrapping (i_fn i) (map V (i_srcs i)).
Proof. unfold vexec. by rewrite decide_True. Qed.

Lemma fold_vexec_other (l : list instr) V s :
  Forall (fun i => s ≠ i_dst i) l → fold_left vexec l V s = V s.
Proof.
  intros Hl. revert V. induction Hl as [|i l Hi _ IH]; intros V; simpl; [done|].
  rewrite IH. by apply vexec_other.
Qed.

End Values.

(** ** Prediction *)

Section Prediction.

Context {tile : Type} `{Kernels tile}.
Implicit Types V : ref * nat → option tile.

Lemma prediction_row_values N_row N_col n k (A x : nat → tile) (b : tile) V c :
  c ≤ n →
  (∀ p, p < n → V (ft_tiles, slot k n p) = Some (A p)) →
  (∀ p, p < n → V (ft_vector, p) = Some (x p)) →
  V (ft_rhs, k) = Some b →
  fold_left vexec (map (gemv_p_instr N_row N_col n k) (seq 0 c)) V (ft_rhs, k)
  = Some (fold_left (fun acc m => mkl_gemv_p (A m) (x m) acc N_row N_col) (seq 0 c) b).
Proof.
  intros Hc HA Hx Hb. induction c as [|c IH]; [done|].
  rewrite seq_snoc, map_app, !fold_left_app. simpl.
  change (ft_rhs, k) with (i_dst (gemv_p_instr N_row N_col n k c)) at 1.
  rewrite vexec_dst. simpl.
  rewrite IH by lia.
  rewrite !fold_vexec_other by (apply Forall_map'; intros; simpl; congruence).
  rewrite HA, Hx by lia. done.
Qed.

Lemma prediction_row_other N_row N_col n k V c s :
  s ≠ (ft_rhs, k) →
  fold_left vexec (map (gemv_p_instr N_row N_col n k) (seq 0 c)) V s = V s.
Proof.
  intros Hs. apply fold_vexec_other. apply Forall_map'. by intros.
Qed.

Lemma prediction_values N_row N_col n m (A : nat → nat → tile) (x b : nat → tile) V k :
  k < m →
  (∀ i p, i < m → p < n → V (ft_tiles, slot i n p) = Some (A i p)) →
  (∀ p, p < n → V (ft_vector, p) = Some (x p)) →
  (∀ i, i < m → V (ft_rhs, i) = Some (b i)) →
  fold_left vexec (prediction_instrs N_row N_col n m) V (ft_rhs, k)
  = Some (accumulated N_row N_col n (A k) x (b k)).
Proof.
  intros Hk HA Hx Hb. unfold prediction_instrs.
  set (rows c := flat_map
    (fun k => map (gemv_p_instr N_row N_col n k) (seq 0 n)) (seq 0 c)).
  assert (∀ c, c ≤ m →
    (∀ s, (∀ i, i < c → s ≠ (ft_rhs, i)) → fold_left vexec (rows c) V s = V s) ∧
    (∀ i, i < c → fold_left vexec (rows c) V (ft_rhs, i)
                  = Some (accumulated N_row N_col n (A i) x (b i))))
    as Hinv.
  { induction c as [|c IH]; intros Hc.
    - split; [done|]. intros i Hi. lia.
    - destruct IH as [IHo IHv]; [lia|].
      unfold rows in *.
      rewrite seq_snoc, flat_map_app, fold_left_app. simpl. rewrite app_nil_r.
      split.
      + intros s Hs. rewrite prediction_row_other by (apply Hs; lia).
        apply IHo. intros i Hi. apply Hs. lia.
      + intros i Hi. destruct (decide (i = c)) as [->|Hne].
        * apply prediction_row_values; [done|..].
          -- intros p Hp. rewrite IHo by (intros; congruence). apply HA; lia.
          -- intros p Hp. rewrite IHo by (intros; congruence). by apply Hx.
          -- rewrite IHo by (intros j ?; intros [= ->]; lia). apply Hb. lia.
        * rewrite prediction_row_other by congruence. apply IHv. lia. }
  destruct (Hinv m) as [_ Hv]; [done|]. by apply Hv.
Qed.

End Prediction.

(** The scalar kernels meet the contracts, and real arithmetic is exact. *)
#[global] Instance scalar_exact : ExactArithmetic R.
Proof.
  split; simpl.
  - intros a b. lra.
  - intros a. lra.
  - intros a b c. lra.
Qed.

#[global] Instance scalar_spec : KernelSpec R.
Proof.
  split; simpl; unfold gemv, cblas_dgemv; simpl.
  - intros A _ HA. apply sqrt_sqrt. lra.
  - intros A _ HA. pose proof (sqrt_lt_R0 A HA). lra.
  - intros L A _ HL. by field.
  - done.
  - done.
  - intros L b _ HL. by field.
  - done.
  - intros L b _ HL. by field.
  - done.
  - done.
Qed.

Section PredictionTheorem.

Context {tile : Type} `{Kernels tile} `{TileAlgebra tile}.
Context {KS : KernelSpec tile} {EA : ExactArithmetic tile}.

Lemma prediction_in_range N_row N_col n m (w : world tile) :
  grid (mem w ft_tiles) m n → vector_ok (mem w ft_vector) n →
  vector_ok (mem w ft_rhs) m →
  Forall (in_range w) (prediction_instrs N_row N_col n m).
Proof.
  intros Hgrid [Hvec _] [Hrhs _]. apply Forall_flat_map'. intros k [_ Hk]%in_seq.
  apply Forall_map'. intros p [_ Hp]%in_seq.
  split; simpl; [lia|]. repeat constructor; simpl; [|lia..].
  by apply (slot_lt _ m n).
Qed.

Lemma prediction_events N_row N_col n m :
  (N.of_nat (m * n) ≤ vector_max_size)%N →
  map event_of (prediction_instrs N_row N_col n m) = Spec.prediction N_row N_col n m.
Proof.
  intros Hmax. unfold prediction_instrs, Spec.prediction.
  rewrite map_flat_map'. apply flat_map_ext_In. intros k [_ Hk]%in_seq.
  rewrite map_map. apply map_ext_in. intros p [_ Hp]%in_seq.
  unfold event_of, Spec.accumulate, Spec.grid_slot. simpl. by slot_exact Hmax.
Qed.

Lemma length_flat_map_const {A B} (g : A → list B) (l : list A) (n : nat) :
  (∀ x, length (g x) = n) → length (flat_map g l) = n * length l.
Proof.
  intros Hg. induction l as [|x l IH]; simpl; [lia|].
  rewrite length_app, Hg, IH. lia.
Qed.

Lemma accumulated_plus_contributions N_row N_col n (A x : nat → tile) (b : tile) :
  accumulated N_row N_col n A x b = plus_contributions n A x b.
Proof.
  unfold accumulated, plus_contributions. generalize (seq 0 n). intros l.
  revert b. induction l as [|p l IH]; intros b; simpl; [done|].
  rewrite IH. f_equal.
  rewrite gemv_p_spec. unfold gemv, cblas_dgemv. by rewrite !scal_one.
Qed.

Lemma plus_contributions_inj n (A x : nat → tile) (b b' : tile) :
  plus_contributions n A x b = plus_contributions n A x b' → b = b'.
Proof.
  unfold plus_contributions. generalize (seq 0 n). intros l.
  revert b b'. induction l as [|p l IH]; intros b b'; simpl; [done|].
  intros Heq%IH. by eapply tadd_cancel_l.
Qed.

(** C9.  [prediction_tiled] accumulates into its output: it returns after
    issuing [n_tiles · m_tiles] invocations of the accumulating kernel, and
    result tile [k] then holds its initial contents with the contribution of
    covariance tile [(k,p)] applied to input tile [p] added for every [p]
    (the kernel is [gemv] with [beta = 1]); in exact arithmetic this is the
    predictive mean exactly when the initial contents were zero. *)
Theorem prediction_accumulates (N_row N_col n m : nat) (w : world tile)
    (A : nat → nat → tile) (x b : nat → tile) :
  grid (mem w ft_tiles) m n →
  vector_ok (mem w ft_vector) n →
  vector_ok (mem w ft_rhs) m →
  (∀ k p, k < m → p < n → value w ft_tiles (k * n + p) = Some (A k p)) →
  (∀ p, p < n → value w ft_vector p = Some (x p)) →
  (∀ k, k < m → value w ft_rhs k = Some (b k)) →
  ∃ w', prediction_tiled N_row N_col n m w = (Returned tt, w') ∧
    issued w' = issued w ++ Spec.prediction N_row N_col n m ∧
    length (Spec.prediction N_row N_col n m) = n * m ∧
    ∀ k, k < m →
      value w' ft_rhs k = Some (accumulated N_row N_col n (A k) x (b k)) ∧
      accumulated N_row N_col n (A k) x (b k)
        = plus_contributions n (A k) x (b k) ∧
      (accumulated N_row N_col n (A k) x (b k) = predictive_mean n (A k) x
       ↔ b k = tzero).
Proof.
  intros Hgrid Hvec Hrhs HA Hx Hb.
  pose proof (prediction_in_range N_row N_col n m w Hgrid Hvec Hrhs) as Hrange.
  eexists. split_and!.
  - rewrite prediction_run. by apply run_instrs_exec.
  - rewrite fold_exec_issued, prediction_events; [done|]. by destruct Hgrid.
  - unfold Spec.prediction.
    rewrite (length_flat_map_const _ _ n); [by rewrite length_seq|].
    intros k. by rewrite length_map, length_seq.
  - intros k Hk. split_and!.
    + change (value ?w' ft_rhs k) with (values w' (ft_rhs, k)).
      rewrite values_fold_exec by done.
      apply prediction_values; [done|..].
      * intros i p Hi Hp. unfold values. simpl.
        destruct Hgrid as [_ Hmax].
        destruct (slot_in_grid i m n p Hmax Hi Hp) as [-> _]. by apply HA.
      * intros p Hp. by apply Hx.
      * intros i Hi. by apply Hb.
    + apply accumulated_plus_contributions.
    + rewrite accumulated_plus_contributions. unfold predictive_mean. split.
      * apply plus_contributions_inj.
      * by intros ->.
Qed.

End PredictionTheorem.

(** Case analysis on an index below two. *)
Ltac below_two k := destruct k as [|[|k]]; [| |lia].

Lemma prediction_accumulates_witness :
  ∃ w', prediction_tiled 1 1 2 2 Scalar.demo = (Returned tt, w') ∧
    value w' ft_rhs 1
    = Some (accumulated 1 1 2 (Scalar.demo_A 1) Scalar.demo_b (Scalar.demo_b 1)).
Proof.
  destruct (prediction_accumulates 1 1 2 2 Scalar.demo Scalar.demo_A
              Scalar.demo_b Scalar.demo_b) as (w' & Hrun & _ & _ & Hval).
  - split; [reflexivity|]. by vm_compute.
  - split; [reflexivity|]. by vm_compute.
  - split; [reflexivity|]. by vm_compute.
  - intros k p Hk Hp. below_two k; below_two p; reflexivity.
  - intros p Hp. below_two p; reflexivity.
  - intros k Hk. below_two k; reflexivity.
  - exists w'. split; [exact Hrun|]. apply (Hval 1). lia.
Defined.

(** ** Posterior covariance *)

Lemma filter_all {A} (P : A → Prop) `{∀ x, Decision (P x)} (l : list A) :
  (∀ x, In x l → P x) → filter P l = l.
Proof.
  induction l as [|x l IH]; intros HP; [done|].
  rewrite filter_cons, decide_True by (apply HP; by left).
  f_equal. apply IH. intros y Hy. apply HP. by right.
Qed.

Lemma filter_none {A} (P : A → Prop) `{∀ x, Decision (P x)} (l : list A) :
  (∀ x, In x l → ¬ P x) → filter P l = [].
Proof.
  induction l as [|x l IH]; intros HP; [done|].
  rewrite filter_cons, decide_False by (apply HP; by left).
  apply IH. intros y Hy. apply HP. by right.
Qed.

Lemma posterior_count N M_ n m i :
  i < m →
  length (filter (fun e => ev_write e = Spec.grid_slot ft_K_tiles i m i)
            (Spec.posterior_covariance N M_ n m)) = n.
Proof.
  intros Hi. unfold Spec.posterior_covariance.
  assert (∀ c, c ≤ m →
    length (filter (fun e => ev_write e = Spec.grid_slot ft_K_tiles i m i)
              (flat_map (fun i => map (Spec.accumulate_diagonal N M_ n m i) (seq 0 n))
                 (seq 0 c)))
    = if decide (i < c) then n else 0) as Hcount.
  { induction c as [|c IH]; intros Hc; [done|].
    rewrite seq_snoc, flat_map_app, filter_app, length_app, IH by lia.
    simpl. rewrite app_nil_r.
    destruct (decide (c = i)) as [->|Hne].
    - rewrite filter_all.
      + rewrite length_map, length_seq.
        rewrite decide_False, decide_True by lia. done.
      + by intros e (p & <- & _)%in_map_iff.
    - rewrite filter_none.
      + simpl. repeat case_decide; lia.
      + intros e (p & <- & _)%in_map_iff. simpl.
        intros Heq%grid_slot_inj; lia. }
  rewrite Hcount by done. by rewrite decide_True.
Qed.

Section Posterior.

Context {tile : Type}.
Implicit Types w : world tile.

Lemma posterior_in_range N M_ n m w :
  grid (mem w ft_CC_tiles) m n → grid (mem w ft_tCC_tiles) n m →
  grid (mem w ft_K_tiles) m m →
  Forall (in_range w) (posterior_instrs N M_ n m).
Proof.
  intros HCC HtCC HK. apply Forall_flat_map'. intros i [_ Hi]%in_seq.
  apply Forall_map'. intros p [_ Hp]%in_seq.
  split; simpl; [by apply (slot_lt _ m m)|].
  repeat constructor; simpl.
  - by apply (slot_lt _ m n).
  - by apply (slot_lt _ n m).
  - by apply (slot_lt _ m m).
Qed.

Lemma posterior_events N M_ n m :
  (N.of_nat (m * n) ≤ vector_max_size)%N →
  (N.of_nat (n * m) ≤ vector_max_size)%N →
  (N.of_nat (m * m) ≤ vector_max_size)%N →
  map event_of (posterior_instrs N M_ n m) = Spec.posterior_covariance N M_ n m.
Proof.
  intros H1 H2 H3. unfold posterior_instrs, Spec.posterior_covariance.
  rewrite map_flat_map'. apply flat_map_ext_In. intros i [_ Hi]%in_seq.
  rewrite map_map. apply map_ext_in. intros p [_ Hp]%in_seq.
  unfold event_of, Spec.accumulate_diagonal, Spec.grid_slot. simpl.
  rewrite (proj1 (slot_in_grid i m n p H1 Hi Hp)).
  rewrite (proj1 (slot_in_grid p n m i H2 Hp Hi)).
  rewrite (proj1 (slot_in_grid i m m i H3 Hi Hi)). done.
Qed.

(** C10.  [posterior_covariance_tiled] returns after issuing, for each
    [i < m_tiles], exactly [n_tiles] accumulation kernels, all of them into
    the diagonal slot [i * m_tiles + i] of [ft_K_tiles]; every off-diagonal
    slot of [ft_K_tiles] and every tile of the two input tile matrices (and
    of every other vector) keeps the token it had. *)
Theorem posterior_covariance_frame (N M_ n m : nat) (w : world tile) :
  grid (mem w ft_CC_tiles) m n →
  grid (mem w ft_tCC_tiles) n m →
  grid (mem w ft_K_tiles) m m →
  (Z.of_nat n ≤ INT_MAX)%Z →
  ∃ w', posterior_covariance_tiled N M_ n m w = (Returned tt, w') ∧
    issued w' = issued w ++ Spec.posterior_covariance N M_ n m ∧
    (∀ e, In e (Spec.posterior_covariance N M_ n m) →
       ∃ i, i < m ∧ ev_write e = Spec.grid_slot ft_K_tiles i m i) ∧
    (∀ i, i < m →
       length (filter (fun e => ev_write e = Spec.grid_slot ft_K_tiles i m i)
                 (Spec.posterior_covariance N M_ n m)) = n) ∧
    (∀ r, r ≠ ft_K_tiles → mem w' r = mem w r) ∧
    length (mem w' ft_K_tiles) = length (mem w ft_K_tiles) ∧
    (∀ i j, i < m → j < m → i ≠ j →
       mem w' ft_K_tiles !! (i * m + j) = mem w ft_K_tiles !! (i * m + j)).
Proof.
  intros HCC HtCC HK Hn.
  pose proof (posterior_in_range N M_ n m w HCC HtCC HK) as Hrange.
  assert (Z.of_nat m ≤ INT_MAX)%Z as Hm.
  { destruct HK as [_ HK]. apply grid_side_small in HK.
    unfold INT_MAX. change (2 ^ 31 - 1)%Z with 2147483647%Z.
    change (2 ^ 30)%Z with 1073741824%Z in HK. lia. }
  eexists. split_and!.
  - rewrite posterior_run by done. by apply run_instrs_exec.
  - rewrite fold_exec_issued, posterior_events; [done|..].
    + by destruct HCC. + by destruct HtCC. + by destruct HK.
  - intros e (i & [_ Hi]%in_seq & (p & <- & _)%in_map_iff)%in_flat_map.
    exists i. split; [lia|done].
  - intros i Hi. by apply posterior_count.
  - intros r Hr. apply fold_exec_mem_other.
    apply Forall_flat_map'. intros i _. apply Forall_map'. intros p _. simpl.
    congruence.
  - apply fold_exec_length.
  - intros i j Hi Hj Hij. apply fold_exec_lookup_other.
    apply Forall_flat_map'. intros i' [_ Hi']%in_seq.
    apply Forall_map'. intros p _. simpl.
    destruct HK as [_ HK].
    rewrite (proj1 (slot_in_grid i' m m i' HK Hi' Hi')).
    intros [= Heq]. assert (i' = i) by nia. subst. lia.
Qed.

End Posterior.

Lemma posterior_covariance_frame_witness :
  ∃ w', posterior_covariance_tiled 1 1 2 2 Scalar.demo = (Returned tt, w') ∧
    mem w' ft_K_tiles !! 1 = Some (ready 0%R) ∧
    mem w' ft_CC_tiles = mem Scalar.demo ft_CC_tiles.
Proof.
  destruct (posterior_covariance_frame 1 1 2 2 Scalar.demo)
    as (w' & Hrun & _ & _ & _ & Hother & _ & Hoff).
  - split; [reflexivity|]. by vm_compute.
  - split; [reflexivity|]. by vm_compute.
  - split; [reflexivity|]. by vm_compute.
  - by vm_compute.
  - exists w'. split_and!; [exact Hrun| |by apply Hother].
    exact (Hoff 0 1 ltac:(lia) ltac:(lia) ltac:(lia)).
Defined.

(** ** Invocations that do not read each other's results

    A run of invocations that write distinct slots and read, among the slots
    written, only their own, acts as one simultaneous assignment computed
    from the state before the run. *)

Lemma fold_left_ext_in {A B} (f g : A → B → A) (l : list B) (a : A) :
  (∀ acc x, In x l → f acc x = g acc x) → fold_left f l a = fold_left g l a.
Proof.
  revert a. induction l as [|x l IH]; intros a Hfg; simpl; [done|].
  rewrite Hfg by (by left). apply IH. intros acc y Hy. apply Hfg. by right.
Qed.

Section Parallel.

Context {tile : Type} `{Kernels tile}.
Implicit Types V : ref * nat → option tile.

Lemma parallel_assignment (l : list instr) V :
  NoDup (map i_dst l) →
  (∀ i i', In i l → In i' l → In (i_dst i') (i_srcs i) → i_dst i' = i_dst i) →
  (∀ i, In i l →
     fold_left vexec l V (i_dst i) = unwrapping (i_fn i) (map V (i_srcs i))) ∧
  (∀ s, ¬ In s (map i_dst l) → fold_left vexec l V s = V s).
Proof.
  revert V. induction l as [|x l IH]; intros V Hnd Hreads.
  { split; [intros i []|done]. }
  simpl in Hnd. apply NoDup_cons in Hnd as [Hx Hnd].
  rewrite list_elem_of_In in Hx.
  destruct (IH (vexec V x)) as [IHd IHo]; [done| |].
  { intros i i' Hi Hi'. apply Hreads; by right. }
  assert (∀ i, In i l → map (vexec V x) (i_srcs i) = map V (i_srcs i)) as Hsrc.
  { intros i Hi. apply map_ext_in. intros s Hs.
    apply vexec_other. intros ->.
    apply Hx. rewrite (Hreads i x); [|by right|by left|done].
    by apply in_map. }
  split.
  - intros i [<-|Hi]; simpl.
    + rewrite IHo by done. apply vexec_dst.
    + rewrite IHd, Hsrc by done. done.
  - intros s Hs. simpl. rewrite IHo.
    + apply vexec_other. intros ->. apply Hs. by left.
    + intros Hin. apply Hs. by right.
Qed.

(** The same, with the premises read off the issued events. *)
Lemma parallel_assignment_events (l : list instr) V :
  NoDup (map ev_write (map event_of l)) →
  (∀ e e', In e (map event_of l) → In e' (map event_of l) →
     ev_write e' ∈ ev_reads e → ev_write e' = ev_write e) →
  (∀ i, In i l →
     fold_left vexec l V (i_dst i) = unwrapping (i_fn i) (map V (i_srcs i))) ∧
  (∀ s, ¬ In s (map i_dst l) → fold_left vexec l V s = V s).
Proof.
  intros Hnd Hreads. apply parallel_assignment.
  - assert (map ev_write (map event_of l)
            = map (fun s : ref * nat => Slot (fst s) (snd s)) (map i_dst l))
      as Heq by (by rewrite !map_map).
    rewrite Heq in Hnd. by apply NoDup_fmap_1 in Hnd.
  - intros i i' Hi Hi' Hin.
    specialize (Hreads (event_of i) (event_of i') (in_map _ _ _ Hi)
                  (in_map _ _ _ Hi')).
    simpl in Hreads.
    assert (Slot (fst (i_dst i')) (snd (i_dst i'))
            = Slot (fst (i_dst i)) (snd (i_dst i))) as Heq.
    { apply Hreads. unfold slots. apply list_elem_of_In.
      apply in_map_iff. by exists (i_dst i'). }
    injection Heq as H1 H2. destruct (i_dst i), (i_dst i'). simpl in *. by subst.
Qed.

End Parallel.

(** ** Triangular solves *)

Section Solves.

Context {tile : Type} `{Kernels tile}.
Implicit Types V : ref * nat → option tile.

Lemma forward_residual_ext N (L : nat → nat → tile) (y y' b : nat → tile) i c :
  (∀ p, p < c → y p = y' p) →
  forward_residual N L y b i c = forward_residual N L y' b i c.
Proof.
  intros Hy. unfold forward_residual. apply fold_left_ext_in.
  intros acc p [_ Hp]%in_seq. rewrite Hy by lia. done.
Qed.

Lemma backward_residual_ext N n (L : nat → nat → tile) (x x' y : nat → tile) i c :
  (∀ p, c ≤ p → p < n → x p = x' p) →
  backward_residual N n L x y i c = backward_residual N n L x' y i c.
Proof.
  intros Hx. unfold backward_residual. apply fold_left_ext_in.
  intros acc p [? Hp]%in_rev%in_seq. rewrite Hx by lia. done.
Qed.

Lemma forward_stage_values N n k V (L : nat → nat → tile) (r : nat → tile) :
  k < n →
  (∀ i, k ≤ i → i < n → V (ft_tiles, slot i n k) = Some (L i k)) →
  (∀ i, i < n → V (ft_rhs, i) = Some (r i)) →
  (∀ s, fst s ≠ ft_rhs → fold_left vexec (forward_stage_instrs N n k) V s = V s) ∧
  (∀ i, i < k → fold_left vexec (forward_stage_instrs N n k) V (ft_rhs, i) = Some (r i)) ∧
  fold_left vexec (forward_stage_instrs N n k) V (ft_rhs, k)
    = Some (mkl_trsv_l (L k k) (r k) N) ∧
  (∀ m, k < m → m < n →
     fold_left vexec (forward_stage_instrs N n k) V (ft_rhs, m)
     = Some (mkl_gemv_l (L m k) (mkl_trsv_l (L k k) (r k) N) (r m) N)).
Proof.
  intros Hk HL Hr. unfold forward_stage_instrs. simpl.
  set (V1 := vexec V (trsv_l_instr N n k)).
  assert (V1 (ft_rhs, k) = Some (mkl_trsv_l (L k k) (r k) N)) as HV1k.
  { unfold V1. change (ft_rhs, k) with (i_dst (trsv_l_instr N n k)).
    rewrite vexec_dst. simpl. rewrite HL, Hr by lia. done. }
  assert (∀ s, s ≠ (ft_rhs, k) → V1 s = V s) as HV1o.
  { intros s Hs. by apply vexec_other. }
  destruct (parallel_assignment
              (map (gemv_l_instr N n k) (seq (k + 1) (n - (k + 1)))) V1)
    as [Hd Ho].
  { rewrite map_map. simpl. apply NoDup_fmap_2; [|apply NoDup_seq].
    by intros ?? [=]. }
  { intros i i' (m & <- & [? ?]%in_seq)%in_map_iff
      (m' & <- & [? ?]%in_seq)%in_map_iff. simpl.
    intros [[=]|[[=]|[[= ->]|[]]]]; [lia|done]. }
  assert (∀ s, (∀ m, k < m → m < n → s ≠ (ft_rhs, m)) →
    ¬ In s (map i_dst (map (gemv_l_instr N n k) (seq (k + 1) (n - (k + 1))))))
    as Hnot.
  { intros s Hs (i & <- & (m & <- & [? ?]%in_seq)%in_map_iff)%in_map_iff.
    simpl in Hs. apply (Hs m); [lia..|done]. }
  split_and!.
  - intros s Hs. rewrite Ho.
    + apply HV1o. intros ->. done.
    + apply Hnot. intros m _ _ ->. done.
  - intros i Hi. rewrite Ho.
    + rewrite HV1o by (intros [=]; lia). apply Hr. lia.
    + apply Hnot. intros m ? ? [=]. lia.
  - rewrite Ho; [done|]. apply Hnot. intros m ? ? [=]. lia.
  - intros m Hkm Hm.
    change (ft_rhs, m) with (i_dst (gemv_l_instr N n k m)).
    rewrite Hd by (apply in_map, in_seq; lia). simpl.
    rewrite HV1k, !HV1o by (intros [=]; lia).
    rewrite HL, Hr by lia. done.
Qed.

Lemma forward_values N n V (L : nat → nat → tile) (b : nat → tile) :
  (∀ i j, j ≤ i → i < n → V (ft_tiles, slot i n j) = Some (L i j)) →
  (∀ i, i < n → V (ft_rhs, i) = Some (b i)) →
  ∃ y, forward_substitution N n L b y ∧
    (∀ i, i < n → fold_left vexec (forward_instrs N n) V (ft_rhs, i) = Some (y i)) ∧
    (∀ s, fst s ≠ ft_rhs → fold_left vexec (forward_instrs N n) V s = V s).
Proof.
  intros HL Hb. unfold forward_instrs.
  set (stages c := flat_map (forward_stage_instrs N n) (seq 0 c)).
  assert (∀ c, c ≤ n → ∃ y,
    (∀ i, i < c → y i = mkl_trsv_l (L i i) (forward_residual N L y b i i) N) ∧
    (∀ i, i < c → fold_left vexec (stages c) V (ft_rhs, i) = Some (y i)) ∧
    (∀ i, c ≤ i → i < n →
       fold_left vexec (stages c) V (ft_rhs, i) = Some (forward_residual N L y b i c)) ∧
    (∀ s, fst s ≠ ft_rhs → fold_left vexec (stages c) V s = V s)) as Hinv.
  { induction c as [|c IH]; intros Hc.
    - exists b. split_and!; [intros; lia..| |done].
      intros i _ Hi. by apply Hb.
    - destruct IH as (y & Hrec & Hdone & Hrest & Hother); [lia|].
      set (yc := mkl_trsv_l (L c c) (forward_residual N L y b c c) N).
      set (y' := fun i => if decide (i = c) then yc else y i).
      assert (∀ i c', c' ≤ c →
        forward_residual N L y' b i c' = forward_residual N L y b i c') as Hext.
      { intros i c' Hc'. apply forward_residual_ext.
        intros p Hp. unfold y'. rewrite decide_False by lia. done. }
      destruct (forward_stage_values N n c (fold_left vexec (stages c) V) L
                  (fun i => if decide (i < c) then y i
                            else forward_residual N L y b i c))
        as (Ho & Hlow & Hk & Hup); [lia| | |].
      { intros i ? ?. rewrite Hother by done. apply HL; lia. }
      { intros i Hi. destruct (decide (i < c)); [by apply Hdone|apply Hrest; lia]. }
      rewrite decide_False in Hk by lia.
      exists y'. unfold stages.
      rewrite seq_snoc, flat_map_app, fold_left_app, flat_map_singleton.
      fold (stages c). split_and!.
      + intros i Hi. rewrite Hext by lia. unfold y'.
        destruct (decide (i = c)) as [->|Hic]; [done|].
        apply Hrec. lia.
      + intros i Hi. unfold y'.
        destruct (decide (i = c)) as [->|Hic]; [apply Hk|].
        rewrite Hlow by lia. rewrite decide_True by lia. done.
      + intros i Hi Hin. rewrite Hup by lia.
        rewrite decide_False by lia. rewrite decide_False by lia.
        unfold forward_residual at 3.
        rewrite seq_snoc, fold_left_app. simpl.
        fold (forward_residual N L y' b i c). rewrite Hext by lia.
        unfold y'. rewrite decide_True by done. done.
      + intros s Hs. rewrite Ho by done. by apply Hother. }
  destruct (Hinv n) as (y & Hrec & Hdone & _ & Hother); [done|].
  exists y. split_and!; done.
Qed.

End Solves.

Section BackwardSolve.

Context {tile : Type} `{Kernels tile}.
Implicit Types V : ref * nat → option tile.

Lemma backward_stage_values N n k V (L : nat → nat → tile) (r : nat → tile) :
  k < n →
  (∀ j, j ≤ k → V (ft_tiles, slot k n j) = Some (L k j)) →
  (∀ i, i < n → V (ft_rhs, i) = Some (r i)) →
  (∀ s, fst s ≠ ft_rhs → fold_left vexec (backward_stage_instrs N n k) V s = V s) ∧
  (∀ i, k < i → i < n →
     fold_left vexec (backward_stage_instrs N n k) V (ft_rhs, i) = Some (r i)) ∧
  fold_left vexec (backward_stage_instrs N n k) V (ft_rhs, k)
    = Some (mkl_trsv_u (L k k) (r k) N) ∧
  (∀ m, m < k →
     fold_left vexec (backward_stage_instrs N n k) V (ft_rhs, m)
     = Some (mkl_gemv_u (L k m) (mkl_trsv_u (L k k) (r k) N) (r m) N)).
Proof.
  intros Hk HL Hr. unfold backward_stage_instrs. simpl.
  set (V1 := vexec V (trsv_u_instr N n k)).
  assert (V1 (ft_rhs, k) = Some (mkl_trsv_u (L k k) (r k) N)) as HV1k.
  { unfold V1. change (ft_rhs, k) with (i_dst (trsv_u_instr N n k)).
    rewrite vexec_dst. simpl. rewrite HL, Hr by lia. done. }
  assert (∀ s, s ≠ (ft_rhs, k) → V1 s = V s) as HV1o.
  { intros s Hs. by apply vexec_other. }
  destruct (parallel_assignment
              (map (gemv_u_instr N n k) (rev (seq 0 k))) V1) as [Hd Ho].
  { rewrite map_map. simpl. apply NoDup_fmap_2; [by intros ?? [=]|].
    rewrite <- Permutation_rev. apply NoDup_seq. }
  { intros i i' (m & <- & [? ?]%in_rev%in_seq)%in_map_iff
      (m' & <- & [? ?]%in_rev%in_seq)%in_map_iff. simpl.
    intros [[=]|[[=]|[[= ->]|[]]]]; [lia|done]. }
  assert (∀ s, (∀ m, m < k → s ≠ (ft_rhs, m)) →
    ¬ In s (map i_dst (map (gemv_u_instr N n k) (rev (seq 0 k))))) as Hnot.
  { intros s Hs (i & <- & (m & <- & [? ?]%in_rev%in_seq)%in_map_iff)%in_map_iff.
    simpl in Hs. apply (Hs m); [lia|done]. }
  split_and!.
  - intros s Hs. rewrite Ho.
    + apply HV1o. intros ->. done.
    + apply Hnot. intros m _ ->. done.
  - intros i Hi Hin. rewrite Ho.
    + rewrite HV1o by (intros [=]; lia). by apply Hr.
    + apply Hnot. intros m ? [=]. lia.
  - rewrite Ho; [done|]. apply Hnot. intros m ? [=]. lia.
  - intros m Hm.
    change (ft_rhs, m) with (i_dst (gemv_u_instr N n k m)).
    rewrite Hd by (apply in_map, in_rev; rewrite rev_involutive; apply in_seq; lia).
    simpl. rewrite HV1k, !HV1o by (intros [=]; lia).
    rewrite HL, Hr by lia. done.
Qed.

Lemma rev_seq_down n d :
  S d ≤ n → rev (seq (n - S d) (S d)) = rev (seq (n - d) d) ++ [n - S d].
Proof.
  intros Hd. simpl. replace (S (n - S d)) with (n - d) by lia. done.
Qed.

Lemma backward_values N n V (L : nat → nat → tile) (y : nat → tile) :
  (∀ i j, j ≤ i → i < n → V (ft_tiles, slot i n j) = Some (L i j)) →
  (∀ i, i < n → V (ft_rhs, i) = Some (y i)) →
  ∃ x, backward_substitution N n L y x ∧
    (∀ i, i < n → fold_left vexec (backward_instrs N n) V (ft_rhs, i) = Some (x i)) ∧
    (∀ s, fst s ≠ ft_rhs → fold_left vexec (backward_instrs N n) V s = V s).
Proof.
  intros HL Hy. unfold backward_instrs.
  set (stages d := flat_map (backward_stage_instrs N n) (rev (seq (n - d) d))).
  assert (∀ d, d ≤ n → ∃ x,
    (∀ i, n - d ≤ i → i < n →
       x i = mkl_trsv_u (L i i) (backward_residual N n L x y i (S i)) N) ∧
    (∀ i, n - d ≤ i → i < n →
       fold_left vexec (stages d) V (ft_rhs, i) = Some (x i)) ∧
    (∀ i, i < n - d →
       fold_left vexec (stages d) V (ft_rhs, i)
       = Some (backward_residual N n L x y i (n - d))) ∧
    (∀ s, fst s ≠ ft_rhs → fold_left vexec (stages d) V s = V s)) as Hinv.
  { induction d as [|d IH]; intros Hd.
    - exists y. split_and!; [intros; lia..| |done].
      intros i Hi. unfold stages, backward_residual.
      rewrite Nat.sub_0_r, Nat.sub_diag. simpl. apply Hy. lia.
    - destruct IH as (x & Hrec & Hdone & Hrest & Hother); [lia|].
      set (k := n - S d).
      assert (n - d = S k) as Hkd by lia.
      set (xk := mkl_trsv_u (L k k) (backward_residual N n L x y k (S k)) N).
      set (x' := fun i => if decide (i = k) then xk else x i).
      assert (∀ i c, k < c →
        backward_residual N n L x' y i c = backward_residual N n L x y i c) as Hext.
      { intros i c Hc. apply backward_residual_ext.
        intros p Hp _. unfold x'. rewrite decide_False by lia. done. }
      destruct (backward_stage_values N n k (fold_left vexec (stages d) V) L
                  (fun i => if decide (k < i) then x i
                            else backward_residual N n L x y i (S k)))
        as (Ho & Hup & Hk & Hlow); [lia| | |].
      { intros j Hj. rewrite Hother by done. apply HL; lia. }
      { intros i Hi. destruct (decide (k < i)).
        - apply Hdone; lia.
        - rewrite <- Hkd. apply Hrest. lia. }
      rewrite decide_False in Hk by lia.
      exists x'. unfold stages.
      rewrite rev_seq_down by done.
      rewrite flat_map_app, fold_left_app, flat_map_singleton.
      fold (stages d). fold k. split_and!.
      + intros i Hi Hin. rewrite Hext by lia. unfold x'.
        destruct (decide (i = k)) as [->|Hik]; [done|].
        apply Hrec; lia.
      + intros i Hi Hin. unfold x'.
        destruct (decide (i = k)) as [->|Hik]; [apply Hk|].
        rewrite Hup by lia. rewrite decide_True by lia. done.
      + intros i Hi. rewrite Hlow by lia.
        rewrite decide_False by lia. rewrite decide_False by lia.
        unfold backward_residual at 3.
        replace (n - k) with (S (n - S k)) by lia.
        simpl. rewrite fold_left_app. simpl.
        fold (backward_residual N n L x' y i (S k)). rewrite Hext by lia.
        unfold x'. rewrite decide_True by done. done.
      + intros s Hs. rewrite Ho by done. by apply Hother. }
  destruct (Hinv n) as (x & Hrec & Hdone & _ & Hother); [done|].
  unfold stages in *. rewrite Nat.sub_diag in *.
  exists x. split_and!.
  - intros i Hi. apply Hrec; lia.
  - intros i Hi. apply Hdone; lia.
  - done.
Qed.

End BackwardSolve.

Section SolveStructure.

Context {tile : Type}.
Implicit Types w : world tile.

Lemma forward_in_range N n w :
  grid (mem w ft_tiles) n n → vector_ok (mem w ft_rhs) n →
  Forall (in_range w) (forward_instrs N n).
Proof.
  intros Hgrid [Hrhs _]. apply Forall_flat_map'. intros k [_ Hk]%in_seq.
  unfold forward_stage_instrs. constructor.
  - split; simpl; [lia|]. repeat constructor; simpl; [|lia].
    by apply (slot_lt _ n n).
  - apply Forall_map'. intros m [? Hm]%in_seq.
    split; simpl; [lia|]. repeat constructor; simpl; [|lia..].
    apply (slot_lt _ n n); done || lia.
Qed.

Lemma backward_in_range N n w :
  grid (mem w ft_tiles) n n → vector_ok (mem w ft_rhs) n →
  Forall (in_range w) (backward_instrs N n).
Proof.
  intros Hgrid [Hrhs _]. apply Forall_flat_map'. intros k [_ Hk]%in_rev%in_seq.
  unfold backward_stage_instrs. constructor.
  - split; simpl; [lia|]. repeat constructor; simpl; [|lia].
    by apply (slot_lt _ n n).
  - apply Forall_map'. intros m [? Hm]%in_rev%in_seq.
    split; simpl; [lia|]. repeat constructor; simpl; [|lia..].
    apply (slot_lt _ n n); done || lia.
Qed.

Lemma forward_events N n :
  (N.of_nat (n * n) ≤ vector_max_size)%N →
  map event_of (forward_instrs N n) = Spec.forward_solve N n.
Proof.
  intros Hmax. unfold forward_instrs, Spec.forward_solve.
  rewrite map_flat_map'. apply flat_map_ext_In. intros k [_ Hk]%in_seq.
  unfold forward_stage_instrs. simpl. f_equal.
  - unfold event_of, Spec.solve_rhs, Spec.grid_slot. simpl. by slot_exact Hmax.
  - unfold Spec.rows_below. rewrite filter_seq_above, map_map.
    apply map_ext_in. intros m [? Hm]%in_seq.
    unfold event_of, Spec.propagate, Spec.grid_slot. simpl. by slot_exact Hmax.
Qed.

Lemma backward_events N n :
  (N.of_nat (n * n) ≤ vector_max_size)%N →
  map event_of (backward_instrs N n) = Spec.backward_solve N n.
Proof.
  intros Hmax. unfold backward_instrs, Spec.backward_solve.
  rewrite map_flat_map'. apply flat_map_ext_In. intros k [_ Hk]%in_rev%in_seq.
  unfold backward_stage_instrs. simpl. f_equal.
  - unfold event_of, Spec.solve_rhs, Spec.grid_slot. simpl. by slot_exact Hmax.
  - unfold Spec.rows_above. rewrite map_map.
    apply map_ext_in. intros m [? Hm]%in_rev%in_seq.
    unfold event_of, Spec.propagate, Spec.grid_slot. simpl. by slot_exact Hmax.
Qed.

End SolveStructure.

Section SolveAlgebra.

Context {tile : Type} `{Kernels tile} `{TileAlgebra tile}.
Context {KS : KernelSpec tile} {EA : ExactArithmetic tile}.

(** Adding back, last first, what was subtracted. *)
Lemma fold_sub_add (t : nat → tile) (l : list nat) (a : tile) :
  fold_left (fun acc p => tadd acc (t p)) (rev l)
    (fold_left (fun acc p => tsub acc (t p)) l a) = a.
Proof.
  revert a. induction l as [|p l IH]; intros a; simpl; [done|].
  rewrite fold_left_app, IH. simpl. apply tsub_tadd.
Qed.

Lemma forward_substitution_solves N n (L : nat → nat → tile) (b y : nat → tile) :
  forward_substitution N n L b y →
  (∀ k, k < n → nonsingular (L k k)) →
  ∀ i, i < n → lower_row L y i = b i.
Proof.
  intros Hfwd Hns i Hi. unfold lower_row.
  rewrite (Hfwd i Hi) at 1. rewrite trsv_l_spec by (by apply Hns).
  unfold forward_residual.
  rewrite (fold_left_ext_in (fun acc p => mkl_gemv_l (L i p) (y p) acc N)
             (fun acc p => tsub acc (mul_vec (L i p) (y p))))
    by (intros; apply gemv_l_spec).
  apply (fold_sub_add (fun p => mul_vec (L i p) (y p))).
Qed.

Lemma backward_substitution_solves N n (L : nat → nat → tile) (y x : nat → tile) :
  backward_substitution N n L y x →
  (∀ k, k < n → nonsingular (L k k)) →
  ∀ i, i < n → upper_row n L x i = y i.
Proof.
  intros Hbwd Hns i Hi. unfold upper_row.
  rewrite (Hbwd i Hi) at 1. rewrite trsv_u_spec by (by apply Hns).
  unfold backward_residual.
  rewrite (fold_left_ext_in (fun acc p => mkl_gemv_u (L p i) (x p) acc N)
             (fun acc p => tsub acc (mul_tvec (L p i) (x p))))
    by (intros; apply gemv_u_spec).
  rewrite <- (rev_involutive (seq (S i) (n - S i))) at 1.
  apply (fold_sub_add (fun p => mul_tvec (L p i) (x p))).
Qed.

Lemma lower_row_ext (L : nat → nat → tile) (v v' : nat → tile) i :
  (∀ p, p ≤ i → v p = v' p) → lower_row L v i = lower_row L v' i.
Proof.
  intros Hv. unfold lower_row. rewrite (Hv i) by done.
  apply fold_left_ext_in. intros acc p [_ Hp]%in_rev%in_seq.
  rewrite Hv by lia. done.
Qed.

(** C5.  On a factor [L] stored in the lower triangle of [ft_tiles] and a
    right-hand side [b] in [ft_rhs], [forward_solve_tiled] returns after
    issuing, for [k = 0 .. n_tiles-1], the solve of rhs tile [k] against
    factor tile [(k,k)] and then, for each [m > k], the update of rhs tile
    [m] with factor tile [(m,k)]; it leaves block forward substitution [y] in
    [ft_rhs].  [backward_solve_tiled] then issues the mirror image, [k] from
    [n_tiles-1] down to [0] and [m] from [k-1] down to [0] with the
    transposed factor tile [(k,m)], and leaves block backward substitution
    [x].  With the kernel contracts in exact arithmetic and nonsingular
    diagonal tiles, [L·y = b], [Lᵀ·x = y] and so [L·(Lᵀ·x) = b]. *)
Theorem forward_backward_substitution (N n : nat) (w : world tile)
    (L : nat → nat → tile) (b : nat → tile) :
  grid (mem w ft_tiles) n n →
  vector_ok (mem w ft_rhs) n →
  (∀ i j, j ≤ i → i < n → value w ft_tiles (i * n + j) = Some (L i j)) →
  (∀ i, i < n → value w ft_rhs i = Some (b i)) →
  (∀ k, k < n → nonsingular (L k k)) →
  ∃ w1 w2 y x,
    forward_solve_tiled N n w = (Returned tt, w1) ∧
    issued w1 = issued w ++ Spec.forward_solve N n ∧
    backward_solve_tiled N n w1 = (Returned tt, w2) ∧
    issued w2 = issued w1 ++ Spec.backward_solve N n ∧
    (∀ i, i < n → value w1 ft_rhs i = Some (y i)) ∧
    forward_substitution N n L b y ∧
    (∀ i, i < n → value w2 ft_rhs i = Some (x i)) ∧
    backward_substitution N n L y x ∧
    (∀ i, i < n → lower_row L y i = b i) ∧
    (∀ i, i < n → upper_row n L x i = y i) ∧
    (∀ i, i < n → lower_row L (upper_row n L x) i = b i).
Proof.
  intros Hgrid Hrhs HL Hb Hns.
  pose proof Hgrid as [Hlen Hmax].
  pose proof (grid_side_small n Hmax) as Hsmall.
  pose proof (forward_in_range N n w Hgrid Hrhs) as Hfr.
  set (w1 := fold_left exec (forward_instrs N n) w).
  assert (grid (mem w1 ft_tiles) n n) as Hgrid1.
  { unfold grid, vector_ok, w1. by rewrite fold_exec_length. }
  assert (vector_ok (mem w1 ft_rhs) n) as Hrhs1.
  { destruct Hrhs. unfold vector_ok, w1. by rewrite fold_exec_length. }
  pose proof (backward_in_range N n w1 Hgrid1 Hrhs1) as Hbr.
  set (w2 := fold_left exec (backward_instrs N n) w1).
  assert (∀ i j, j ≤ i → i < n → values w (ft_tiles, slot i n j) = Some (L i j))
    as HLs.
  { intros i j Hj Hi. unfold values. simpl.
    rewrite (proj1 (slot_in_grid i n n j Hmax Hi ltac:(lia))). by apply HL. }
  destruct (forward_values N n (values w) L b HLs Hb) as (y & Hfwd & Hy & Hoth).
  assert (∀ i j, j ≤ i → i < n → values w1 (ft_tiles, slot i n j) = Some (L i j))
    as HLs1.
  { intros i j Hj Hi. unfold w1. rewrite values_fold_exec by done.
    rewrite Hoth by done. by apply HLs. }
  assert (∀ i, i < n → values w1 (ft_rhs, i) = Some (y i)) as Hy1.
  { intros i Hi. unfold w1. rewrite values_fold_exec by done. by apply Hy. }
  destruct (backward_values N n (values w1) L y HLs1 Hy1) as (x & Hbwd & Hx & _).
  pose proof (forward_substitution_solves N n L b y Hfwd Hns) as HLy.
  pose proof (backward_substitution_solves N n L y x Hbwd Hns) as HLx.
  exists w1, w2, y, x. split_and!; try done.
  - rewrite forward_run. by apply run_instrs_exec.
  - unfold w1. by rewrite fold_exec_issued, forward_events.
  - rewrite backward_run by done. by apply run_instrs_exec.
  - unfold w2. by rewrite fold_exec_issued, backward_events.
  - intros i Hi. change (value w2 ft_rhs i) with (values w2 (ft_rhs, i)).
    unfold w2. rewrite values_fold_exec by done. by apply Hx.
  - intros i Hi. rewrite <- HLy by done. apply lower_row_ext.
    intros p Hp. apply HLx. lia.
Qed.

End SolveAlgebra.

Lemma forward_backward_substitution_witness :
  ∃ w1 w2 x,
    forward_solve_tiled 1 2 Scalar.demo = (Returned tt, w1) ∧
    backward_solve_tiled 1 2 w1 = (Returned tt, w2) ∧
    value w2 ft_rhs 1 = Some (x 1) ∧
    lower_row Scalar.demo_A (upper_row 2 Scalar.demo_A x) 1 = Scalar.demo_b 1.
Proof.
  destruct (forward_backward_substitution 1 2 Scalar.demo Scalar.demo_A
              Scalar.demo_b)
    as (w1 & w2 & y & x & Hfwd & _ & Hbwd & _ & _ & _ & Hx & _ & _ & _ & Hsol).
  - split; [reflexivity|]. by vm_compute.
  - split; [reflexivity|]. by vm_compute.
  - intros i j Hj Hi. below_two i; below_two j; reflexivity.
  - intros i Hi. below_two i; reflexivity.
  - intros k Hk. below_two k; unfold Scalar.demo_A; simpl; lra.
  - exists w1, w2, x. split_and!; [exact Hfwd|exact Hbwd|apply Hx; lia|apply Hsol; lia].
Defined.

(** ** The values the tiled Cholesky computes *)

Lemma slot_inj n i j i' j' :
  (N.of_nat (n * n) ≤ vector_max_size)%N →
  i < n → j < n → i' < n → j' < n →
  slot i n j = slot i' n j' → i = i' ∧ j = j'.
Proof.
  intros Hmax Hi Hj Hi' Hj'.
  rewrite (proj1 (slot_in_grid i n n j Hmax Hi Hj)).
  rewrite (proj1 (slot_in_grid i' n n j' Hmax Hi' Hj')).
  intros Heq. assert (i = i') by nia. subst. split; [done|lia].
Qed.

Ltac slot_ne Hmax :=
  let Heq := fresh "Heq" in
  intros [= Heq]; apply (slot_inj _ _ _ _ _ Hmax) in Heq; lia.

Section CholeskyValues.

Context {tile : Type} `{Kernels tile}.
Implicit Types V : ref * nat → option tile.

Lemma in_panel_dsts N n k s :
  In s (map i_dst (map (trsm_instr N n k) (seq (k + 1) (n - (k + 1))))) →
  ∃ m, k < m ∧ m < n ∧ s = (ft_tiles, slot m n k).
Proof.
  intros (i & <- & (m & <- & [? ?]%in_seq)%in_map_iff)%in_map_iff.
  exists m. split_and!; done || lia.
Qed.

Lemma in_update_dsts N n k s :
  In s (map i_dst (flat_map (update_row_instrs N n k) (seq (k + 1) (n - (k + 1))))) →
  ∃ m j, k < j ∧ j ≤ m ∧ m < n ∧ s = (ft_tiles, slot m n j).
Proof.
  intros (i & <- & (m & [? ?]%in_seq & Hi)%in_flat_map)%in_map_iff.
  destruct Hi as [<-|(j & <- & [? ?]%in_seq)%in_map_iff].
  - exists m, m. split_and!; done || lia.
  - exists m, j. split_and!; done || lia.
Qed.

Lemma cholesky_stage_values N n k V (S : nat → nat → tile) :
  (N.of_nat (n * n) ≤ vector_max_size)%N → k < n →
  (∀ i j, k ≤ j → j ≤ i → i < n → V (ft_tiles, slot i n j) = Some (S i j)) →
  let V' := fold_left vexec (cholesky_stage_instrs N n k) V in
  let Lkk := mkl_potrf (S k k) N in
  let Lmk := fun m => mkl_trsm Lkk (S m k) N in
  V' (ft_tiles, slot k n k) = Some Lkk ∧
  (∀ m, k < m → m < n → V' (ft_tiles, slot m n k) = Some (Lmk m)) ∧
  (∀ m, k < m → m < n →
     V' (ft_tiles, slot m n m) = Some (mkl_syrk (S m m) (Lmk m) N)) ∧
  (∀ m j, k < j → j < m → m < n →
     V' (ft_tiles, slot m n j) = Some (mkl_gemm (Lmk m) (Lmk j) (S m j) N)) ∧
  (∀ s, (∀ i j, k ≤ j → j ≤ i → i < n → s ≠ (ft_tiles, slot i n j)) → V' s = V s).
Proof.
  intros Hmax Hk HV V' Lkk Lmk. unfold V', cholesky_stage_instrs. simpl.
  rewrite fold_left_app.
  set (V1 := vexec V (potrf_instr N n k)).
  set (panelI := map (trsm_instr N n k) (seq (k + 1) (n - (k + 1)))).
  set (updI := flat_map (update_row_instrs N n k) (seq (k + 1) (n - (k + 1)))).
  set (V2 := fold_left vexec panelI V1).
  destruct (parallel_assignment_events panelI V1) as [Hpd Hpo].
  { unfold panelI. rewrite panel_instr_events by done. by apply panel_writes_NoDup. }
  { unfold panelI. rewrite panel_instr_events by done.
    intros e e'. by apply panel_reads_own. }
  destruct (parallel_assignment_events updI V2) as [Hud Huo].
  { unfold updI. rewrite update_instr_events by done. by apply updates_writes_NoDup. }
  { unfold updI. rewrite update_instr_events by done.
    intros e e'. by apply updates_reads_own. }
  fold V2 in Hpd, Hpo.
  assert (V1 (ft_tiles, slot k n k) = Some Lkk) as F1.
  { unfold V1. change (ft_tiles, slot k n k) with (i_dst (potrf_instr N n k)).
    rewrite vexec_dst. simpl. rewrite HV by lia. done. }
  assert (∀ s, s ≠ (ft_tiles, slot k n k) → V1 s = V s) as F1o.
  { intros s Hs. by apply vexec_other. }
  assert (∀ s, (∀ m, k < m → m < n → s ≠ (ft_tiles, slot m n k)) → V2 s = V1 s)
    as F2o.
  { intros s Hs. apply Hpo. intros (m & ? & ? & ->)%in_panel_dsts.
    by apply (Hs m). }
  assert (∀ m, k < m → m < n → V2 (ft_tiles, slot m n k) = Some (Lmk m)) as F2.
  { intros m Hkm Hm.
    change (ft_tiles, slot m n k) with (i_dst (trsm_instr N n k m)).
    rewrite Hpd by (apply in_map, in_seq; lia). simpl.
    rewrite F1, F1o by slot_ne Hmax. rewrite HV by lia. done. }
  assert (∀ s, (∀ m j, k < j → j ≤ m → m < n → s ≠ (ft_tiles, slot m n j)) →
    fold_left vexec updI V2 s = V2 s) as F3o.
  { intros s Hs. apply Huo. intros (m & j & ? & ? & ? & ->)%in_update_dsts.
    by apply (Hs m j). }
  assert (∀ m j, k < j → j ≤ m → m < n →
    V2 (ft_tiles, slot m n j) = Some (S m j)) as F2t.
  { intros m j Hj Hjm Hm.
    rewrite F2o by (intros; slot_ne Hmax).
    rewrite F1o by slot_ne Hmax. apply HV; lia. }
  split_and!.
  - rewrite F3o by (intros; slot_ne Hmax).
    rewrite F2o by (intros; slot_ne Hmax). done.
  - intros m Hkm Hm. rewrite F3o by (intros; slot_ne Hmax). by apply F2.
  - intros m Hkm Hm.
    change (ft_tiles, slot m n m) with (i_dst (syrk_instr N n k m)).
    rewrite Hud.
    + simpl. rewrite F2t, F2 by lia. done.
    + apply in_flat_map. exists m. split; [apply in_seq; lia|by left].
  - intros m j Hj Hjm Hm.
    change (ft_tiles, slot m n j) with (i_dst (gemm_instr N n k m j)).
    rewrite Hud.
    + simpl. rewrite !F2, F2t by lia. done.
    + apply in_flat_map. exists m. split; [apply in_seq; lia|].
      right. apply in_map, in_seq. lia.
  - intros s Hs. rewrite F3o by (intros; apply Hs; lia).
    rewrite F2o by (intros; apply Hs; lia).
    apply F1o. apply Hs; lia.
Qed.

Lemma residual_ext N (A L L' : nat → nat → tile) i j c :
  (∀ p, p < c → L i p = L' i p ∧ L j p = L' j p) →
  residual N A L i j c = residual N A L' i j c.
Proof.
  intros HL. unfold residual. apply fold_left_ext_in.
  intros acc p [_ Hp]%in_seq.
  destruct (HL p) as [-> ->]; [lia|]. done.
Qed.

Lemma residual_snoc N (A L : nat → nat → tile) i j c :
  residual N A L i j (S c)
  = if decide (i = j)
    then mkl_syrk (residual N A L i j c) (L i c) N
    else mkl_gemm (L i c) (L j c) (residual N A L i j c) N.
Proof.
  unfold residual. rewrite seq_snoc, fold_left_app. done.
Qed.

Lemma cholesky_values N n V (A : nat → nat → tile) :
  (N.of_nat (n * n) ≤ vector_max_size)%N →
  (∀ i j, j ≤ i → i < n → V (ft_tiles, slot i n j) = Some (A i j)) →
  ∃ L, blocked_cholesky N n A L ∧
    (∀ i j, j ≤ i → i < n →
       fold_left vexec (cholesky_instrs N n) V (ft_tiles, slot i n j) = Some (L i j)).
Proof.
  intros Hmax HA. unfold cholesky_instrs.
  set (stages c := flat_map (cholesky_stage_instrs N n) (seq 0 c)).
  assert (∀ c, c ≤ n → ∃ L,
    (∀ j, j < c → L j j = mkl_potrf (residual N A L j j j) N) ∧
    (∀ i j, j < c → j < i → i < n →
       L i j = mkl_trsm (L j j) (residual N A L i j j) N) ∧
    (∀ i j, j < c → j ≤ i → i < n →
       fold_left vexec (stages c) V (ft_tiles, slot i n j) = Some (L i j)) ∧
    (∀ i j, c ≤ j → j ≤ i → i < n →
       fold_left vexec (stages c) V (ft_tiles, slot i n j)
       = Some (residual N A L i j c))) as Hinv.
  { induction c as [|c IH]; intros Hc.
    - exists A. split_and!; [intros; lia..|]. intros i j _ Hj Hi. by apply HA.
    - destruct IH as (L & Hdiag & Hpanel & Hdone & Htrail); [lia|].
      set (S := fun i j => residual N A L i j c).
      destruct (cholesky_stage_values N n c (fold_left vexec (stages c) V) S)
        as (Hkk & Hmk & Hmm & Hmj & Hother); [done|lia|..].
      { intros i j Hj Hji Hi. by apply Htrail. }
      set (Lcc := mkl_potrf (S c c) N) in *.
      set (Lmc := fun m => mkl_trsm Lcc (S m c) N) in *.
      set (L' := fun i j => if decide (j = c)
                            then (if decide (i = c) then Lcc else Lmc i)
                            else L i j).
      assert (L' c c = Lcc) as HLcc.
      { unfold L'. by rewrite !decide_True. }
      assert (∀ i, i ≠ c → L' i c = Lmc i) as HLmc.
      { intros i Hi. unfold L'.
        rewrite (decide_True (P := c = c)) by done.
        by rewrite (decide_False (P := i = c)). }
      assert (∀ i j, j ≠ c → L' i j = L i j) as HLo.
      { intros i j Hj. unfold L'. by rewrite (decide_False (P := j = c)). }
      assert (∀ i j c', c' ≤ c →
        residual N A L' i j c' = residual N A L i j c') as Hext.
      { intros i j c' Hc'. apply residual_ext. intros p Hp.
        rewrite !HLo by lia. done. }
      exists L'. unfold stages.
      rewrite seq_snoc, flat_map_app, fold_left_app, flat_map_singleton.
      fold (stages c). split_and!.
      + intros j Hj. rewrite Hext by lia.
        destruct (decide (j = c)) as [->|Hjc].
        * by rewrite HLcc.
        * rewrite HLo by done. apply Hdiag. lia.
      + intros i j Hj Hji Hi. rewrite Hext by lia.
        destruct (decide (j = c)) as [->|Hjc].
        * rewrite HLmc, HLcc by lia. done.
        * rewrite !HLo by done. apply Hpanel; lia.
      + intros i j Hj Hji Hi.
        destruct (decide (j = c)) as [->|Hjc].
        * destruct (decide (i = c)) as [->|Hic]; [by rewrite HLcc|].
          rewrite HLmc by done. apply Hmk; lia.
        * rewrite HLo by done.
          rewrite Hother by (intros; slot_ne Hmax). apply Hdone; lia.
      + intros i j Hj Hji Hi. rewrite residual_snoc, Hext by lia.
        fold (S i j). rewrite !HLmc by lia.
        destruct (decide (i = j)) as [->|Hij].
        * apply Hmm; lia.
        * apply Hmj; lia. }
  destruct (Hinv n) as (L & Hdiag & Hpanel & Hdone & _); [done|].
  exists L. split; [split|].
  - done.
  - intros i j Hji Hi. apply Hpanel; lia.
  - intros i j Hji Hi. apply Hdone; lia.
Qed.

End CholeskyValues.

(** ** The Adam steps *)

Section AdamStep.

Context {tile : Type} `{Kernels tile}.
Variable epsilon : R.
Implicit Types w : world tile.

Lemma hyper_read_ok i x w :
  hyperparameters w !! i = Some x → hyper_read (tile := tile) i w = (Returned x, w).
Proof. intros Hx. unfold hyper_read. by rewrite Hx. Qed.

Lemma m_T_read_ok i x w :
  m_T w !! i = Some x → m_T_read (tile := tile) i w = (Returned x, w).
Proof. intros Hx. unfold m_T_read. by rewrite Hx. Qed.

Lemma v_T_read_ok i x w :
  v_T w !! i = Some x → v_T_read (tile := tile) i w = (Returned x, w).
Proof. intros Hx. unfold v_T_read. by rewrite Hx. Qed.

Lemma hyper_write_ok i x w :
  i < length (hyperparameters w) →
  hyper_write i x w
  = (Returned tt, set_hyperparameters (<[i := x]> (hyperparameters w)) w).
Proof. intros Hi. unfold hyper_write. by rewrite decide_True. Qed.

Lemma m_T_write_ok i x w :
  i < length (m_T w) →
  m_T_write i x w = (Returned tt, set_m_T (<[i := x]> (m_T w)) w).
Proof. intros Hi. unfold m_T_write. by rewrite decide_True. Qed.

Lemma v_T_write_ok i x w :
  i < length (v_T w) →
  v_T_write i x w = (Returned tt, set_v_T (<[i := x]> (v_T w)) w).
Proof. intros Hi. unfold v_T_write. by rewrite decide_True. Qed.

Lemma update_param_ok u h g m v b1T b2T iter lr b1t b2t :
  (0 ≤ iter)%Z →
  h !! learning_rate_idx = Some lr →
  b1T !! Z.to_nat iter = Some b1t →
  b2T !! Z.to_nat iter = Some b2t →
  update_param epsilon u h g m v b1T b2T iter
  = Some (u - lr * (m / (1 - b1t)) / (sqrt (v / (1 - b2t)) + epsilon))%R.
Proof.
  intros Hiter Hlr H1 H2. unfold update_param.
  destruct (Z.ltb_spec iter 0) as [|_]; [lia|].
  by rewrite Hlr, H1, H2.
Qed.

Lemma adam_step_run g idx noise b1T b2T iter w theta lr beta1 beta2 m v b1t b2t :
  hyperparameters w !! idx = Some theta →
  hyperparameters w !! learning_rate_idx = Some lr →
  hyperparameters w !! 4 = Some beta1 →
  hyperparameters w !! 5 = Some beta2 →
  m_T w !! idx = Some m →
  v_T w !! idx = Some v →
  (0 ≤ iter)%Z →
  b1T !! Z.to_nat iter = Some b1t →
  b2T !! Z.to_nat iter = Some b2t →
  ∃ w', adam_step epsilon g idx noise b1T b2T iter w = (Returned tt, w') ∧
    adam_post idx (Spec.adam epsilon lr beta1 beta2 b1t b2t g theta m v) w w' ∧
    mem w' = mem w ∧
    issued w' = issued w ++ adam_events idx noise iter.
Proof.
  intros Hth Hlr Hb1 Hb2 Hm Hv Hiter H1 H2.
  pose proof (lookup_lt_Some _ _ _ Hth) as Hlen.
  pose proof (lookup_lt_Some _ _ _ Hm) as Hlenm.
  pose proof (lookup_lt_Some _ _ _ Hv) as Hlenv.
  unfold adam_step.
  erewrite bind_returned by (by apply hyper_read_ok).
  erewrite bind_returned by reflexivity.
  erewrite bind_returned by (by apply m_T_read_ok).
  erewrite bind_returned by (by apply hyper_read_ok).
  erewrite bind_returned by reflexivity.
  erewrite bind_returned by (by apply m_T_write_ok).
  erewrite bind_returned by (by apply v_T_read_ok).
  erewrite bind_returned by (by apply hyper_read_ok).
  erewrite bind_returned by reflexivity.
  erewrite bind_returned by (by apply v_T_write_ok).
  erewrite bind_returned
    by (apply m_T_read_ok; simpl; by apply list_lookup_insert_eq).
  erewrite bind_returned
    by (apply v_T_read_ok; simpl; by apply list_lookup_insert_eq).
  erewrite bind_returned by reflexivity.
  erewrite bind_returned by reflexivity.
  simpl hyperparameters.
  erewrite update_param_ok by done.
  erewrite bind_returned by reflexivity.
  rewrite hyper_write_ok by done.
  eexists. split; [reflexivity|]. split_and!.
  - split_and!; reflexivity.
  - reflexivity.
  - simpl. rewrite <- !app_assoc. reflexivity.
Qed.

End AdamStep.

(** ** The gradient tiles of [update_hyperparameter] *)

Lemma mapM_get_values {tile : Type} `{Kernels tile} (l : list (future tile))
    (n : nat) (D : nat → tile) :
  length l = n →
  (∀ i f, i < n → l !! i = Some f → get f = Some (D i)) →
  mapM get l = Some (map D (seq 0 n)).
Proof.
  intros Hlen Hget. apply mapM_Some_2.
  apply Forall2_same_length_lookup_2.
  - by rewrite length_map, length_seq.
  - intros i f y Hf Hy.
    pose proof (lookup_lt_Some _ _ _ Hf) as Hi. rewrite Hlen in Hi.
    rewrite list_lookup_fmap, lookup_seq_lt in Hy by done.
    injection Hy as <-. by apply (Hget i).
Qed.

Section GradientTiles.

Context {tile : Type} `{Kernels tile}.
Implicit Types V : ref * nat → option tile.
Implicit Types w : world tile.

Lemma gradient_row_values N n i (T G : nat → tile) (d : tile) V c :
  c ≤ n →
  (∀ j, j < n → V (ft_tiles, slot i n j) = Some (T j)) →
  (∀ j, j < n → V (ft_rhs, slot j n i) = Some (G j)) →
  V (diag_tiles, i) = Some d →
  fold_left vexec (map (gemm_diag_instr N n i) (seq 0 c)) V (diag_tiles, i)
  = Some (fold_left (fun acc j => mkl_gemm_diag (T j) (G j) acc N) (seq 0 c) d).
Proof.
  intros Hc HT HG Hd. induction c as [|c IH]; [done|].
  rewrite seq_snoc, map_app, !fold_left_app. simpl.
  change (diag_tiles, i) with (i_dst (gemm_diag_instr N n i c)) at 1.
  rewrite vexec_dst. simpl.
  rewrite IH by lia.
  rewrite !fold_vexec_other by (apply Forall_map'; intros; simpl; congruence).
  rewrite HT, HG by lia. done.
Qed.

Lemma gradient_row_other N n i V c s :
  s ≠ (diag_tiles, i) →
  fold_left vexec (map (gemm_diag_instr N n i) (seq 0 c)) V s = V s.
Proof.
  intros Hs. apply fold_vexec_other. apply Forall_map'. by intros.
Qed.

Lemma gradient_values N n (T G : nat → nat → tile) V i :
  i < n →
  (∀ a b, a < n → b < n → V (ft_tiles, slot a n b) = Some (T a b)) →
  (∀ a b, a < n → b < n → V (ft_rhs, slot a n b) = Some (G a b)) →
  fold_left vexec (gradient_instrs N n) V (diag_tiles, i)
  = Some (diag_accumulated N n T G i).
Proof.
  intros Hi HT HG. unfold gradient_instrs. rewrite fold_left_app.
  set (V0 := fold_left vexec (map (zeros_instr N) (seq 0 n)) V).
  destruct (parallel_assignment (map (zeros_instr N) (seq 0 n)) V) as [Hzd Hzo].
  { rewrite map_map. simpl. apply NoDup_fmap_2; [by intros ?? [=]|apply NoDup_seq]. }
  { intros a b (d & <- & _)%in_map_iff _ []. }
  fold V0 in Hzd, Hzo.
  assert (∀ d, d < n → V0 (diag_tiles, d) = Some (gen_tile_zeros_diag N)) as HV0.
  { intros d Hd. change (diag_tiles, d) with (i_dst (zeros_instr N d)).
    rewrite Hzd by (apply in_map, in_seq; lia). done. }
  assert (∀ s, fst s ≠ diag_tiles → V0 s = V s) as HV0o.
  { intros s Hs. apply Hzo.
    intros (a & <- & (d & <- & _)%in_map_iff)%in_map_iff. by apply Hs. }
  set (rows c := flat_map (fun i => map (gemm_diag_instr N n i) (seq 0 n)) (seq 0 c)).
  assert (∀ c, c ≤ n →
    (∀ s, (∀ a, a < c → s ≠ (diag_tiles, a)) → fold_left vexec (rows c) V0 s = V0 s) ∧
    (∀ a, a < c → fold_left vexec (rows c) V0 (diag_tiles, a)
                  = Some (diag_accumulated N n T G a))) as Hinv.
  { induction c as [|c IH]; intros Hc.
    - split; [done|]. intros a Ha. lia.
    - destruct IH as [IHo IHv]; [lia|].
      unfold rows in *.
      rewrite seq_snoc, flat_map_app, fold_left_app, flat_map_singleton.
      split.
      + intros s Hs. rewrite gradient_row_other by (apply Hs; lia).
        apply IHo. intros a Ha. apply Hs. lia.
      + intros a Ha. destruct (decide (a = c)) as [->|Hne].
        * apply gradient_row_values; [done|..].
          -- intros j Hj. rewrite IHo by (intros; congruence).
             rewrite HV0o by done. apply HT; lia.
          -- intros j Hj. rewrite IHo by (intros; congruence).
             rewrite HV0o by done. apply HG; lia.
          -- rewrite IHo by (intros j ?; intros [= ->]; lia). apply HV0. lia.
        * rewrite gradient_row_other by (intros [= ?]; lia). apply IHv. lia. }
  destruct (Hinv n) as [_ Hv]; [done|]. by apply Hv.
Qed.

Lemma gradient_in_range N n w :
  grid (mem w ft_tiles) n n → grid (mem w ft_rhs) n n →
  length (mem w diag_tiles) = n →
  Forall (in_range w) (gradient_instrs N n).
Proof.
  intros HT HG Hd. unfold gradient_instrs. apply Forall_app. split.
  - apply Forall_map'. intros d [_ Hd']%in_seq.
    split; simpl; [lia|constructor].
  - apply Forall_flat_map'. intros i [_ Hi]%in_seq.
    apply Forall_map'. intros j [_ Hj]%in_seq.
    split; simpl; [lia|]. repeat constructor; simpl; [| |lia].
    + by apply (slot_lt _ n n).
    + by apply (slot_lt _ n n).
Qed.

Lemma gradient_loops_run N n w :
  (for_up 0 n (fun d =>
     assign_dataflow (diag_tiles, d) (fn_gen_tile_zeros_diag N) []);;
   for_up 0 n (fun i =>
     for_up 0 n (fun j =>
       assign_dataflow (diag_tiles, i) (fn_mkl_gemm_diag N)
         [(ft_tiles, slot i n j); (ft_rhs, slot j n i); (diag_tiles, i)]))) w
  = for_each (gradient_instrs N n) run_instr w.
Proof.
  unfold gradient_instrs. rewrite for_each_app. unfold for_up.
  rewrite Nat.sub_0_r. apply bind_cong.
  - by rewrite for_each_map.
  - intros _ w'. rewrite for_each_flat_map. apply for_each_ext.
    intros i w''. by rewrite for_each_map.
Qed.

End GradientTiles.

(** ** The two update routines *)

Section Updates.

Context {tile : Type} `{Kernels tile}.
Variable epsilon : R.
Implicit Types w : world tile.

Lemma get_all_ok r w ts :
  mapM get (mem w r) = Some ts → get_all r w = (Returned ts, w).
Proof. intros Hts. unfold get_all. by rewrite Hts. Qed.

Lemma update_hyperparameter_run N n b1T b2T iter param_idx w
    (T G : nat → nat → tile) theta lr beta1 beta2 m v b1t b2t :
  (param_idx = 0 ∨ param_idx = 1)%Z →
  grid (mem w ft_tiles) n n →
  grid (mem w ft_rhs) n n →
  (∀ i j, i < n → j < n → value w ft_tiles (i * n + j) = Some (T i j)) →
  (∀ i j, i < n → j < n → value w ft_rhs (i * n + j) = Some (G i j)) →
  hyperparameters w !! Z.to_nat param_idx = Some theta →
  hyperparameters w !! learning_rate_idx = Some lr →
  hyperparameters w !! 4 = Some beta1 →
  hyperparameters w !! 5 = Some beta2 →
  m_T w !! Z.to_nat param_idx = Some m →
  v_T w !! Z.to_nat param_idx = Some v →
  (0 ≤ iter)%Z →
  b1T !! Z.to_nat iter = Some b1t →
  b2T !! Z.to_nat iter = Some b2t →
  ∃ w', update_hyperparameter epsilon N n b1T b2T iter param_idx w
        = (Returned tt, w') ∧
    adam_post (Z.to_nat param_idx)
      (Spec.adam epsilon lr beta1 beta2 b1t b2t (gradient_value N n T G) theta m v)
      w w' ∧
    (∀ r, r ≠ diag_tiles → mem w' r = mem w r) ∧
    issued w' = issued w ++ map event_of (gradient_instrs N n)
                ++ Event (fn_compute_gradient N n) (all_slots diag_tiles n)
                     (Local "gradient")
                   :: adam_events (Z.to_nat param_idx) false iter.
Proof.
  intros Hidx HgT HgG HT HG Hth Hlr Hb1 Hb2 Hm Hv Hiter H1 H2.
  unfold update_hyperparameter.
  replace ((param_idx =? 0)%Z || (param_idx =? 1)%Z)%bool with true
    by (destruct Hidx as [-> | ->]; reflexivity).
  erewrite bind_returned by reflexivity.
  set (w0 := set_mem diag_tiles (replicate n no_state) w).
  assert (Forall (in_range w0) (gradient_instrs N n)) as Hrange.
  { apply gradient_in_range; [done|done|].
    unfold w0. rewrite set_mem_lookup, decide_True by done.
    apply length_replicate. }
  rewrite <- bind_assoc.
  erewrite bind_returned; cycle 1.
  { rewrite gradient_loops_run. by apply run_instrs_exec. }
  set (w1 := fold_left exec (gradient_instrs N n) w0).
  pose proof HgT as [_ HmaxT].
  assert (mapM get (mem w1 diag_tiles)
          = Some (map (diag_accumulated N n T G) (seq 0 n))) as Hdiag.
  { apply mapM_get_values.
    - unfold w1. rewrite fold_exec_length. unfold w0.
      rewrite set_mem_lookup, decide_True by done. apply length_replicate.
    - intros i f Hi Hf.
      assert (values w1 (diag_tiles, i) = Some (diag_accumulated N n T G i)) as Hval.
      { unfold w1. rewrite values_fold_exec by done.
        apply gradient_values; [done|..].
        - intros a b Ha Hb. unfold values, value. simpl.
          rewrite (proj1 (slot_in_grid a n n b HmaxT Ha Hb)).
          by apply HT.
        - intros a b Ha Hb. unfold values, value. simpl.
          rewrite (proj1 (slot_in_grid a n n b HmaxT Ha Hb)).
          by apply HG. }
      unfold values, value in Hval. simpl in Hval. by rewrite Hf in Hval. }
  erewrite bind_returned by (by apply get_all_ok).
  erewrite bind_returned by reflexivity.
  fold (gradient_value N n T G).
  destruct (adam_step_run epsilon (gradient_value N n T G) (Z.to_nat param_idx)
              false b1T b2T iter
              (log (Event (fn_compute_gradient N n) (all_slots diag_tiles n)
                      (Local "gradient")) w1)
              theta lr beta1 beta2 m v b1t b2t)
    as (w3 & Hrun & (Hm3 & Hv3 & Hh3) & Hmem3 & Hlog3);
    try (simpl; unfold w1;
         rewrite ?fold_exec_hyperparameters, ?fold_exec_m_T, ?fold_exec_v_T; done).
  erewrite bind_returned by exact Hrun.
  eexists. split; [reflexivity|]. split_and!.
  - split_and!; simpl.
    + rewrite Hm3. simpl. unfold w1. by rewrite fold_exec_m_T.
    + rewrite Hv3. simpl. unfold w1. by rewrite fold_exec_v_T.
    + rewrite Hh3. simpl. unfold w1. by rewrite fold_exec_hyperparameters.
  - intros r Hr. simpl. rewrite decide_False by done.
    rewrite Hmem3. simpl. unfold w1.
    rewrite fold_exec_mem_other.
    + unfold w0. rewrite set_mem_lookup. by rewrite decide_False.
    + unfold gradient_instrs. apply Forall_app. split.
      * apply Forall_map'. intros d _. simpl. congruence.
      * apply Forall_flat_map'. intros i _. apply Forall_map'. intros j _.
        simpl. congruence.
  - simpl. rewrite Hlog3. simpl. unfold w1. rewrite fold_exec_issued.
    unfold w0. simpl. rewrite <- !app_assoc. done.
Qed.

Lemma update_noise_variance_run N n b1T b2T iter w (tiles : list tile)
    theta lr beta1 beta2 m v b1t b2t :
  mapM get (mem w ft_tiles) = Some tiles →
  hyperparameters w !! 2 = Some theta →
  hyperparameters w !! learning_rate_idx = Some lr →
  hyperparameters w !! 4 = Some beta1 →
  hyperparameters w !! 5 = Some beta2 →
  m_T w !! 2 = Some m →
  v_T w !! 2 = Some v →
  (0 ≤ iter)%Z →
  b1T !! Z.to_nat iter = Some b1t →
  b2T !! Z.to_nat iter = Some b2t →
  ∃ w', update_noise_variance epsilon N n b1T b2T iter w = (Returned tt, w') ∧
    adam_post 2
      (Spec.adam epsilon lr beta1 beta2 b1t b2t
         (compute_gradient_noise tiles (hyperparameters w) N n) theta m v)
      w w' ∧
    mem w' = mem w.
Proof.
  intros Hts Hth Hlr Hb1 Hb2 Hm Hv Hiter H1 H2.
  unfold update_noise_variance.
  erewrite bind_returned by (by apply get_all_ok).
  erewrite bind_returned by reflexivity.
  erewrite bind_returned by reflexivity.
  destruct (adam_step_run epsilon
              (compute_gradient_noise tiles (hyperparameters w) N n) 2
              true b1T b2T iter
              (log (Event (fn_compute_gradient_noise N n)
                      (all_slots ft_tiles (length (mem w ft_tiles)))
                      (Local "gradient")) w)
              theta lr beta1 beta2 m v b1t b2t)
    as (w3 & Hrun & Hpost & Hmem3 & _); try done.
  exists w3. split; [exact Hrun|]. split; [|done].
  destruct Hpost as (? & ? & ?). split_and!; done.
Qed.

End Updates.

Section UpdateTheorems.

Context {tile : Type} `{Kernels tile}.
Variable epsilon : R.
Implicit Types w : world tile.

(** C4.  For every [param_idx] other than 0 and 1, [update_hyperparameter]
    throws [std::invalid_argument] at once: nothing has been issued, no
    gradient tile exists, and the moment vectors and the hyperparameter
    array are as they were. *)
Theorem invalid_param_idx_rejected (N n : nat) (b1T b2T : list R)
    (iter param_idx : Z) w :
  param_idx ≠ 0%Z → param_idx ≠ 1%Z →
  ∃ w', update_hyperparameter epsilon N n b1T b2T iter param_idx w
        = (Thrown (invalid_argument "Invalid param_idx"), w') ∧
    issued w' = issued w ∧
    mem w' = mem w ∧
    m_T w' = m_T w ∧
    v_T w' = v_T w ∧
    hyperparameters w' = hyperparameters w.
Proof.
  intros H0 H1. exists w. split_and!; try done.
  unfold update_hyperparameter.
  destruct (Z.eqb_spec param_idx 0); [done|].
  destruct (Z.eqb_spec param_idx 1); [done|]. done.
Qed.

(** C6.  Each update step applies the Adam rule: [update_hyperparameter]
    for indices 0 and 1 with the gradient computed from the tiles, and
    [update_noise_variance] for index 2, return with the first moment, the
    second moment and the hyperparameter of that index replaced by the
    results of the rule (unconstrained map, biased moments, bias correction
    with the power accumulators at [iter], step, constrained map). *)
Theorem adam_rule_applied (N n : nat) (b1T b2T : list R) (iter param_idx : Z) w
    (T G : nat → nat → tile) (tiles : list tile)
    (theta lr beta1 beta2 m v theta2 m2 v2 b1t b2t : R) :
  (param_idx = 0 ∨ param_idx = 1)%Z →
  gradient_inputs w n T G →
  mapM get (mem w ft_tiles) = Some tiles →
  optimizer_ready w (Z.to_nat param_idx) theta lr beta1 beta2 m v →
  optimizer_ready w 2 theta2 lr beta1 beta2 m2 v2 →
  accumulators_ready b1T b2T iter b1t b2t →
  (∃ w', update_hyperparameter epsilon N n b1T b2T iter param_idx w
         = (Returned tt, w') ∧
     adam_post (Z.to_nat param_idx)
       (Spec.adam epsilon lr beta1 beta2 b1t b2t (gradient_value N n T G)
          theta m v) w w') ∧
  (∃ w', update_noise_variance epsilon N n b1T b2T iter w = (Returned tt, w') ∧
     adam_post 2
       (Spec.adam epsilon lr beta1 beta2 b1t b2t
          (compute_gradient_noise tiles (hyperparameters w) N n) theta2 m2 v2)
       w w').
Proof.
  intros Hidx (HgT & HgG & HT & HG) Hts (Hth & Hlr & Hb1 & Hb2 & Hm & Hv)
    (Hth2 & _ & _ & _ & Hm2 & Hv2) (Hiter & H1 & H2).
  split.
  - destruct (update_hyperparameter_run epsilon N n b1T b2T iter param_idx w
                T G theta lr beta1 beta2 m v b1t b2t)
      as (w' & Hrun & Hpost & _); try done.
    by exists w'.
  - destruct (update_noise_variance_run epsilon N n b1T b2T iter w tiles
                theta2 lr beta1 beta2 m2 v2 b1t b2t)
      as (w' & Hrun & Hpost & _); try done.
    by exists w'.
Qed.

End UpdateTheorems.

(** ** Independence of the parameters, and accumulation *)

Section Commutation.

Context {tile : Type} `{Kernels tile}.
Variable epsilon : R.
Implicit Types w : world tile.

Lemma gradient_inputs_mem w w' n (T G : nat → nat → tile) :
  mem w' ft_tiles = mem w ft_tiles → mem w' ft_rhs = mem w ft_rhs →
  gradient_inputs w n T G → gradient_inputs w' n T G.
Proof.
  intros HT HG (? & ? & ? & ?). unfold gradient_inputs, value.
  rewrite HT, HG. done.
Qed.

Lemma optimizer_ready_other w w' idx idx' r theta lr beta1 beta2 m v :
  idx' ≠ idx → idx' < 3 →
  adam_post idx' r w w' →
  optimizer_ready w idx theta lr beta1 beta2 m v →
  optimizer_ready w' idx theta lr beta1 beta2 m v.
Proof.
  intros Hne Hlt (Hm & Hv & Hh) (? & ? & ? & ? & ? & ?).
  unfold optimizer_ready, learning_rate_idx. rewrite Hm, Hv, Hh.
  rewrite !list_lookup_insert_ne by lia. done.
Qed.

Lemma update_hyperparameter_ok N n b1T b2T iter param_idx w
    (T G : nat → nat → tile) theta lr beta1 beta2 m v b1t b2t :
  (param_idx = 0 ∨ param_idx = 1)%Z →
  gradient_inputs w n T G →
  optimizer_ready w (Z.to_nat param_idx) theta lr beta1 beta2 m v →
  accumulators_ready b1T b2T iter b1t b2t →
  ∃ w', update_hyperparameter epsilon N n b1T b2T iter param_idx w
        = (Returned tt, w') ∧
    adam_post (Z.to_nat param_idx)
      (Spec.adam epsilon lr beta1 beta2 b1t b2t (gradient_value N n T G) theta m v)
      w w' ∧
    (∀ r, r ≠ diag_tiles → mem w' r = mem w r).
Proof.
  intros Hidx (HgT & HgG & HT & HG) (Hth & Hlr & Hb1 & Hb2 & Hm & Hv)
    (Hiter & H1 & H2).
  destruct (update_hyperparameter_run epsilon N n b1T b2T iter param_idx w
              T G theta lr beta1 beta2 m v b1t b2t)
    as (w' & Hrun & Hpost & Hmem & _); try done.
  by exists w'.
Qed.

Lemma adam_post_set_mem r l r' l' idx res w w' :
  adam_post idx res (set_mem r l (set_mem r' l' w)) w' → adam_post idx res w w'.
Proof. done. Qed.

Lemma updates_commute (tilesA rhsA tilesB rhsB : list (future tile))
    (NA nA NB nB : nat) (b1T b2T : list R) (iterA iterB : Z) w
    (TA GA TB GB : nat → nat → tile)
    (theta0 theta1 lr beta1 beta2 m0 v0 m1 v1 b1tA b2tA b1tB b2tB : R) :
  gradient_inputs (set_mem ft_rhs rhsA (set_mem ft_tiles tilesA w)) nA TA GA →
  gradient_inputs (set_mem ft_rhs rhsB (set_mem ft_tiles tilesB w)) nB TB GB →
  optimizer_ready w 0 theta0 lr beta1 beta2 m0 v0 →
  optimizer_ready w 1 theta1 lr beta1 beta2 m1 v1 →
  accumulators_ready b1T b2T iterA b1tA b2tA →
  accumulators_ready b1T b2T iterB b1tB b2tB →
  ∃ wa wab wb wba,
    call_update_hyperparameter epsilon tilesA rhsA NA nA b1T b2T iterA 0 w
      = (Returned tt, wa) ∧
    call_update_hyperparameter epsilon tilesB rhsB NB nB b1T b2T iterB 1 wa
      = (Returned tt, wab) ∧
    call_update_hyperparameter epsilon tilesB rhsB NB nB b1T b2T iterB 1 w
      = (Returned tt, wb) ∧
    call_update_hyperparameter epsilon tilesA rhsA NA nA b1T b2T iterA 0 wb
      = (Returned tt, wba) ∧
    hyperparameters wab = hyperparameters wba ∧
    m_T wab = m_T wba ∧
    v_T wab = v_T wba.
Proof.
  intros HgA HgB Hr0 Hr1 HaA HaB. unfold call_update_hyperparameter.
  set (rA := Spec.adam epsilon lr beta1 beta2 b1tA b2tA
               (gradient_value NA nA TA GA) theta0 m0 v0).
  set (rB := Spec.adam epsilon lr beta1 beta2 b1tB b2tB
               (gradient_value NB nB TB GB) theta1 m1 v1).
  destruct (update_hyperparameter_ok NA nA b1T b2T iterA 0
              (set_mem ft_rhs rhsA (set_mem ft_tiles tilesA w))
              TA GA theta0 lr beta1 beta2 m0 v0 b1tA b2tA)
    as (wa & Hwa & Hpa%adam_post_set_mem & _); [by left|done..|].
  destruct (update_hyperparameter_ok NB nB b1T b2T iterB 1
              (set_mem ft_rhs rhsB (set_mem ft_tiles tilesB wa))
              TB GB theta1 lr beta1 beta2 m1 v1 b1tB b2tB)
    as (wab & Hwab & Hpab%adam_post_set_mem & _); [by right| | |done|].
  { eapply gradient_inputs_mem; [| |exact HgB]; done. }
  { apply (optimizer_ready_other w wa 1 0 rA); [lia|lia|done|done]. }
  destruct (update_hyperparameter_ok NB nB b1T b2T iterB 1
              (set_mem ft_rhs rhsB (set_mem ft_tiles tilesB w))
              TB GB theta1 lr beta1 beta2 m1 v1 b1tB b2tB)
    as (wb & Hwb & Hpb%adam_post_set_mem & _); [by right|done..|].
  destruct (update_hyperparameter_ok NA nA b1T b2T iterA 0
              (set_mem ft_rhs rhsA (set_mem ft_tiles tilesA wb))
              TA GA theta0 lr beta1 beta2 m0 v0 b1tA b2tA)
    as (wba & Hwba & Hpba%adam_post_set_mem & _); [by left| | |done|].
  { eapply gradient_inputs_mem; [| |exact HgA]; done. }
  { apply (optimizer_ready_other w wb 0 1 rB); [lia|lia|done|done]. }
  exists wa, wab, wb, wba. split_and!; try done.
  - destruct Hpa as (_ & _ & Ha), Hpab as (_ & _ & Hab),
      Hpb as (_ & _ & Hb), Hpba as (_ & _ & Hba).
    rewrite Hab, Ha, Hba, Hb. simpl. by rewrite list_insert_insert_ne.
  - destruct Hpa as (Ha & _ & _), Hpab as (Hab & _ & _),
      Hpb as (Hb & _ & _), Hpba as (Hba & _ & _).
    rewrite Hab, Ha, Hba, Hb. simpl. by rewrite list_insert_insert_ne.
  - destruct Hpa as (_ & Ha & _), Hpab as (_ & Hab & _),
      Hpb as (_ & Hb & _), Hpba as (_ & Hba & _).
    rewrite Hab, Ha, Hba, Hb. simpl. by rewrite list_insert_insert_ne.
Qed.

End Commutation.

(** *** A concrete optimizer state *)

Lemma demo_gradient_inputs :
  gradient_inputs Scalar.demo_grad 2 Scalar.demo_A Scalar.demo_G.
Proof.
  split_and!.
  - split; [reflexivity|]. by vm_compute.
  - split; [reflexivity|]. by vm_compute.
  - intros i j Hi Hj. below_two i; below_two j; reflexivity.
  - intros i j Hi Hj. below_two i; below_two j; reflexivity.
Qed.

Lemma demo_accumulators :
  accumulators_ready Scalar.demo_beta_T Scalar.demo_beta_T 0 (/ 2) (/ 2).
Proof. split_and!; [lia|reflexivity|reflexivity]. Qed.

Lemma demo_optimizer_ready idx :
  idx < 3 → optimizer_ready Scalar.demo_grad idx 1 1 (/ 2) (/ 2) 0 0.
Proof.
  intros Hidx. destruct idx as [|[|[|idx]]]; [| | |lia];
    split_and!; reflexivity.
Qed.

Lemma demo_gradient_value :
  gradient_value 1 2 Scalar.demo_A Scalar.demo_G = 6%R.
Proof.
  unfold gradient_value, diag_accumulated, Scalar.demo_A, Scalar.demo_G.
  simpl. lra.
Qed.

(** Two applications of the update of parameter 0 with the same gradient,
    from the concrete state: the second changes the hyperparameter and the
    first moment again. *)
Lemma adam_not_idempotent :
  ∃ w1 w2 : world R,
    update_hyperparameter 1 1 2 Scalar.demo_beta_T Scalar.demo_beta_T 0 0
      Scalar.demo_grad = (Returned tt, w1) ∧
    update_hyperparameter 1 1 2 Scalar.demo_beta_T Scalar.demo_beta_T 0 0 w1
      = (Returned tt, w2) ∧
    hyperparameters w2 !! 0 ≠ hyperparameters w1 !! 0 ∧
    m_T w2 !! 0 ≠ m_T w1 !! 0.
Proof.
  destruct (update_hyperparameter_ok 1 1 2 Scalar.demo_beta_T Scalar.demo_beta_T
              0 0 Scalar.demo_grad Scalar.demo_A Scalar.demo_G
              1 1 (/ 2) (/ 2) 0 0 (/ 2) (/ 2))%R
    as (w1 & Hrun1 & (Hm1 & Hv1 & Hh1) & Hmem1);
    [by left|apply demo_gradient_inputs|apply (demo_optimizer_ready 0); lia
    |apply demo_accumulators|].
  rewrite demo_gradient_value in Hm1, Hv1, Hh1.
  simpl in Hm1, Hv1, Hh1.
  set (u1 := (ln 1 - 1 * ((/ 2 * 0 + (1 - / 2) * 6) / (1 - / 2))
                     / (sqrt ((/ 2 * 0 + (1 - / 2) * (6 * 6)) / (1 - / 2)) + 1))%R)
    in *.
  set (m1 := (/ 2 * 0 + (1 - / 2) * 6)%R) in *.
  set (v1 := (/ 2 * 0 + (1 - / 2) * (6 * 6))%R) in *.
  destruct (update_hyperparameter_ok 1 1 2 Scalar.demo_beta_T Scalar.demo_beta_T
              0 0 w1 Scalar.demo_A Scalar.demo_G
              (exp u1) 1 (/ 2) (/ 2) m1 v1 (/ 2) (/ 2))%R
    as (w2 & Hrun2 & (Hm2 & Hv2 & Hh2) & Hmem2);
    [by left| | |apply demo_accumulators|].
  { eapply gradient_inputs_mem; [| |apply demo_gradient_inputs];
      by apply Hmem1. }
  { unfold optimizer_ready. rewrite Hm1, Hv1, Hh1. split_and!; reflexivity. }
  rewrite demo_gradient_value in Hm2, Hv2, Hh2.
  simpl in Hm2, Hv2, Hh2.
  exists w1, w2. split_and!; [exact Hrun1|exact Hrun2| |].
  - rewrite Hh2, Hh1. simpl. intros [= Heq].
    rewrite ln_exp in Heq. apply exp_inv in Heq.
    set (d := (sqrt ((/ 2 * v1 + (1 - / 2) * (6 * 6)) / (1 - / 2)) + 1)%R) in *.
    assert (0 < d)%R as Hd.
    { unfold d. pose proof (sqrt_pos ((/ 2 * v1 + (1 - / 2) * (6 * 6)) / (1 - / 2))).
      lra. }
    assert (0 < 1 * ((/ 2 * m1 + (1 - / 2) * 6) / (1 - / 2)) / d)%R as Hstep.
    { apply Rdiv_lt_0_compat; [|done]. unfold m1. lra. }
    lra.
  - rewrite Hm2, Hm1. simpl. intros [= Heq]. unfold m1 in Heq. lra.
Qed.

(** C8.  Updates of the two distinct indices 0 and 1 commute: issued in
    either order, each with its own gradient tiles and iteration, they
    return with the same hyperparameter array and the same moment vectors,
    an update of index [i] replacing only entry [i] of each.  The update is
    not idempotent: from a concrete state, a second application with the
    same gradient changes the hyperparameter and the first moment again. *)
Theorem adam_updates_commute_not_idempotent {tile : Type} `{Kernels tile}
    (epsilon : R) (tilesA rhsA tilesB rhsB : list (future tile))
    (NA nA NB nB : nat) (b1T b2T : list R) (iterA iterB : Z) (w : world tile)
    (TA GA TB GB : nat → nat → tile)
    (theta0 theta1 lr beta1 beta2 m0 v0 m1 v1 b1tA b2tA b1tB b2tB : R) :
  gradient_inputs (set_mem ft_rhs rhsA (set_mem ft_tiles tilesA w)) nA TA GA →
  gradient_inputs (set_mem ft_rhs rhsB (set_mem ft_tiles tilesB w)) nB TB GB →
  optimizer_ready w 0 theta0 lr beta1 beta2 m0 v0 →
  optimizer_ready w 1 theta1 lr beta1 beta2 m1 v1 →
  accumulators_ready b1T b2T iterA b1tA b2tA →
  accumulators_ready b1T b2T iterB b1tB b2tB →
  (∃ wa wab wb wba,
     call_update_hyperparameter epsilon tilesA rhsA NA nA b1T b2T iterA 0 w
       = (Returned tt, wa) ∧
     call_update_hyperparameter epsilon tilesB rhsB NB nB b1T b2T iterB 1 wa
       = (Returned tt, wab) ∧
     call_update_hyperparameter epsilon tilesB rhsB NB nB b1T b2T iterB 1 w
       = (Returned tt, wb) ∧
     call_update_hyperparameter epsilon tilesA rhsA NA nA b1T b2T iterA 0 wb
       = (Returned tt, wba) ∧
     hyperparameters wab = hyperparameters wba ∧
     m_T wab = m_T wba ∧
     v_T wab = v_T wba) ∧
  (∃ w1 w2 : world R,
     update_hyperparameter 1 1 2 Scalar.demo_beta_T Scalar.demo_beta_T 0 0
       Scalar.demo_grad = (Returned tt, w1) ∧
     update_hyperparameter 1 1 2 Scalar.demo_beta_T Scalar.demo_beta_T 0 0 w1
       = (Returned tt, w2) ∧
     hyperparameters w2 !! 0 ≠ hyperparameters w1 !! 0 ∧
     m_T w2 !! 0 ≠ m_T w1 !! 0).
Proof.
  intros HgA HgB Hr0 Hr1 HaA HaB. split.
  - by eapply updates_commute.
  - apply adam_not_idempotent.
Qed.

Lemma invalid_param_idx_rejected_witness :
  ∃ w', update_hyperparameter 1 1 2 Scalar.demo_beta_T Scalar.demo_beta_T 0 3
          Scalar.demo_grad
        = (Thrown (invalid_argument "Invalid param_idx"), w') ∧
    issued w' = issued Scalar.demo_grad ∧
    hyperparameters w' = hyperparameters Scalar.demo_grad.
Proof.
  destruct (invalid_param_idx_rejected 1 1 2 Scalar.demo_beta_T
              Scalar.demo_beta_T 0 3 Scalar.demo_grad)
    as (w' & Hrun & Hlog & _ & _ & _ & Hh); [lia|lia|].
  exists w'. split_and!; [exact Hrun|exact Hlog|exact Hh].
Defined.

Lemma adam_rule_applied_witness :
  ∃ w', update_hyperparameter 1 1 2 Scalar.demo_beta_T Scalar.demo_beta_T 0 1
          Scalar.demo_grad = (Returned tt, w') ∧
    adam_post 1
      (Spec.adam 1 1 (/ 2) (/ 2) (/ 2) (/ 2)
         (gradient_value 1 2 Scalar.demo_A Scalar.demo_G) 1 0 0)
      Scalar.demo_grad w'.
Proof.
  refine (proj1 (adam_rule_applied 1 1 2 Scalar.demo_beta_T Scalar.demo_beta_T
                   0 1 Scalar.demo_grad Scalar.demo_A Scalar.demo_G
                   [1; 0; 2; 5]%R 1 1 (/ 2) (/ 2) 0 0 1 0 0 (/ 2) (/ 2)
                   _ _ _ _ _ _))%R.
  - by right.
  - apply demo_gradient_inputs.
  - reflexivity.
  - apply (demo_optimizer_ready 1). lia.
  - apply (demo_optimizer_ready 2). lia.
  - apply demo_accumulators.
Defined.

Lemma adam_updates_commute_not_idempotent_witness :
  ∃ wab wba : world R,
    hyperparameters wab = hyperparameters wba ∧ m_T wab = m_T wba.
Proof.
  destruct (proj1 (adam_updates_commute_not_idempotent 1
                     (mem Scalar.demo_grad ft_tiles) (mem Scalar.demo_grad ft_rhs)
                     (mem Scalar.demo_grad ft_tiles) (mem Scalar.demo_grad ft_rhs)
                     1 2 1 2 Scalar.demo_beta_T Scalar.demo_beta_T 0 0
                     Scalar.demo_grad
                     Scalar.demo_A Scalar.demo_G Scalar.demo_A Scalar.demo_G
                     1 1 1 (/ 2) (/ 2) 0 0 0 0 (/ 2) (/ 2) (/ 2) (/ 2)
                     demo_gradient_inputs demo_gradient_inputs
                     (demo_optimizer_ready 0 ltac:(lia))
                     (demo_optimizer_ready 1 ltac:(lia))
                     demo_accumulators demo_accumulators))%R
    as (wa & wab & wb & wba & _ & _ & _ & _ & Hh & Hm & _).
  exists wab, wba. split; [exact Hh|exact Hm].
Defined.

(** * The routines on matrices of tiles *)

Module TiledFacts.

Import Tiled.
Local Open Scope tiled_scope.

(** ** The monad, the loops and the instructions *)

Section TiledMachine.

Context {tile : Type}.
Implicit Types w : world tile.

Lemma tiled_bind_ext {A B} (c : @M tile A) (k1 k2 : A → @M tile B) w :
  (∀ a w', k1 a w' = k2 a w') → bind c k1 w = bind c k2 w.
Proof.
  intros Hk. unfold bind. destruct (c w) as [[a|e] w']; [apply Hk|done].
Qed.

Lemma tiled_bind_assoc {A B C} (c : @M tile A) (k1 : A → @M tile B)
    (k2 : B → @M tile C) w :
  bind (bind c k1) k2 w = bind c (fun a => bind (k1 a) k2) w.
Proof.
  unfold bind. destruct (c w) as [[a|e] w']; done.
Qed.

Lemma tiled_bind_returned {A B} (c : @M tile A) (k : A → @M tile B) w a w' :
  c w = (Returned a, w') → bind c k w = k a w'.
Proof. intros Hc. unfold bind. by rewrite Hc. Qed.

Lemma tiled_bind_thrown {A B} (c : @M tile A) (k : A → @M tile B) w e w' :
  c w = (Thrown e, w') → bind c k w = (Thrown e, w').
Proof. intros Hc. unfold bind. by rewrite Hc. Qed.

Lemma tiled_bind_cong {A B} (c1 c2 : @M tile A) (k1 k2 : A → @M tile B) w :
  c1 w = c2 w → (∀ a w', k1 a w' = k2 a w') → bind c1 k1 w = bind c2 k2 w.
Proof.
  intros Hc Hk. unfold bind. rewrite Hc.
  destruct (c2 w) as [[a|e] w']; [apply Hk|done].
Qed.

Lemma tiled_for_each_ext {A} (l : list A) (b1 b2 : A → @M tile unit) w :
  (∀ x w', b1 x w' = b2 x w') → for_each l b1 w = for_each l b2 w.
Proof.
  intros Hb. revert w. induction l as [|x l IH]; intros w; [done|].
  simpl. unfold bind. rewrite Hb.
  destruct (b2 x w) as [[[]|e] w']; [apply IH|done].
Qed.

Lemma tiled_for_each_app {A} (l1 l2 : list A) (body : A → @M tile unit) w :
  for_each (l1 ++ l2) body w = (for_each l1 body;; for_each l2 body) w.
Proof.
  revert w. induction l1 as [|x l1 IH]; intros w; simpl.
  - done.
  - rewrite tiled_bind_assoc. apply tiled_bind_ext. intros _ w'. apply IH.
Qed.

Lemma tiled_for_each_map {A B} (g : A → B) (l : list A)
    (body : B → @M tile unit) w :
  for_each (map g l) body w = for_each l (fun x => body (g x)) w.
Proof.
  revert w. induction l as [|x l IH]; intros w; simpl; [done|].
  apply tiled_bind_ext. intros _ w'. apply IH.
Qed.

Lemma tiled_for_each_flat_map {A B} (g : A → list B) (l : list A)
    (body : B → @M tile unit) w :
  for_each (flat_map g l) body w = for_each l (fun x => for_each (g x) body) w.
Proof.
  revert w. induction l as [|x l IH]; intros w; simpl; [done|].
  rewrite tiled_for_each_app. apply tiled_bind_ext. intros _ w'. apply IH.
Qed.

(** *** One instruction *)

Lemma tiled_set_mem_lookup r l w r' :
  mem (set_mem r l w) r' = if decide (r' = r) then l else mem w r'.
Proof. done. Qed.

Lemma tiled_exec_length w i r : length (mem (exec w i) r) = length (mem w r).
Proof.
  unfold exec. rewrite tiled_set_mem_lookup. case_decide as Hr; [|done].
  subst r. by rewrite length_insert.
Qed.

Lemma tiled_exec_mem_other w i r :
  r ≠ fst (i_dst i) → mem (exec w i) r = mem w r.
Proof.
  intros Hr. unfold exec. rewrite tiled_set_mem_lookup. by case_decide.
Qed.

Lemma tiled_exec_lookup_other w i r k :
  (r, k) ≠ i_dst i → mem (exec w i) r !! k = mem w r !! k.
Proof.
  intros Hne. unfold exec. rewrite tiled_set_mem_lookup.
  case_decide as Hr; [|done].
  subst r. apply list_lookup_insert_ne. intros Hk. apply Hne.
  rewrite <- Hk. by destruct (i_dst i).
Qed.

Lemma token_exec_other w i s : s ≠ i_dst i → token_at (exec w i) s = token_at w s.
Proof.
  intros Hne. unfold token_at. destruct s as [r k]. cbn [fst snd].
  by rewrite tiled_exec_lookup_other.
Qed.

Lemma token_exec_dst w i :
  snd (i_dst i) < length (mem w (fst (i_dst i))) →
  token_at (exec w i) (i_dst i)
  = dataflow (i_fn i) (map (token_at w) (i_srcs i)).
Proof.
  intros Hd. unfold token_at, exec. rewrite tiled_set_mem_lookup.
  rewrite decide_True by done. by rewrite list_lookup_insert_eq.
Qed.

Lemma tiled_read_all_in_range (srcs : list (ref * nat)) w :
  Forall (fun s => snd s < length (mem w (fst s))) srcs →
  read_all srcs w = (Returned (map (token_at w) srcs), w).
Proof.
  induction 1 as [|[r k] srcs Hlt _ IH]; [done|].
  simpl in *. unfold bind, vec_read at 1.
  destruct (lookup_lt_is_Some_2 _ _ Hlt) as [f Hf].
  rewrite Hf, IH. unfold ret, token_at. simpl. by rewrite Hf.
Qed.

Lemma tiled_read_all_out_of_range (srcs : list (ref * nat)) w :
  ¬ Forall (fun s => snd s < length (mem w (fst s))) srcs →
  read_all srcs w = (Thrown undefined_behaviour, w).
Proof.
  induction srcs as [|[r k] srcs IH]; intros Hno.
  - exfalso. apply Hno. constructor.
  - simpl. unfold bind, vec_read at 1.
    destruct (mem w r !! k) as [f|] eqn:Hf; [|done].
    rewrite IH; [done|].
    intros Hall. apply Hno. constructor; [|done].
    simpl. by eapply lookup_lt_Some.
Qed.

Lemma tiled_run_instr_exec (i : instr) w :
  in_range w i → run_instr i w = (Returned tt, exec w i).
Proof.
  intros [Hd Hs]. unfold run_instr, assign_dataflow.
  erewrite tiled_bind_returned by (by apply tiled_read_all_in_range).
  unfold bind, issue, vec_write. simpl.
  by rewrite decide_True.
Qed.

(** An instruction that names a slot beyond the end of its vector is
    undefined. *)
Lemma tiled_run_instr_out_of_range (i : instr) w :
  ¬ in_range w i → fst (run_instr i w) = Thrown undefined_behaviour.
Proof.
  intros Hno. unfold run_instr, assign_dataflow.
  destruct (decide (Forall (fun s => snd s < length (mem w (fst s))) (i_srcs i)))
    as [Hs|Hs].
  - erewrite tiled_bind_returned by (by apply tiled_read_all_in_range).
    unfold bind, issue, vec_write. simpl.
    rewrite decide_False; [done|].
    intros Hd. apply Hno. by split.
  - erewrite tiled_bind_thrown by (by apply tiled_read_all_out_of_range). done.
Qed.

(** *** A list of instructions *)

Lemma tiled_in_range_same_shape w w' i :
  same_shape w w' → in_range w i → in_range w' i.
Proof.
  intros Hs [Hd Hr]. split.
  - by rewrite Hs.
  - eapply Forall_impl; [done|]. intros s ?. simpl. by rewrite Hs.
Qed.

Lemma tiled_fold_exec_length (l : list instr) w r :
  length (mem (fold_left exec l w) r) = length (mem w r).
Proof.
  revert w. induction l as [|i l IH]; intros w; simpl; [done|].
  by rewrite IH, tiled_exec_length.
Qed.

Lemma tiled_fold_exec_issued (l : list instr) w :
  issued (fold_left exec l w) = issued w ++ map event_of l.
Proof.
  revert w. induction l as [|i l IH]; intros w; simpl.
  - by rewrite app_nil_r.
  - rewrite IH. simpl. by rewrite <- app_assoc.
Qed.

Lemma tiled_fold_exec_mem_other (l : list instr) w r :
  Forall (fun i => fst (i_dst i) ≠ r) l → mem (fold_left exec l w) r = mem w r.
Proof.
  intros Hl. revert w. induction Hl as [|i l Hi _ IH]; intros w; simpl; [done|].
  rewrite IH. by apply tiled_exec_mem_other.
Qed.

Lemma token_fold_other (l : list instr) w s :
  Forall (fun i => i_dst i ≠ s) l → token_at (fold_left exec l w) s = token_at w s.
Proof.
  intros Hl. revert w. induction Hl as [|i l Hi _ IH]; intros w; simpl; [done|].
  rewrite IH. by apply token_exec_other.
Qed.

Lemma tiled_run_instrs_exec (l : list instr) w :
  Forall (in_range w) l →
  for_each l run_instr w = (Returned tt, fold_left exec l w).
Proof.
  revert w. induction l as [|i l IH]; intros w Hl; simpl; [done|].
  apply Forall_cons in Hl as [Hi Hl].
  erewrite tiled_bind_returned by (by apply tiled_run_instr_exec).
  apply IH. eapply Forall_impl; [done|].
  intros i'. apply tiled_in_range_same_shape. intros r. apply tiled_exec_length.
Qed.

Lemma in_range_decidable w i : in_range w i ∨ ¬ in_range w i.
Proof.
  unfold in_range.
  destruct (decide (snd (i_dst i) < length (mem w (fst (i_dst i))))) as [Hd|Hd];
    [|right; tauto].
  destruct (decide (Forall (fun s => snd s < length (mem w (fst s))) (i_srcs i)))
    as [Hs|Hs]; [left|right]; tauto.
Qed.

(** A list of instructions with one that is out of range runs into
    undefined behaviour, whatever comes before it. *)
Lemma tiled_run_instrs_out_of_range (l : list instr) w :
  ¬ Forall (in_range w) l →
  fst (for_each l run_instr w) = Thrown undefined_behaviour.
Proof.
  revert w. induction l as [|i l IH]; intros w Hno.
  - exfalso. apply Hno. constructor.
  - simpl. destruct (in_range_decidable w i) as [Hi|Hi].
    + erewrite tiled_bind_returned by (by apply tiled_run_instr_exec).
      apply IH. intros Hall. apply Hno. constructor; [done|].
      eapply Forall_impl; [done|].
      intros i'. apply tiled_in_range_same_shape. intros r.
      symmetry. apply tiled_exec_length.
    + pose proof (tiled_run_instr_out_of_range i w Hi) as Hub.
      unfold bind. destruct (run_instr i w) as [[[]|e] w']; simpl in *; congruence.
Qed.

End TiledMachine.

(** ** Invocations that only read futures of before the call *)

Section TokensParallel.

Context {tile : Type}.
Implicit Types w : world tile.

(** When the instructions of a list write distinct slots and none reads a
    slot another one writes, every one of them is given the futures the
    slots held before the first ran. *)
Lemma tokens_parallel (l : list instr) w :
  NoDup (map i_dst l) →
  (∀ i j, In i l → In j l → In (i_dst j) (i_srcs i) → i_dst i = i_dst j) →
  (∀ i, In i l → snd (i_dst i) < length (mem w (fst (i_dst i)))) →
  ∀ i, In i l →
    token_at (fold_left exec l w) (i_dst i)
    = dataflow (i_fn i) (map (token_at w) (i_srcs i)).
Proof.
  revert w. induction l as [|i0 l IH]; intros w Hnd Hown Hrange i Hi; [done|].
  simpl in Hnd. apply NoDup_cons in Hnd as [Hi0 Hnd]. simpl.
  assert (∀ j, In j l → i_dst j ≠ i_dst i0) as Hfresh.
  { intros j Hj Heq. apply Hi0. rewrite <- Heq.
    apply list_elem_of_In, in_map, Hj. }
  destruct Hi as [<-|Hi].
  - rewrite token_fold_other.
    + apply token_exec_dst, Hrange. by left.
    + apply Forall_forall. intros j Hj. apply Hfresh. by apply list_elem_of_In.
  - rewrite IH; try done.
    + f_equal. apply map_ext_in. intros s Hs. apply token_exec_other.
      intros ->. apply (Hfresh i Hi). apply Hown; [by right|by left|done].
    + intros a b Ha Hb. apply Hown; by right.
    + intros j Hj. rewrite tiled_exec_length. apply Hrange. by right.
Qed.

End TokensParallel.

(** ** Triangular sweeps *)

Section Sweep.

Context {tile : Type}.
Implicit Types w : world tile.

Variables (f g : kernel) (dg : nat → ref * nat) (off : nat → nat → ref * nat).
Variable x : nat → ref * nat.
Hypothesis Hdg : ∀ k k', dg k ≠ x k'.
Hypothesis Hoff : ∀ t k k', off t k ≠ x k'.

Lemma sweep_dsts (order : list nat) :
  Forall (fun i => ∃ k, In k order ∧ i_dst i = x k) (sweep f g dg off x order).
Proof.
  induction order as [|k rest IH]; simpl; [constructor|].
  constructor; [exists k; split; [by left|done]|].
  apply Forall_app. split.
  - apply Forall_map'. intros t Ht. exists t. split; [by right|done].
  - eapply Forall_impl; [exact IH|].
    intros i (t & Ht & Hi). exists t. split; [by right|done].
Qed.

Lemma sweep_other (order : list nat) w s :
  (∀ k, In k order → s ≠ x k) →
  token_at (fold_left exec (sweep f g dg off x order) w) s = token_at w s.
Proof.
  intros Hs. apply token_fold_other.
  eapply Forall_impl; [apply sweep_dsts|].
  intros i (k & Hk & Hi) Heq. apply (Hs k Hk). congruence.
Qed.

Lemma solved_ext (D : future tile) (O O' X X' : nat → future tile)
    (pre : list nat) (b : future tile) :
  (∀ p, In p pre → O p = O' p ∧ X p = X' p) →
  solved f g D O X pre b = solved f g D O' X' pre b.
Proof.
  intros Hext. unfold solved. do 3 f_equal.
  apply fold_left_ext_in. intros acc p Hp.
  destruct (Hext p Hp) as [-> ->]. done.
Qed.

(** The updates that follow the solve of position [k0]. *)
Lemma sweep_updates (k0 : nat) (rest : list nat) w t :
  NoDup (k0 :: rest) →
  (∀ k k', In k (k0 :: rest) → In k' (k0 :: rest) → x k = x k' → k = k') →
  (∀ k, In k rest → snd (x k) < length (mem w (fst (x k)))) →
  In t rest →
  token_at (fold_left exec
              (map (fun t => update_instr g (off t k0) (x k0) (x t)) rest) w)
    (x t)
  = dataflow g [token_at w (off t k0); token_at w (x k0); token_at w (x t)].
Proof.
  intros Hnd Hinj Hrange Ht.
  apply NoDup_cons in Hnd as [Hk0 Hnd].
  change (x t) with (i_dst (update_instr g (off t k0) (x k0) (x t))) at 1.
  rewrite tokens_parallel; [done|..].
  - rewrite map_map. simpl. apply NoDup_fmap_2_strong; [|done].
    intros a b Ha Hb Hab. apply list_elem_of_In in Ha, Hb.
    apply Hinj; [by right|by right|done].
  - intros i j Hi Hj Hin.
    apply in_map_iff in Hi as (a & <- & Ha).
    apply in_map_iff in Hj as (b & <- & Hb).
    simpl in *. destruct Hin as [Hin|[Hin|[Hin|[]]]].
    + by apply Hoff in Hin.
    + exfalso. apply Hk0. apply list_elem_of_In.
      rewrite (Hinj k0 b); [done|by left|by right|done].
    + done.
  - intros i Hi. apply in_map_iff in Hi as (a & <- & Ha). simpl. by apply Hrange.
  - apply in_map_iff. by exists t.
Qed.

(** What a sweep leaves at each of its positions. *)
Lemma sweep_tokens (order : list nat) w :
  NoDup order →
  (∀ k k', In k order → In k' order → x k = x k' → k = k') →
  (∀ k, In k order → snd (x k) < length (mem w (fst (x k)))) →
  ∀ pre k post, order = pre ++ k :: post →
    token_at (fold_left exec (sweep f g dg off x order) w) (x k)
    = solved f g (token_at w (dg k)) (fun p => token_at w (off k p))
        (fun p => token_at (fold_left exec (sweep f g dg off x order) w) (x p))
        pre (token_at w (x k)).
Proof.
  revert w. induction order as [|k0 rest IH]; intros w Hnd Hinj Hrange pre k post Heq.
  { by destruct pre. }
  simpl. rewrite fold_left_app.
  set (i0 := solve_instr f (dg k0) (x k0)).
  set (w1 := exec w i0).
  set (ups := map (fun t => update_instr g (off t k0) (x k0) (x t)) rest).
  set (w2 := fold_left exec ups w1).
  set (w' := fold_left exec (sweep f g dg off x rest) w2).
  pose proof Hnd as Hnd'. apply NoDup_cons in Hnd' as [Hk0 Hrest].
  assert (∀ t, In t rest → x k0 ≠ x t) as Hk0x.
  { intros t Ht Hxt. apply Hk0. apply list_elem_of_In.
    rewrite (Hinj k0 t); [done|by left|by right|done]. }
  assert (token_at w1 (x k0)
          = dataflow f [token_at w (dg k0); token_at w (x k0)]) as Hs0.
  { unfold w1. change (x k0) with (i_dst i0) at 1.
    rewrite token_exec_dst; [done|]. simpl. apply Hrange. by left. }
  assert (token_at w2 (x k0) = token_at w1 (x k0)) as Hw2k0.
  { unfold w2, ups. apply token_fold_other. apply Forall_map'.
    intros t Ht. simpl. intros Heq'. by apply (Hk0x t). }
  assert (token_at w' (x k0) = token_at w2 (x k0)) as Hw'k0.
  { unfold w'. apply sweep_other. intros t Ht. by apply Hk0x. }
  assert (∀ s, (∀ t, s ≠ x t) → token_at w2 s = token_at w s) as Hframe.
  { intros s Hs. unfold w2, ups. rewrite token_fold_other.
    - unfold w1. apply token_exec_other. simpl. apply Hs.
    - apply Forall_map'. intros t _. simpl. intros Heq'. by apply (Hs t). }
  destruct pre as [|p0 pre'].
  - injection Heq as <- <-. fold w'.
    rewrite Hw'k0, Hw2k0, Hs0. done.
  - injection Heq as <- Heq. fold w'.
    assert (In k rest) as Hk.
    { rewrite Heq. apply in_app_iff. right. by left. }
    unfold w'. rewrite (IH w2 Hrest) with (pre := pre') (post := post); try done.
    + fold w'. unfold solved. simpl.
      rewrite Hw'k0, Hw2k0, Hs0.
      rewrite (Hframe (dg k)) by (intros t; apply Hdg).
      f_equal. f_equal.
      assert (token_at w2 (x k)
              = dataflow g [token_at w (off k k0); token_at w1 (x k0);
                            token_at w (x k)]) as Hup.
      { unfold w2, ups. rewrite (sweep_updates k0 rest w1 k); try done.
        - unfold w1 at 1 3. rewrite !token_exec_other; [done|..].
          + simpl. intros Hx. by apply (Hk0x k).
          + simpl. apply Hoff.
        - intros t Ht. unfold w1. rewrite tiled_exec_length.
          apply Hrange. by right. }
      rewrite Hup, Hs0. f_equal.
      apply fold_left_ext_in. intros acc p Hp.
      by rewrite (Hframe (off k p)) by (intros t; apply Hoff).
    + intros a b Ha Hb. apply Hinj; by right.
    + intros t Ht. unfold w2. rewrite tiled_fold_exec_length.
      unfold w1. rewrite tiled_exec_length. apply Hrange. by right.
Qed.

(** The source loops are sweeps. *)
Lemma for_each_sweep_up (a len : nat) w :
  for_each (seq a len) (fun k =>
    assign_dataflow (x k) f [dg k; x k];;
    for_up (k + 1) (a + len) (fun t =>
      assign_dataflow (x t) g [off t k; x k; x t])) w
  = for_each (sweep f g dg off x (seq a len)) run_instr w.
Proof.
  revert a w. induction len as [|len IH]; intros a w; [done|].
  simpl. rewrite tiled_bind_assoc. apply tiled_bind_ext. intros _ w1.
  rewrite tiled_for_each_app. apply tiled_bind_cong.
  - unfold for_up. replace (a + S len - (a + 1)) with len by lia.
    replace (a + 1) with (S a) by lia.
    by rewrite tiled_for_each_map.
  - intros _ w2. rewrite <- IH. apply tiled_for_each_ext. intros k w3.
    by replace (S a + len) with (a + S len) by lia.
Qed.

Lemma for_each_sweep_down (n : nat) w :
  for_each (rev (seq 0 n)) (fun k =>
    assign_dataflow (x k) f [dg k; x k];;
    for_down (Z.of_nat k - 1) (fun t =>
      assign_dataflow (x t) g [off t k; x k; x t])) w
  = for_each (sweep f g dg off x (rev (seq 0 n))) run_instr w.
Proof.
  revert w. induction n as [|n IH]; intros w; [done|].
  rewrite seq_snoc, rev_app_distr. simpl.
  rewrite tiled_bind_assoc. apply tiled_bind_ext. intros _ w1.
  rewrite tiled_for_each_app. apply tiled_bind_cong.
  - unfold for_down. replace (Z.to_nat (Z.of_nat n - 1 + 1)) with n by lia.
    by rewrite tiled_for_each_map.
  - intros _ w2. apply IH.
Qed.

End Sweep.

(** ** One sweep for every column *)

Section Sweeps.

Context {tile : Type}.
Implicit Types w : world tile.

Variables (f g : kernel) (dg : nat → ref * nat) (off : nat → nat → ref * nat).
Variable x : nat → nat → ref * nat.
Hypothesis Hdg : ∀ k c k', dg k ≠ x c k'.
Hypothesis Hoff : ∀ t k c k', off t k ≠ x c k'.

Lemma sweeps_other (cols order : list nat) w s :
  (∀ c k, In c cols → In k order → s ≠ x c k) →
  token_at (fold_left exec
              (flat_map (fun c => sweep f g dg off (x c) order) cols) w) s
  = token_at w s.
Proof.
  intros Hs. apply token_fold_other. apply Forall_flat_map'. intros c Hc.
  eapply Forall_impl; [apply sweep_dsts|].
  intros i (k & Hk & Hi) Heq. apply (Hs c k Hc Hk). congruence.
Qed.

Lemma sweeps_tokens (cols order : list nat) w :
  NoDup cols → NoDup order →
  (∀ c k c' k', In c cols → In c' cols → In k order → In k' order →
     x c k = x c' k' → c = c' ∧ k = k') →
  (∀ c k, In c cols → In k order →
     snd (x c k) < length (mem w (fst (x c k)))) →
  ∀ c, In c cols → ∀ pre k post, order = pre ++ k :: post →
    token_at (fold_left exec
                (flat_map (fun c => sweep f g dg off (x c) order) cols) w)
      (x c k)
    = solved f g (token_at w (dg k)) (fun p => token_at w (off k p))
        (fun p => token_at
                    (fold_left exec
                       (flat_map (fun c => sweep f g dg off (x c) order) cols) w)
                    (x c p))
        pre (token_at w (x c k)).
Proof.
  intros Hcols Horder. revert w.
  induction Hcols as [|c0 cols Hc0 Hcols IH]; intros w Hinj Hrange c Hc pre k post Heq;
    [done|].
  simpl. rewrite fold_left_app.
  set (w1 := fold_left exec (sweep f g dg off (x c0) order) w).
  set (rest := flat_map (fun c => sweep f g dg off (x c) order) cols).
  assert (∀ p, In p order → token_at (fold_left exec rest w1) (x c0 p)
                             = token_at w1 (x c0 p)) as Hkeep.
  { intros p Hp. unfold rest. apply sweeps_other. intros c' k' Hc' Hk' Hx.
    apply Hinj in Hx as [<- _]; [|by left|by right|done..].
    apply Hc0. by apply list_elem_of_In. }
  assert (In k order) as Hk.
  { rewrite Heq. apply in_app_iff. right. by left. }
  destruct Hc as [<-|Hc].
  - rewrite Hkeep by done. unfold w1.
    rewrite (sweep_tokens f g dg off (x c0) (fun a b => Hdg a c0 b)
               (fun t a b => Hoff t a c0 b) order w Horder)
      with (pre := pre) (post := post); [|..|done].
    + apply solved_ext. intros p Hp. split; [done|].
      fold w1. symmetry. apply Hkeep. rewrite Heq. apply in_app_iff. by left.
    + intros a b Ha Hb Hx. apply Hinj in Hx; [tauto|by left|by left|done..].
    + intros a Ha. apply Hrange; [by left|done].
  - assert (∀ s, (∀ p, In p order → s ≠ x c0 p) → token_at w1 s = token_at w s)
      as Hframe.
    { intros s Hs. unfold w1. by apply sweep_other. }
    unfold rest. rewrite (IH w1) with (pre := pre) (post := post); try done.
    + fold rest. rewrite (Hframe (dg k)) by (intros; apply Hdg).
      rewrite (Hframe (x c k)).
      * apply solved_ext. intros p Hp. split; [|done].
        apply Hframe. intros; apply Hoff.
      * intros p Hp Hx. apply Hinj in Hx as [<- _]; [|by right|by left|done..].
        apply Hc0. by apply list_elem_of_In.
    + intros a b a' b' Ha Ha'. apply Hinj; by right.
    + intros a b Ha Hb. unfold w1. rewrite tiled_fold_exec_length.
      apply Hrange; [by right|done].
Qed.

Lemma sweep_in_range (order : list nat) c w :
  (∀ k, In k order → snd (dg k) < length (mem w (fst (dg k)))) →
  (∀ t k, In t order → In k order →
     snd (off t k) < length (mem w (fst (off t k)))) →
  (∀ k, In k order → snd (x c k) < length (mem w (fst (x c k)))) →
  Forall (in_range w) (sweep f g dg off (x c) order).
Proof.
  induction order as [|k rest IH]; intros Hd Ho Hx; simpl; [constructor|].
  constructor.
  - split; simpl; [apply Hx; by left|].
    repeat constructor; simpl; [apply Hd|apply Hx]; by left.
  - apply Forall_app. split.
    + apply Forall_map'. intros t Ht. split; simpl; [apply Hx; by right|].
      repeat constructor; simpl.
      * apply Ho; [by right|by left].
      * apply Hx. by left.
      * apply Hx. by right.
    + apply IH.
      * intros a Ha. apply Hd. by right.
      * intros a b Ha Hb. apply Ho; by right.
      * intros a Ha. apply Hx. by right.
Qed.

End Sweeps.

Lemma seq_split_at (n k : nat) :
  k < n → seq 0 n = seq 0 k ++ k :: seq (S k) (n - S k).
Proof.
  intros Hk. replace n with (k + S (n - S k)) at 1 by lia.
  by rewrite seq_app.
Qed.

Lemma rev_seq_split_at (n k : nat) :
  k < n → rev (seq 0 n) = rev (seq (S k) (n - S k)) ++ k :: rev (seq 0 k).
Proof.
  intros Hk. rewrite (seq_split_at n k Hk), rev_app_distr. simpl.
  by rewrite <- app_assoc.
Qed.

Lemma NoDup_rev_seq (n : nat) : NoDup (rev (seq 0 n)).
Proof. rewrite <- Permutation_rev. apply NoDup_seq. Qed.

Lemma slot_pair_inj (n m i j i' j' : nat) :
  (N.of_nat (n * m) ≤ vector_max_size)%N →
  i < n → j < m → i' < n → j' < m →
  slot i m j = slot i' m j' → i = i' ∧ j = j'.
Proof.
  intros Hmax Hi Hj Hi' Hj'.
  rewrite (proj1 (slot_in_grid i n m j Hmax Hi Hj)).
  rewrite (proj1 (slot_in_grid i' n m j' Hmax Hi' Hj')).
  intros Heq. assert (i = i') by nia. subst. split; [done|lia].
Qed.

(** ** The triangular solves with a matrix of right-hand sides *)

Section MatrixSolves.

Context {tile : Type}.
Implicit Types w : world tile.

Lemma forward_matrix_run N M_ n m w :
  forward_solve_tiled_matrix N M_ n m w
  = for_each (forward_matrix_instrs N M_ n m) run_instr w.
Proof.
  unfold forward_solve_tiled_matrix, forward_matrix_instrs.
  unfold for_up at 1. rewrite Nat.sub_0_r, tiled_for_each_flat_map.
  apply tiled_for_each_ext. intros c w'.
  unfold for_up at 1. rewrite Nat.sub_0_r.
  exact (for_each_sweep_up _ _ _ _ _ 0 n w').
Qed.

Lemma forward_matrix_in_range N M_ n m w :
  grid (mem w ft_tiles) n n → grid (mem w ft_rhs) n m →
  Forall (in_range w) (forward_matrix_instrs N M_ n m).
Proof.
  intros Ht Hr. apply Forall_flat_map'. intros c Hc. apply in_seq in Hc.
  apply (sweep_in_range _ _ _ _ (fun c k => (ft_rhs, slot k m c))); simpl.
  - intros k Hk. apply in_seq in Hk. apply (slot_lt _ n n); [done|lia..].
  - intros t k Ht' Hk. apply in_seq in Ht', Hk. apply (slot_lt _ n n); [done|lia..].
  - intros k Hk. apply in_seq in Hk. apply (slot_lt _ n m); [done|lia..].
Qed.

Lemma forward_matrix_tokens N M_ n m w :
  grid (mem w ft_tiles) n n → grid (mem w ft_rhs) n m →
  ∀ k c, k < n → c < m →
    tile_at (fold_left exec (forward_matrix_instrs N M_ n m) w) ft_rhs k m c
    = solved (fn_mkl_trsm_l_matrix N M_) (fn_mkl_gemm_l_matrix N M_)
        (tile_at w ft_tiles k n k) (fun p => tile_at w ft_tiles k n p)
        (fun p => tile_at (fold_left exec (forward_matrix_instrs N M_ n m) w)
                    ft_rhs p m c)
        (seq 0 k) (tile_at w ft_rhs k m c).
Proof.
  intros [HtL HtM] [HrL HrM] k c Hk Hc.
  pose proof (sweeps_tokens
                (fn_mkl_trsm_l_matrix N M_) (fn_mkl_gemm_l_matrix N M_)
                (fun k => (ft_tiles, slot k n k))
                (fun t k => (ft_tiles, slot t n k))
                (fun c k => (ft_rhs, slot k m c))
                ltac:(done) ltac:(done)
                (seq 0 m) (seq 0 n) w (NoDup_seq 0 m) (NoDup_seq 0 n)) as Hsw.
  cbv beta in Hsw.
  unfold tile_at, forward_matrix_instrs, forward_matrix_column.
  rewrite <- (proj1 (slot_in_grid k n m c HrM Hk Hc)).
  rewrite <- (proj1 (slot_in_grid k n n k HtM Hk Hk)).
  rewrite (Hsw) with (c := c) (pre := seq 0 k) (k := k)
                      (post := seq (S k) (n - S k)).
  - apply solved_ext. intros p Hp. apply in_seq in Hp. split.
    + by rewrite (proj1 (slot_in_grid k n n p HtM Hk ltac:(lia))).
    + by rewrite (proj1 (slot_in_grid p n m c HrM ltac:(lia) Hc)).
  - intros a b a' b' Ha Ha' Hb Hb' [= Heq].
    apply in_seq in Ha, Ha', Hb, Hb'.
    apply (slot_pair_inj n m) in Heq; [lia|done|lia..].
  - intros a b Ha Hb. apply in_seq in Ha, Hb. simpl.
    apply (slot_lt _ n m); [done|lia..].
  - apply in_seq. lia.
  - by apply seq_split_at.
Qed.

Lemma sweep_writes (r : ref) f g dg off (x : nat → ref * nat) order :
  (∀ k, fst (x k) = r) →
  Forall (fun i => fst (i_dst i) = r) (sweep f g dg off x order).
Proof.
  intros Hx. eapply Forall_impl; [apply sweep_dsts|].
  intros i (k & _ & ->). apply Hx.
Qed.

Lemma forward_matrix_writes N M_ n m :
  Forall (fun i => fst (i_dst i) = ft_rhs) (forward_matrix_instrs N M_ n m).
Proof.
  apply Forall_flat_map'. intros c _. by apply sweep_writes.
Qed.

(** X1.  [forward_solve_tiled_matrix] on a factor of [n × n] tiles and
    right-hand sides of [n × m] tiles returns, leaves every vector but
    [ft_rhs] as it was, and leaves in tile [(k,c)] of [ft_rhs] the TRSM
    against diagonal tile [(k,k)] of the future found there after the GEMM
    updates with tile [(k,p)] and the result future of tile [(p,c)], for
    [p = 0 .. k-1] in this order: column [c] is block forward substitution
    on column [c]. *)
Theorem forward_solve_tiled_matrix_dependencies (N M_ n m : nat) w :
  grid (mem w ft_tiles) n n →
  grid (mem w ft_rhs) n m →
  ∃ w', forward_solve_tiled_matrix N M_ n m w = (Returned tt, w') ∧
    (∀ r, r ≠ ft_rhs → mem w' r = mem w r) ∧
    length (mem w' ft_rhs) = length (mem w ft_rhs) ∧
    ∀ k c, k < n → c < m →
      tile_at w' ft_rhs k m c
      = solved (fn_mkl_trsm_l_matrix N M_) (fn_mkl_gemm_l_matrix N M_)
          (tile_at w ft_tiles k n k) (fun p => tile_at w ft_tiles k n p)
          (fun p => tile_at w' ft_rhs p m c)
          (seq 0 k) (tile_at w ft_rhs k m c).
Proof.
  intros Ht Hr. eexists. split_and!.
  - rewrite forward_matrix_run. apply tiled_run_instrs_exec.
    by apply forward_matrix_in_range.
  - intros r Hne. apply tiled_fold_exec_mem_other.
    eapply Forall_impl; [apply forward_matrix_writes|].
    intros i Hi. simpl in Hi. congruence.
  - apply tiled_fold_exec_length.
  - by apply forward_matrix_tokens.
Qed.


Lemma in_rev_seq (n k : nat) : In k (rev (seq 0 n)) ↔ k < n.
Proof. rewrite <- in_rev, in_seq. lia. Qed.

Lemma backward_matrix_run N M_ n m w :
  (Z.of_nat m ≤ INT_MAX)%Z → (Z.of_nat n ≤ 2 ^ 30)%Z →
  backward_solve_tiled_matrix N M_ n m w
  = for_each (backward_matrix_instrs N M_ n m) run_instr w.
Proof.
  intros Hm Hn. unfold backward_solve_tiled_matrix, backward_matrix_instrs.
  unfold for_up_int. rewrite decide_True by done.
  rewrite tiled_for_each_flat_map.
  apply tiled_for_each_ext. intros c w'.
  unfold for_down at 1. rewrite int_of_size_pred by done.
  replace (Z.to_nat (Z.of_nat n - 1 + 1)) with n by lia.
  exact (for_each_sweep_down _ _ _ _ _ n w').
Qed.

Lemma backward_matrix_in_range N M_ n m w :
  grid (mem w ft_tiles) n n → grid (mem w ft_rhs) n m →
  Forall (in_range w) (backward_matrix_instrs N M_ n m).
Proof.
  intros Ht Hr. apply Forall_flat_map'. intros c Hc. apply in_seq in Hc.
  apply (sweep_in_range _ _ _ _ (fun c k => (ft_rhs, slot k m c))); simpl.
  - intros k Hk. apply in_rev_seq in Hk. apply (slot_lt _ n n); [done|lia..].
  - intros t k Ht' Hk. apply in_rev_seq in Ht', Hk.
    apply (slot_lt _ n n); [done|lia..].
  - intros k Hk. apply in_rev_seq in Hk. apply (slot_lt _ n m); [done|lia..].
Qed.

Lemma backward_matrix_tokens N M_ n m w :
  grid (mem w ft_tiles) n n → grid (mem w ft_rhs) n m →
  ∀ k c, k < n → c < m →
    tile_at (fold_left exec (backward_matrix_instrs N M_ n m) w) ft_rhs k m c
    = solved (fn_mkl_trsm_u_matrix N M_) (fn_mkl_gemm_u_matrix N M_)
        (tile_at w ft_tiles k n k) (fun p => tile_at w ft_tiles p n k)
        (fun p => tile_at (fold_left exec (backward_matrix_instrs N M_ n m) w)
                    ft_rhs p m c)
        (rev (seq (S k) (n - S k))) (tile_at w ft_rhs k m c).
Proof.
  intros [HtL HtM] [HrL HrM] k c Hk Hc.
  pose proof (sweeps_tokens
                (fn_mkl_trsm_u_matrix N M_) (fn_mkl_gemm_u_matrix N M_)
                (fun k => (ft_tiles, slot k n k))
                (fun t k => (ft_tiles, slot k n t))
                (fun c k => (ft_rhs, slot k m c))
                ltac:(done) ltac:(done)
                (seq 0 m) (rev (seq 0 n)) w (NoDup_seq 0 m) (NoDup_rev_seq n))
    as Hsw.
  cbv beta in Hsw.
  unfold tile_at, backward_matrix_instrs, backward_matrix_column.
  rewrite <- (proj1 (slot_in_grid k n m c HrM Hk Hc)).
  rewrite <- (proj1 (slot_in_grid k n n k HtM Hk Hk)).
  rewrite (Hsw) with (c := c) (pre := rev (seq (S k) (n - S k))) (k := k)
                      (post := rev (seq 0 k)).
  - apply solved_ext. intros p Hp. apply in_rev, in_seq in Hp. split.
    + by rewrite (proj1 (slot_in_grid p n n k HtM ltac:(lia) Hk)).
    + by rewrite (proj1 (slot_in_grid p n m c HrM ltac:(lia) Hc)).
  - intros a b a' b' Ha Ha' Hb Hb' [= Heq].
    apply in_seq in Ha, Ha'. apply in_rev_seq in Hb, Hb'.
    apply (slot_pair_inj n m) in Heq; [lia|done|lia..].
  - intros a b Ha Hb. apply in_seq in Ha. apply in_rev_seq in Hb. simpl.
    apply (slot_lt _ n m); [done|lia..].
  - apply in_seq. lia.
  - by apply rev_seq_split_at.
Qed.

Lemma backward_matrix_writes N M_ n m :
  Forall (fun i => fst (i_dst i) = ft_rhs) (backward_matrix_instrs N M_ n m).
Proof.
  apply Forall_flat_map'. intros c _. by apply sweep_writes.
Qed.

(** X2.  [backward_solve_tiled_matrix], whose counters are [int]s, is the
    mirror image for at most [INT_MAX] columns: it returns, leaves every
    vector but [ft_rhs] as it was, and leaves in tile [(k,c)] the TRSM against
    diagonal tile [(k,k)] of the future found there after the GEMM updates
    with the transposed tile [(p,k)] and the result future of tile [(p,c)],
    for [p = n-1] down to [k+1]. *)
Theorem backward_solve_tiled_matrix_dependencies (N M_ n m : nat) w :
  grid (mem w ft_tiles) n n →
  grid (mem w ft_rhs) n m →
  (Z.of_nat m ≤ INT_MAX)%Z →
  ∃ w', backward_solve_tiled_matrix N M_ n m w = (Returned tt, w') ∧
    (∀ r, r ≠ ft_rhs → mem w' r = mem w r) ∧
    length (mem w' ft_rhs) = length (mem w ft_rhs) ∧
    ∀ k c, k < n → c < m →
      tile_at w' ft_rhs k m c
      = solved (fn_mkl_trsm_u_matrix N M_) (fn_mkl_gemm_u_matrix N M_)
          (tile_at w ft_tiles k n k) (fun p => tile_at w ft_tiles p n k)
          (fun p => tile_at w' ft_rhs p m c)
          (rev (seq (S k) (n - S k))) (tile_at w ft_rhs k m c).
Proof.
  intros Ht Hr Hm. eexists. split_and!.
  - rewrite backward_matrix_run; [|done|].
    + apply tiled_run_instrs_exec. by apply backward_matrix_in_range.
    + apply grid_side_small. by destruct Ht.
  - intros r Hne. apply tiled_fold_exec_mem_other.
    eapply Forall_impl; [apply backward_matrix_writes|].
    intros i Hi. simpl in Hi. congruence.
  - apply tiled_fold_exec_length.
  - by apply backward_matrix_tokens.
Qed.

(** *** The solves from the right *)

Lemma forward_KK_run N M_ n m w :
  forward_solve_KK_tiled N M_ n m w
  = for_each (forward_KK_instrs N M_ n m) run_instr w.
Proof.
  unfold forward_solve_KK_tiled, forward_KK_instrs.
  unfold for_up at 1. rewrite Nat.sub_0_r, tiled_for_each_flat_map.
  apply tiled_for_each_ext. intros r w'.
  unfold for_up at 1. rewrite Nat.sub_0_r.
  exact (for_each_sweep_up _ _ _ _ _ 0 n w').
Qed.

Lemma forward_KK_in_range N M_ n m w :
  grid (mem w ft_tiles) n n → grid (mem w ft_rhs) m n →
  Forall (in_range w) (forward_KK_instrs N M_ n m).
Proof.
  intros Ht Hr. apply Forall_flat_map'. intros r Hr'. apply in_seq in Hr'.
  apply (sweep_in_range _ _ _ _ (fun r c => (ft_rhs, slot r n c))); simpl.
  - intros k Hk. apply in_seq in Hk. apply (slot_lt _ n n); [done|lia..].
  - intros t k Ht' Hk. apply in_seq in Ht', Hk. apply (slot_lt _ n n); [done|lia..].
  - intros k Hk. apply in_seq in Hk. apply (slot_lt _ m n); [done|lia..].
Qed.

Lemma forward_KK_tokens N M_ n m w :
  grid (mem w ft_tiles) n n → grid (mem w ft_rhs) m n →
  ∀ r c, r < m → c < n →
    tile_at (fold_left exec (forward_KK_instrs N M_ n m) w) ft_rhs r n c
    = solved (fn_mkl_trsm_u_KK N M_) (fn_mkl_gemm_u_KK N M_)
        (tile_at w ft_tiles c n c) (fun p => tile_at w ft_tiles c n p)
        (fun p => tile_at (fold_left exec (forward_KK_instrs N M_ n m) w)
                    ft_rhs r n p)
        (seq 0 c) (tile_at w ft_rhs r n c).
Proof.
  intros [HtL HtM] [HrL HrM] r c Hr Hc.
  pose proof (sweeps_tokens
                (fn_mkl_trsm_u_KK N M_) (fn_mkl_gemm_u_KK N M_)
                (fun c => (ft_tiles, slot c n c))
                (fun t c => (ft_tiles, slot t n c))
                (fun r c => (ft_rhs, slot r n c))
                ltac:(done) ltac:(done)
                (seq 0 m) (seq 0 n) w (NoDup_seq 0 m) (NoDup_seq 0 n)) as Hsw.
  cbv beta in Hsw.
  unfold tile_at, forward_KK_instrs, forward_KK_row.
  rewrite <- (proj1 (slot_in_grid r m n c HrM Hr Hc)).
  rewrite <- (proj1 (slot_in_grid c n n c HtM Hc Hc)).
  rewrite (Hsw) with (c := r) (pre := seq 0 c) (k := c)
                      (post := seq (S c) (n - S c)).
  - apply solved_ext. intros p Hp. apply in_seq in Hp. split.
    + by rewrite (proj1 (slot_in_grid c n n p HtM Hc ltac:(lia))).
    + by rewrite (proj1 (slot_in_grid r m n p HrM Hr ltac:(lia))).
  - intros a b a' b' Ha Ha' Hb Hb' [= Heq].
    apply in_seq in Ha, Ha', Hb, Hb'.
    apply (slot_pair_inj m n) in Heq; [lia|done|lia..].
  - intros a b Ha Hb. apply in_seq in Ha, Hb. simpl.
    apply (slot_lt _ m n); [done|lia..].
  - apply in_seq. lia.
  - by apply seq_split_at.
Qed.

Lemma forward_KK_writes N M_ n m :
  Forall (fun i => fst (i_dst i) = ft_rhs) (forward_KK_instrs N M_ n m).
Proof.
  apply Forall_flat_map'. intros c _. by apply sweep_writes.
Qed.

(** X3.  [forward_solve_KK_tiled] sweeps the rows of an [m × n] grid [ft_rhs]
    from left to right: it returns, leaves every vector but [ft_rhs] as it
    was, and leaves in tile [(r,c)] the TRSM against diagonal tile [(c,c)] of
    the future found there after the GEMM updates with tile [(c,p)] and the
    result future of tile [(r,p)], for [p = 0 .. c-1] in this order. *)
Theorem forward_solve_KK_tiled_dependencies (N M_ n m : nat) w :
  grid (mem w ft_tiles) n n →
  grid (mem w ft_rhs) m n →
  ∃ w', forward_solve_KK_tiled N M_ n m w = (Returned tt, w') ∧
    (∀ r, r ≠ ft_rhs → mem w' r = mem w r) ∧
    length (mem w' ft_rhs) = length (mem w ft_rhs) ∧
    ∀ r c, r < m → c < n →
      tile_at w' ft_rhs r n c
      = solved (fn_mkl_trsm_u_KK N M_) (fn_mkl_gemm_u_KK N M_)
          (tile_at w ft_tiles c n c) (fun p => tile_at w ft_tiles c n p)
          (fun p => tile_at w' ft_rhs r n p)
          (seq 0 c) (tile_at w ft_rhs r n c).
Proof.
  intros Ht Hr. eexists. split_and!.
  - rewrite forward_KK_run. apply tiled_run_instrs_exec.
    by apply forward_KK_in_range.
  - intros r Hne. apply tiled_fold_exec_mem_other.
    eapply Forall_impl; [apply forward_KK_writes|].
    intros i Hi. simpl in Hi. congruence.
  - apply tiled_fold_exec_length.
  - by apply forward_KK_tokens.
Qed.

Lemma backward_KK_run N M_ n m w :
  (Z.of_nat m ≤ INT_MAX)%Z → (Z.of_nat n ≤ 2 ^ 30)%Z →
  backward_solve_KK_tiled N M_ n m w
  = for_each (backward_KK_instrs N M_ n m) run_instr w.
Proof.
  intros Hm Hn. unfold backward_solve_KK_tiled, backward_KK_instrs.
  unfold for_up_int. rewrite decide_True by done.
  rewrite tiled_for_each_flat_map.
  apply tiled_for_each_ext. intros r w'.
  unfold for_down at 1. rewrite int_of_size_pred by done.
  replace (Z.to_nat (Z.of_nat n - 1 + 1)) with n by lia.
  exact (for_each_sweep_down _ _ _ _ _ n w').
Qed.

Lemma backward_KK_in_range N M_ n m w :
  grid (mem w K_tiles) n n → grid (mem w CrossK_tiles) m n →
  Forall (in_range w) (backward_KK_instrs N M_ n m).
Proof.
  intros Ht Hr. apply Forall_flat_map'. intros r Hr'. apply in_seq in Hr'.
  apply (sweep_in_range _ _ _ _ (fun r c => (CrossK_tiles, slot r n c))); simpl.
  - intros k Hk. apply in_rev_seq in Hk. apply (slot_lt _ n n); [done|lia..].
  - intros t k Ht' Hk. apply in_rev_seq in Ht', Hk.
    apply (slot_lt _ n n); [done|lia..].
  - intros k Hk. apply in_rev_seq in Hk. apply (slot_lt _ m n); [done|lia..].
Qed.

Lemma backward_KK_tokens N M_ n m w :
  grid (mem w K_tiles) n n → grid (mem w CrossK_tiles) m n →
  ∀ r c, r < m → c < n →
    tile_at (fold_left exec (backward_KK_instrs N M_ n m) w) CrossK_tiles r n c
    = solved (fn_mkl_trsm_l_KK N M_) (fn_mkl_gemm_l_KK N M_)
        (tile_at w K_tiles c n c) (fun p => tile_at w K_tiles p n c)
        (fun p => tile_at (fold_left exec (backward_KK_instrs N M_ n m) w)
                    CrossK_tiles r n p)
        (rev (seq (S c) (n - S c))) (tile_at w CrossK_tiles r n c).
Proof.
  intros [HtL HtM] [HrL HrM] r c Hr Hc.
  pose proof (sweeps_tokens
                (fn_mkl_trsm_l_KK N M_) (fn_mkl_gemm_l_KK N M_)
                (fun c => (K_tiles, slot c n c))
                (fun t c => (K_tiles, slot c n t))
                (fun r c => (CrossK_tiles, slot r n c))
                ltac:(done) ltac:(done)
                (seq 0 m) (rev (seq 0 n)) w (NoDup_seq 0 m) (NoDup_rev_seq n))
    as Hsw.
  cbv beta in Hsw.
  unfold tile_at, backward_KK_instrs, backward_KK_row.
  rewrite <- (proj1 (slot_in_grid r m n c HrM Hr Hc)).
  rewrite <- (proj1 (slot_in_grid c n n c HtM Hc Hc)).
  rewrite (Hsw) with (c := r) (pre := rev (seq (S c) (n - S c))) (k := c)
                      (post := rev (seq 0 c)).
  - apply solved_ext. intros p Hp. apply in_rev, in_seq in Hp. split.
    + by rewrite (proj1 (slot_in_grid p n n c HtM ltac:(lia) Hc)).
    + by rewrite (proj1 (slot_in_grid r m n p HrM Hr ltac:(lia))).
  - intros a b a' b' Ha Ha' Hb Hb' [= Heq].
    apply in_seq in Ha, Ha'. apply in_rev_seq in Hb, Hb'.
    apply (slot_pair_inj m n) in Heq; [lia|done|lia..].
  - intros a b Ha Hb. apply in_seq in Ha. apply in_rev_seq in Hb. simpl.
    apply (slot_lt _ m n); [done|lia..].
  - apply in_seq. lia.
  - by apply rev_seq_split_at.
Qed.

Lemma backward_KK_writes N M_ n m :
  Forall (fun i => fst (i_dst i) = CrossK_tiles) (backward_KK_instrs N M_ n m).
Proof.
  apply Forall_flat_map'. intros c _. by apply sweep_writes.
Qed.

(** X4.  [backward_solve_KK_tiled] sweeps the rows of the [m × n] grid
    [CrossK_tiles] from right to left, for at most [INT_MAX] rows: it returns,
    leaves every vector but [CrossK_tiles] as it was, and leaves in tile
    [(r,c)] the TRSM against diagonal tile [(c,c)] of [K_tiles] of the future
    found there after the GEMM updates with tile [(p,c)] and the result future
    of tile [(r,p)], for [p = n-1] down to [c+1]. *)
Theorem backward_solve_KK_tiled_dependencies (N M_ n m : nat) w :
  grid (mem w K_tiles) n n →
  grid (mem w CrossK_tiles) m n →
  (Z.of_nat m ≤ INT_MAX)%Z →
  ∃ w', backward_solve_KK_tiled N M_ n m w = (Returned tt, w') ∧
    (∀ r, r ≠ CrossK_tiles → mem w' r = mem w r) ∧
    length (mem w' CrossK_tiles) = length (mem w CrossK_tiles) ∧
    ∀ r c, r < m → c < n →
      tile_at w' CrossK_tiles r n c
      = solved (fn_mkl_trsm_l_KK N M_) (fn_mkl_gemm_l_KK N M_)
          (tile_at w K_tiles c n c) (fun p => tile_at w K_tiles p n c)
          (fun p => tile_at w' CrossK_tiles r n p)
          (rev (seq (S c) (n - S c))) (tile_at w CrossK_tiles r n c).
Proof.
  intros Ht Hr Hm. eexists. split_and!.
  - rewrite backward_KK_run; [|done|].
    + apply tiled_run_instrs_exec. by apply backward_KK_in_range.
    + apply grid_side_small. by destruct Ht.
  - intros r Hne. apply tiled_fold_exec_mem_other.
    eapply Forall_impl; [apply backward_KK_writes|].
    intros i Hi. simpl in Hi. congruence.
  - apply tiled_fold_exec_length.
  - by apply backward_KK_tokens.
Qed.

End MatrixSolves.

Lemma forward_solve_tiled_matrix_dependencies_witness :
  ∃ w', forward_solve_tiled_matrix 1 1 2 1 demo = (Returned tt, w') ∧
    tile_at w' ft_rhs 1 1 0
    = dataflow (fn_mkl_trsm_l_matrix 1 1)
        [ready 3;
         dataflow (fn_mkl_gemm_l_matrix 1 1)
           [ready 2; dataflow (fn_mkl_trsm_l_matrix 1 1) [ready 0; ready 4];
            ready 5]].
Proof.
  destruct (forward_solve_tiled_matrix_dependencies 1 1 2 1 demo)
    as (w' & Hrun & _ & _ & Htok).
  - split; [reflexivity|]. by vm_compute.
  - split; [reflexivity|]. by vm_compute.
  - exists w'. split; [exact Hrun|].
    rewrite (Htok 1 0) by lia. unfold solved. simpl.
    rewrite (Htok 0 0) by lia. reflexivity.
Defined.

Lemma backward_solve_tiled_matrix_dependencies_witness :
  ∃ w', backward_solve_tiled_matrix 1 1 2 1 demo = (Returned tt, w') ∧
    tile_at w' ft_rhs 0 1 0
    = dataflow (fn_mkl_trsm_u_matrix 1 1)
        [ready 0;
         dataflow (fn_mkl_gemm_u_matrix 1 1)
           [ready 2; dataflow (fn_mkl_trsm_u_matrix 1 1) [ready 3; ready 5];
            ready 4]].
Proof.
  destruct (backward_solve_tiled_matrix_dependencies 1 1 2 1 demo)
    as (w' & Hrun & _ & _ & Htok).
  - split; [reflexivity|]. by vm_compute.
  - split; [reflexivity|]. by vm_compute.
  - by vm_compute.
  - exists w'. split; [exact Hrun|].
    rewrite (Htok 0 0) by lia. unfold solved. simpl.
    rewrite (Htok 1 0) by lia. reflexivity.
Defined.

Lemma forward_solve_KK_tiled_dependencies_witness :
  ∃ w', forward_solve_KK_tiled 1 1 2 1 demo = (Returned tt, w') ∧
    tile_at w' ft_rhs 0 2 1
    = dataflow (fn_mkl_trsm_u_KK 1 1)
        [ready 3;
         dataflow (fn_mkl_gemm_u_KK 1 1)
           [ready 2; dataflow (fn_mkl_trsm_u_KK 1 1) [ready 0; ready 4];
            ready 5]].
Proof.
  destruct (forward_solve_KK_tiled_dependencies 1 1 2 1 demo)
    as (w' & Hrun & _ & _ & Htok).
  - split; [reflexivity|]. by vm_compute.
  - split; [reflexivity|]. by vm_compute.
  - exists w'. split; [exact Hrun|].
    rewrite (Htok 0 1) by lia. unfold solved. simpl.
    rewrite (Htok 0 0) by lia. reflexivity.
Defined.

Lemma backward_solve_KK_tiled_dependencies_witness :
  ∃ w', backward_solve_KK_tiled 1 1 2 1 demo = (Returned tt, w') ∧
    tile_at w' CrossK_tiles 0 2 0
    = dataflow (fn_mkl_trsm_l_KK 1 1)
        [ready 0;
         dataflow (fn_mkl_gemm_l_KK 1 1)
           [ready 2; dataflow (fn_mkl_trsm_l_KK 1 1) [ready 3; ready 5];
            ready 4]].
Proof.
  destruct (backward_solve_KK_tiled_dependencies 1 1 2 1 demo)
    as (w' & Hrun & _ & _ & Htok).
  - split; [reflexivity|]. by vm_compute.
  - split; [reflexivity|]. by vm_compute.
  - by vm_compute.
  - exists w'. split; [exact Hrun|].
    rewrite (Htok 0 0) by lia. unfold solved. simpl.
    rewrite (Htok 0 1) by lia. reflexivity.
Defined.

(** ** Loss, prediction uncertainty and gradient assembly *)

Section Independent.

Context {tile : Type}.
Implicit Types w : world tile.

Lemma lookup_token_at w r k :
  k < length (mem w r) → mem w r !! k = Some (token_at w (r, k)).
Proof.
  intros Hk. unfold token_at. simpl.
  by destruct (lookup_lt_is_Some_2 _ _ Hk) as [f ->].
Qed.

Lemma compute_loss_loop_in_range N n w :
  grid (mem w ft_tiles) n n →
  n ≤ length (mem w ft_alpha) → n ≤ length (mem w ft_y) →
  length (mem w loss_tiled) = n →
  Forall (in_range w) (map (loss_instr N n) (seq 0 n)).
Proof.
  intros Ht Ha Hy Hl. apply Forall_map'. intros k Hk. apply in_seq in Hk.
  split; simpl; [lia|].
  repeat constructor; simpl; [|lia..].
  apply (slot_lt _ n n); [done|lia..].
Qed.

Lemma compute_loss_loop_tokens N n w k :
  grid (mem w ft_tiles) n n →
  length (mem w loss_tiled) = n →
  k < n →
  token_at (fold_left exec (map (loss_instr N n) (seq 0 n)) w) (loss_tiled, k)
  = dataflow (fn_compute_loss N)
      [tile_at w ft_tiles k n k; token_at w (ft_alpha, k); token_at w (ft_y, k)].
Proof.
  intros [HtL HtM] Hl Hk.
  change (loss_tiled, k) with (i_dst (loss_instr N n k)).
  rewrite tokens_parallel.
  - simpl. unfold tile_at.
    by rewrite (proj1 (slot_in_grid k n n k HtM Hk Hk)).
  - rewrite map_map. simpl. apply NoDup_fmap_2; [|apply NoDup_seq].
    intros a b [= ->]. done.
  - intros i j Hi Hj Hin.
    apply in_map_iff in Hi as (a & <- & Ha).
    apply in_map_iff in Hj as (b & <- & Hb).
    simpl in Hin. destruct Hin as [Hin|[Hin|[Hin|[]]]]; discriminate.
  - intros i Hi. apply in_map_iff in Hi as (a & <- & Ha). apply in_seq in Ha.
    simpl. lia.
  - apply in_map_iff. exists k. split; [done|]. apply in_seq. lia.
Qed.

(** X5.  [compute_loss_tiled] returns with, in [loss], the [add_losses] node
    over one [compute_loss] node per diagonal tile, each given the futures of
    diagonal tile [(k,k)], of [ft_alpha[k]] and of [ft_y[k]] from before the
    call.  The future [loss] held before is dropped, the local vector is gone,
    the other vectors are as they were, and [n_tiles + 1] invocations have
    been issued. *)
Theorem compute_loss_tiled_result (N n : nat) w :
  grid (mem w ft_tiles) n n →
  n ≤ length (mem w ft_alpha) →
  n ≤ length (mem w ft_y) →
  ∃ w', compute_loss_tiled N n w = (Returned tt, w') ∧
    mem w' loss
    = [dataflow (fn_add_losses N n)
         (map (fun k => dataflow (fn_compute_loss N)
                          [tile_at w ft_tiles k n k; token_at w (ft_alpha, k);
                           token_at w (ft_y, k)])
            (seq 0 n))] ∧
    mem w' loss_tiled = [] ∧
    (∀ r, r ≠ loss → r ≠ loss_tiled → mem w' r = mem w r) ∧
    length (issued w') = length (issued w) + n + 1.
Proof.
  intros Ht Ha Hy. unfold compute_loss_tiled.
  erewrite tiled_bind_returned by reflexivity.
  set (w0 := set_mem loss_tiled (replicate n no_state) w).
  assert (length (mem w0 loss_tiled) = n) as Hl0 by apply length_replicate.
  assert (grid (mem w0 ft_tiles) n n) as Ht0 by done.
  set (l := map (loss_instr N n) (seq 0 n)).
  erewrite tiled_bind_returned; cycle 1.
  { unfold for_up. rewrite Nat.sub_0_r.
    etrans; [exact (eq_sym (tiled_for_each_map (loss_instr N n) (seq 0 n)
                              run_instr w0))|].
    apply tiled_run_instrs_exec. by apply compute_loss_loop_in_range. }
  fold l. set (w1 := fold_left exec l w0).
  assert (mem w1 loss_tiled
          = map (fun k => dataflow (fn_compute_loss N)
                            [tile_at w ft_tiles k n k; token_at w (ft_alpha, k);
                             token_at w (ft_y, k)])
              (seq 0 n)) as Hvec.
  { apply list_eq. intros k.
    destruct (decide (k < n)) as [Hk|Hk].
    - rewrite lookup_token_at
        by (unfold w1; rewrite tiled_fold_exec_length; lia).
      unfold w1, l. rewrite compute_loss_loop_tokens by done.
      rewrite list_lookup_fmap, lookup_seq_lt by done. done.
    - rewrite !lookup_ge_None_2; [done|..].
      + rewrite length_map, length_seq. lia.
      + unfold w1. rewrite tiled_fold_exec_length. lia. }
  eexists. split; [reflexivity|]. simpl. split_and!.
  - by rewrite Hvec.
  - done.
  - intros r Hr Hr'. rewrite !decide_False by done.
    unfold w1. rewrite tiled_fold_exec_mem_other.
    + unfold w0. rewrite tiled_set_mem_lookup. by rewrite decide_False.
    + apply Forall_map'. intros k _. simpl. congruence.
  - unfold w1. rewrite length_app, tiled_fold_exec_issued, length_app. simpl.
    unfold l. rewrite !length_map, length_seq. lia.
Qed.

Lemma uncertainty_tokens M_ m w i :
  grid (mem w ft_tiles) m m →
  m ≤ length (mem w ft_vector) →
  i < m →
  token_at (fold_left exec (map (uncertainty_instr M_ m) (seq 0 m)) w)
    (ft_vector, i)
  = dataflow (fn_diag M_) [tile_at w ft_tiles i m i].
Proof.
  intros [HtL HtM] Hv Hi.
  change (ft_vector, i) with (i_dst (uncertainty_instr M_ m i)).
  rewrite tokens_parallel.
  - simpl. unfold tile_at.
    by rewrite (proj1 (slot_in_grid i m m i HtM Hi Hi)).
  - rewrite map_map. simpl. apply NoDup_fmap_2; [|apply NoDup_seq].
    intros a b [= ->]. done.
  - intros a b Ha Hb Hin.
    apply in_map_iff in Ha as (a' & <- & Ha).
    apply in_map_iff in Hb as (b' & <- & Hb).
    simpl in Hin. destruct Hin as [Hin|[]]; discriminate.
  - intros a Ha. apply in_map_iff in Ha as (a' & <- & Ha). apply in_seq in Ha.
    simpl. lia.
  - apply in_map_iff. exists i. split; [done|]. apply in_seq. lia.
Qed.

(** X6.  [prediction_uncertainty_tiled] returns with, in each of the first
    [m_tiles] slots of [ft_vector], the [diag] node of diagonal tile [(i,i)]
    as it was before the call: what the slots held is not read.  The tiles and
    the slots from [m_tiles] on are as they were. *)
Theorem prediction_uncertainty_overwrites (M_ m : nat) w :
  grid (mem w ft_tiles) m m →
  m ≤ length (mem w ft_vector) →
  ∃ w', prediction_uncertainty_tiled M_ m w = (Returned tt, w') ∧
    (∀ r, r ≠ ft_vector → mem w' r = mem w r) ∧
    length (mem w' ft_vector) = length (mem w ft_vector) ∧
    (∀ i, i < m →
       mem w' ft_vector !! i
       = Some (dataflow (fn_diag M_) [tile_at w ft_tiles i m i])) ∧
    (∀ i, m ≤ i → mem w' ft_vector !! i = mem w ft_vector !! i).
Proof.
  intros Ht Hv. eexists. split_and!.
  - unfold prediction_uncertainty_tiled, for_up. rewrite Nat.sub_0_r.
    etrans; [exact (eq_sym (tiled_for_each_map (uncertainty_instr M_ m)
                              (seq 0 m) run_instr w))|].
    apply tiled_run_instrs_exec. apply Forall_map'. intros i Hi.
    apply in_seq in Hi. split; simpl; [lia|].
    repeat constructor. simpl. apply (slot_lt _ m m); [done|lia..].
  - intros r Hr. apply tiled_fold_exec_mem_other.
    apply Forall_map'. intros i _. simpl. congruence.
  - apply tiled_fold_exec_length.
  - intros i Hi. rewrite lookup_token_at by (rewrite tiled_fold_exec_length; lia).
    by rewrite uncertainty_tokens.
  - intros i Hi.
    destruct (decide (i < length (mem w ft_vector))) as [Hlt|Hge].
    + rewrite !lookup_token_at by (rewrite ?tiled_fold_exec_length; lia).
      f_equal. apply token_fold_other. apply Forall_map'.
      intros k Hk. apply in_seq in Hk. simpl. intros [= ->]. lia.
    + rewrite !lookup_ge_None_2; [done|lia|].
      rewrite tiled_fold_exec_length. lia.
Qed.

Lemma grad_K_in_range N n w :
  grid (mem w ft_tiles) n n →
  n ≤ length (mem w ft_v1) → n ≤ length (mem w ft_v2) →
  Forall (in_range w) (grad_K_instrs N n).
Proof.
  intros Ht H1 H2. apply Forall_flat_map'. intros i Hi. apply in_seq in Hi.
  apply Forall_map'. intros j Hj. apply in_seq in Hj.
  split; simpl; [apply (slot_lt _ n n); [done|lia..]|].
  repeat constructor; simpl; [|lia..].
  apply (slot_lt _ n n); [done|lia..].
Qed.

Lemma grad_K_dsts N n :
  (N.of_nat (n * n) ≤ vector_max_size)%N →
  NoDup (map i_dst (grad_K_instrs N n)).
Proof.
  intros Hmax. unfold grad_K_instrs. rewrite map_flat_map'.
  apply NoDup_flat_map'; [apply NoDup_seq|..].
  - intros i Hi. apply in_seq in Hi. rewrite map_map. simpl.
    apply NoDup_fmap_2_strong; [|apply NoDup_seq].
    intros a b Ha Hb [= Heq]. apply elem_of_seq in Ha, Hb.
    apply (slot_pair_inj n n) in Heq; [lia|done|lia..].
  - intros i i' s Hi Hi' Hs Hs'. apply in_seq in Hi, Hi'.
    rewrite map_map in Hs, Hs'. simpl in Hs, Hs'.
    apply in_map_iff in Hs as (j & <- & Hj).
    apply in_map_iff in Hs' as (j' & [= Heq] & Hj').
    apply in_seq in Hj, Hj'.
    apply (slot_pair_inj n n) in Heq; [lia|done|lia..].
Qed.

(** X7.  [update_grad_K_tiled_mkl] returns with, in every tile [(i,j)] of
    [ft_tiles], the [mkl_ger] node of the futures of that tile, of [ft_v1[i]]
    and of [ft_v2[j]] as they were before the call: none of the [n_tiles²]
    invocations waits for another.  The other vectors are as they were. *)
Theorem update_grad_K_independent_updates (N n : nat) w :
  grid (mem w ft_tiles) n n →
  n ≤ length (mem w ft_v1) →
  n ≤ length (mem w ft_v2) →
  ∃ w', update_grad_K_tiled_mkl N n w = (Returned tt, w') ∧
    (∀ r, r ≠ ft_tiles → mem w' r = mem w r) ∧
    length (issued w') = length (issued w) + n * n ∧
    ∀ i j, i < n → j < n →
      tile_at w' ft_tiles i n j
      = dataflow (fn_mkl_ger N)
          [tile_at w ft_tiles i n j; token_at w (ft_v1, i); token_at w (ft_v2, j)].
Proof.
  intros Ht H1 H2. pose proof Ht as [HtL HtM]. eexists. split_and!.
  - unfold update_grad_K_tiled_mkl, for_up. rewrite Nat.sub_0_r.
    etrans; [|apply tiled_run_instrs_exec; by apply grad_K_in_range].
    unfold grad_K_instrs. rewrite tiled_for_each_flat_map.
    apply tiled_for_each_ext. intros i w'.
    exact (eq_sym (tiled_for_each_map (ger_instr N n i) (seq 0 n) run_instr w')).
  - intros r Hr. apply tiled_fold_exec_mem_other.
    apply Forall_flat_map'. intros i _. apply Forall_map'. intros j _.
    simpl. congruence.
  - rewrite tiled_fold_exec_issued, length_app, length_map. f_equal.
    unfold grad_K_instrs.
    rewrite (length_flat_map_const _ _ n), length_seq; [done|].
    intros i. by rewrite length_map, length_seq.
  - intros i j Hi Hj. unfold tile_at.
    rewrite <- (proj1 (slot_in_grid i n n j HtM Hi Hj)).
    change (ft_tiles, slot i n j) with (i_dst (ger_instr N n i j)) at 1.
    rewrite tokens_parallel.
    + done.
    + by apply grad_K_dsts.
    + intros a b Ha Hb Hin.
      apply in_flat_map in Ha as (i1 & _ & Ha).
      apply in_map_iff in Ha as (j1 & <- & _).
      apply in_flat_map in Hb as (i2 & _ & Hb).
      apply in_map_iff in Hb as (j2 & <- & _).
      simpl in Hin. destruct Hin as [Hin|[Hin|[Hin|[]]]]; [done|discriminate..].
    + intros a Ha.
      apply in_flat_map in Ha as (i1 & Hi1 & Ha).
      apply in_map_iff in Ha as (j1 & <- & Hj1).
      apply in_seq in Hi1, Hj1. simpl. apply (slot_lt _ n n); [done|lia..].
    + apply in_flat_map. exists i. split; [apply in_seq; lia|].
      apply in_map_iff. exists j. split; [done|]. apply in_seq. lia.
Qed.

End Independent.

Lemma compute_loss_tiled_result_witness :
  ∃ w', compute_loss_tiled 1 2 demo = (Returned tt, w') ∧
    mem w' loss
    = [dataflow (fn_add_losses 1 2)
         [dataflow (fn_compute_loss 1) [ready 0; ready 4; ready 4];
          dataflow (fn_compute_loss 1) [ready 3; ready 5; ready 5]]].
Proof.
  destruct (compute_loss_tiled_result 1 2 demo) as (w' & Hrun & Hloss & _).
  - split; [reflexivity|]. by vm_compute.
  - simpl. lia.
  - simpl. lia.
  - exists w'. split; [exact Hrun|exact Hloss].
Defined.

Lemma prediction_uncertainty_overwrites_witness :
  ∃ w', prediction_uncertainty_tiled 1 2 demo = (Returned tt, w') ∧
    mem w' ft_vector !! 1 = Some (dataflow (fn_diag 1) [ready 3]).
Proof.
  destruct (prediction_uncertainty_overwrites 1 2 demo)
    as (w' & Hrun & _ & _ & Htok & _).
  - split; [reflexivity|]. by vm_compute.
  - simpl. lia.
  - exists w'. split; [exact Hrun|]. apply (Htok 1). lia.
Defined.

Lemma update_grad_K_independent_updates_witness :
  ∃ w', update_grad_K_tiled_mkl 1 2 demo = (Returned tt, w') ∧
    tile_at w' ft_tiles 1 2 0 = dataflow (fn_mkl_ger 1) [ready 2; ready 5; ready 4].
Proof.
  destruct (update_grad_K_independent_updates 1 2 demo)
    as (w' & Hrun & _ & _ & Htok).
  - split; [reflexivity|]. by vm_compute.
  - simpl. lia.
  - simpl. lia.
  - exists w'. split; [exact Hrun|]. apply (Htok 1 0); lia.
Defined.

(** ** What a column of the solution depends on *)

Section ColumnsIndependent.

Context {tile : Type}.
Implicit Types w : world tile.

Lemma agree_exec (S : ref * nat → Prop) (i : instr) w1 w2 :
  (S (i_dst i) → Forall S (i_srcs i)) →
  snd (i_dst i) < length (mem w1 (fst (i_dst i))) →
  snd (i_dst i) < length (mem w2 (fst (i_dst i))) →
  agree_on S w1 w2 → agree_on S (exec w1 i) (exec w2 i).
Proof.
  intros Hclosed H1 H2 Hagree s Hs.
  destruct (decide (s = i_dst i)) as [->|Hne].
  - rewrite !token_exec_dst by done. f_equal.
    apply map_ext_in. intros s Hin. apply Hagree.
    pose proof (Hclosed Hs) as Hall.
    rewrite Forall_forall in Hall. apply Hall. by apply list_elem_of_In.
  - rewrite !token_exec_other by done. by apply Hagree.
Qed.

(** Instructions that compute the slots of [S] from slots of [S] keep two
    worlds that agree on [S] in agreement. *)
Lemma agree_fold (S : ref * nat → Prop) (l : list instr) w1 w2 :
  (∀ i, In i l → S (i_dst i) → Forall S (i_srcs i)) →
  Forall (in_range w1) l → Forall (in_range w2) l →
  agree_on S w1 w2 →
  agree_on S (fold_left exec l w1) (fold_left exec l w2).
Proof.
  revert w1 w2. induction l as [|i l IH]; intros w1 w2 Hclosed H1 H2 Hagree;
    [done|].
  apply Forall_cons in H1 as [[Hd1 _] H1]. apply Forall_cons in H2 as [[Hd2 _] H2].
  simpl. apply IH.
  - intros j Hj. apply Hclosed. by right.
  - eapply Forall_impl; [exact H1|]. intros j.
    apply tiled_in_range_same_shape. intros r. apply tiled_exec_length.
  - eapply Forall_impl; [exact H2|]. intros j.
    apply tiled_in_range_same_shape. intros r. apply tiled_exec_length.
  - apply agree_exec; try done. apply Hclosed. by left.
Qed.

Lemma sweep_shape f g dg off (x : nat → ref * nat) (order : list nat) i :
  In i (sweep f g dg off x order) →
  ∃ pre k post, order = pre ++ k :: post ∧
    (i = solve_instr f (dg k) (x k) ∨
     ∃ t, In t post ∧ i = update_instr g (off t k) (x k) (x t)).
Proof.
  induction order as [|k rest IH]; [done|].
  simpl. intros [<-|Hin].
  - exists [], k, rest. split; [done|]. by left.
  - apply in_app_iff in Hin as [Hin|Hin].
    + apply in_map_iff in Hin as (t & <- & Ht).
      exists [], k, rest. split; [done|]. right. by exists t.
    + destruct (IH Hin) as (pre & k' & post & -> & Hi).
      by exists (k :: pre), k', post.
Qed.

Lemma seq_split_inv (a n : nat) (pre post : list nat) (k : nat) :
  seq a n = pre ++ k :: post →
  a ≤ k ∧ k < a + n ∧ ∀ t, In t post → k < t ∧ t < a + n.
Proof.
  revert a n. induction pre as [|p pre IH]; intros a n Heq.
  - destruct n as [|n]; [done|]. simpl in Heq. injection Heq as <- <-.
    split_and!; [lia..|]. intros t Ht. apply in_seq in Ht. lia.
  - destruct n as [|n]; [done|]. simpl in Heq. injection Heq as _ Heq.
    destruct (IH _ _ Heq) as (H1 & H2 & H3). split_and!; [lia..|].
    intros t Ht. specialize (H3 t Ht). lia.
Qed.

Lemma rev_seq_split_inv (n : nat) (pre post : list nat) (k : nat) :
  rev (seq 0 n) = pre ++ k :: post →
  k < n ∧ ∀ t, In t post → t < k.
Proof.
  intros Heq. apply (f_equal (@rev nat)) in Heq.
  rewrite rev_involutive, rev_app_distr in Heq. simpl in Heq.
  rewrite <- app_assoc in Heq. simpl in Heq.
  split.
  - assert (In k (seq 0 n)) as Hk.
    { rewrite Heq. apply in_app_iff. right. by left. }
    apply in_seq in Hk. lia.
  - intros t Ht.
    assert (NoDup (seq 0 n)) as Hnd by apply NoDup_seq.
    destruct (in_split t post Ht) as (p1 & p2 & ->).
    rewrite rev_app_distr in Heq. simpl in Heq.
    rewrite <- !app_assoc in Heq. simpl in Heq.
    destruct (seq_split_inv 0 n _ _ _ Heq) as (_ & _ & Hlater).
    apply Hlater. apply in_app_iff. right. by left.
Qed.

Lemma column_inputs_rhs n m c k c' :
  (N.of_nat (n * m) ≤ vector_max_size)%N →
  k < n → c' < m → c < m →
  column_inputs n m c (ft_rhs, slot k m c') → c' = c.
Proof.
  intros Hmax Hk Hc' Hc [(i & j & _ & _ & [=])|(k0 & Hk0 & [= Heq])].
  rewrite (proj1 (slot_in_grid k n m c' Hmax Hk Hc')) in Heq.
  assert (k = k0) by nia. subst. lia.
Qed.

Lemma column_inputs_tile n m c i j :
  (N.of_nat (n * n) ≤ vector_max_size)%N →
  j ≤ i → i < n → column_inputs n m c (ft_tiles, slot i n j).
Proof.
  intros Hmax Hj Hi. left. exists i, j. split_and!; [done..|].
  by rewrite (proj1 (slot_in_grid i n n j Hmax Hi ltac:(lia))).
Qed.

Lemma column_inputs_own n m c k :
  (N.of_nat (n * m) ≤ vector_max_size)%N →
  k < n → c < m → column_inputs n m c (ft_rhs, slot k m c).
Proof.
  intros Hmax Hk Hc. right. exists k. split; [done|].
  by rewrite (proj1 (slot_in_grid k n m c Hmax Hk Hc)).
Qed.

Lemma forward_matrix_closed N M_ n m c i :
  (N.of_nat (n * n) ≤ vector_max_size)%N →
  (N.of_nat (n * m) ≤ vector_max_size)%N →
  c < m →
  In i (forward_matrix_instrs N M_ n m) →
  column_inputs n m c (i_dst i) → Forall (column_inputs n m c) (i_srcs i).
Proof.
  intros Hnn Hnm Hc Hin Hdst.
  apply in_flat_map in Hin as (c' & Hc' & Hin). apply in_seq in Hc'.
  apply sweep_shape in Hin as (pre & k & post & Heq & Hi).
  destruct (seq_split_inv _ _ _ _ _ Heq) as (_ & Hk & Hpost).
  destruct Hi as [->|(t & Ht & ->)]; simpl in *.
  - apply column_inputs_rhs in Hdst as ->; [|done|lia..].
    constructor; [|constructor; [|constructor]].
    + apply column_inputs_tile; [done|lia..].
    + apply column_inputs_own; [done|lia..].
  - specialize (Hpost t Ht).
    apply column_inputs_rhs in Hdst as ->; [|done|lia..].
    constructor; [|constructor; [|constructor; [|constructor]]].
    + apply column_inputs_tile; [done|lia..].
    + apply column_inputs_own; [done|lia..].
    + apply column_inputs_own; [done|lia..].
Qed.

Lemma backward_matrix_closed N M_ n m c i :
  (N.of_nat (n * n) ≤ vector_max_size)%N →
  (N.of_nat (n * m) ≤ vector_max_size)%N →
  c < m →
  In i (backward_matrix_instrs N M_ n m) →
  column_inputs n m c (i_dst i) → Forall (column_inputs n m c) (i_srcs i).
Proof.
  intros Hnn Hnm Hc Hin Hdst.
  apply in_flat_map in Hin as (c' & Hc' & Hin). apply in_seq in Hc'.
  apply sweep_shape in Hin as (pre & k & post & Heq & Hi).
  destruct (rev_seq_split_inv _ _ _ _ Heq) as (Hk & Hpost).
  destruct Hi as [->|(t & Ht & ->)]; simpl in *.
  - apply column_inputs_rhs in Hdst as ->; [|done|lia..].
    constructor; [|constructor; [|constructor]].
    + apply column_inputs_tile; [done|lia..].
    + apply column_inputs_own; [done|lia..].
  - specialize (Hpost t Ht).
    apply column_inputs_rhs in Hdst as ->; [|done|lia..].
    constructor; [|constructor; [|constructor; [|constructor]]].
    + apply column_inputs_tile; [done|lia..].
    + apply column_inputs_own; [done|lia..].
    + apply column_inputs_own; [done|lia..].
Qed.

Lemma matrix_solve_run N M_ n m w :
  grid (mem w ft_tiles) n n →
  grid (mem w ft_rhs) n m →
  (Z.of_nat m ≤ INT_MAX)%Z →
  (forward_solve_tiled_matrix N M_ n m;;
   backward_solve_tiled_matrix N M_ n m) w
  = (Returned tt,
     fold_left exec (backward_matrix_instrs N M_ n m)
       (fold_left exec (forward_matrix_instrs N M_ n m) w)).
Proof.
  intros Ht Hr Hm.
  erewrite tiled_bind_returned; cycle 1.
  { rewrite forward_matrix_run. apply tiled_run_instrs_exec.
    by apply forward_matrix_in_range. }
  rewrite backward_matrix_run; [|done|].
  - apply tiled_run_instrs_exec. apply backward_matrix_in_range.
    + unfold grid, vector_ok. rewrite tiled_fold_exec_length. exact Ht.
    + unfold grid, vector_ok. rewrite tiled_fold_exec_length. exact Hr.
  - apply grid_side_small. by destruct Ht.
Qed.

(** X8.  The forward solve followed by the backward solve, run on two states
    that hold the same futures in the lower triangle of the factor and in
    column [c] of the right-hand sides, leave the same futures in column [c]:
    a column of the solution depends neither on the other columns nor on the
    tiles above the diagonal. *)
Theorem matrix_solve_columns_independent (N M_ n m c : nat) w1 w2 :
  grid (mem w1 ft_tiles) n n → grid (mem w1 ft_rhs) n m →
  grid (mem w2 ft_tiles) n n → grid (mem w2 ft_rhs) n m →
  (Z.of_nat m ≤ INT_MAX)%Z →
  c < m →
  agree_on (column_inputs n m c) w1 w2 →
  ∃ w1' w2',
    (forward_solve_tiled_matrix N M_ n m;;
     backward_solve_tiled_matrix N M_ n m) w1 = (Returned tt, w1') ∧
    (forward_solve_tiled_matrix N M_ n m;;
     backward_solve_tiled_matrix N M_ n m) w2 = (Returned tt, w2') ∧
    ∀ k, k < n → tile_at w1' ft_rhs k m c = tile_at w2' ft_rhs k m c.
Proof.
  intros Ht1 Hr1 Ht2 Hr2 Hm Hc Hagree.
  eexists _, _. split; [by apply matrix_solve_run|].
  split; [by apply matrix_solve_run|].
  intros k Hk. unfold tile_at.
  pose proof Ht1 as [_ Hnn]. pose proof Hr1 as [_ Hnm].
  apply (agree_fold (column_inputs n m c)).
  - intros i. by apply backward_matrix_closed.
  - apply backward_matrix_in_range.
    + unfold grid, vector_ok. rewrite tiled_fold_exec_length. exact Ht1.
    + unfold grid, vector_ok. rewrite tiled_fold_exec_length. exact Hr1.
  - apply backward_matrix_in_range.
    + unfold grid, vector_ok. rewrite tiled_fold_exec_length. exact Ht2.
    + unfold grid, vector_ok. rewrite tiled_fold_exec_length. exact Hr2.
  - apply agree_fold; try done.
    + intros i. by apply forward_matrix_closed.
    + by apply forward_matrix_in_range.
    + by apply forward_matrix_in_range.
  - right. by exists k.
Qed.

End ColumnsIndependent.

Lemma matrix_solve_columns_independent_witness :
  ∃ w1' w2',
    (forward_solve_tiled_matrix 1 1 2 1;;
     backward_solve_tiled_matrix 1 1 2 1) demo = (Returned tt, w1') ∧
    (forward_solve_tiled_matrix 1 1 2 1;;
     backward_solve_tiled_matrix 1 1 2 1) demo_upper = (Returned tt, w2') ∧
    tile_at w1' ft_rhs 0 1 0 = tile_at w2' ft_rhs 0 1 0.
Proof.
  destruct (matrix_solve_columns_independent 1 1 2 1 0 demo demo_upper)
    as (w1' & w2' & Hrun1 & Hrun2 & Hsame).
  - split; [reflexivity|]. by vm_compute.
  - split; [reflexivity|]. by vm_compute.
  - split; [reflexivity|]. by vm_compute.
  - split; [reflexivity|]. by vm_compute.
  - by vm_compute.
  - lia.
  - intros s [(i & j & Hj & Hi & ->)|(k & Hk & ->)].
    + destruct i as [|[|i]]; [| |lia].
      * by replace j with 0 by lia.
      * destruct j as [|[|j]]; [done|done|lia].
    + destruct k as [|[|k]]; [done|done|lia].
  - exists w1', w2'. split_and!; [exact Hrun1|exact Hrun2|]. apply Hsame. lia.
Defined.

(** ** Vectors that are too short *)

Section Unchecked.

Context {tile : Type}.
Implicit Types w : world tile.

Lemma sweep_solve_in f g dg off (x : nat → ref * nat) (order : list nat) k :
  In k order → In (solve_instr f (dg k) (x k)) (sweep f g dg off x order).
Proof.
  induction order as [|k0 rest IH]; [done|].
  intros [->|Hk]; simpl; [by left|].
  right. apply in_app_iff. right. by apply IH.
Qed.

Lemma read_all_world (srcs : list (ref * nat)) w : snd (read_all srcs w) = w.
Proof.
  induction srcs as [|[r k] srcs IH]; [done|].
  simpl. unfold bind, vec_read at 1.
  destruct (mem w r !! k); [|done].
  destruct (read_all srcs w) as [[fs|e] w'] eqn:Hr; simpl in *; by subst.
Qed.

(** Every run of a list of instructions extends the log. *)
Lemma run_instr_log (i : instr) w :
  ∃ evs, issued (snd (run_instr i w)) = issued w ++ evs.
Proof.
  unfold run_instr, assign_dataflow, bind.
  pose proof (read_all_world (i_srcs i) w) as Hw.
  destruct (read_all (i_srcs i) w) as [[fs|e] w0]; simpl in Hw; subst w0.
  - unfold issue, vec_write. simpl. case_decide; simpl; by eexists.
  - exists []. by rewrite app_nil_r.
Qed.

Lemma run_instrs_log (l : list instr) w :
  ∃ evs, issued (snd (for_each l run_instr w)) = issued w ++ evs.
Proof.
  revert w. induction l as [|i l IH]; intros w.
  - exists []. by rewrite app_nil_r.
  - simpl. unfold bind. destruct (run_instr_log i w) as [evs1 H1].
    destruct (run_instr i w) as [[[]|e] w1]; simpl in *.
    + destruct (IH w1) as [evs2 H2]. exists (evs1 ++ evs2).
      by rewrite H2, H1, app_assoc.
    + by exists evs1.
Qed.

(** X9.  The sizes of the vectors are not checked against [n_tiles] and
    [m_tiles]: on right-hand sides of fewer than [n_tiles · m_tiles] tiles
    [forward_solve_tiled_matrix] throws nothing of its own but runs into an
    access beyond the end of the vector, and does so after it has issued
    invocations, the first one the TRSM of tile [(0,0)]. *)
Theorem forward_solve_tiled_matrix_unchecked (N M_ n m : nat) w :
  0 < n → 0 < m →
  (N.of_nat (n * m) ≤ vector_max_size)%N →
  0 < length (mem w ft_tiles) →
  0 < length (mem w ft_rhs) →
  length (mem w ft_rhs) < n * m →
  ∃ w' evs,
    forward_solve_tiled_matrix N M_ n m w = (Thrown undefined_behaviour, w') ∧
    issued w'
    = issued w
      ++ Event (fn_mkl_trsm_l_matrix N M_) [(ft_tiles, 0); (ft_rhs, 0)] (ft_rhs, 0)
      :: evs.
Proof.
  intros Hn Hm Hmax Ht Hr Hshort.
  rewrite forward_matrix_run.
  assert (fst (for_each (forward_matrix_instrs N M_ n m) run_instr w)
          = Thrown undefined_behaviour) as Hub.
  { apply tiled_run_instrs_out_of_range. intros Hall.
    rewrite Forall_forall in Hall.
    specialize (Hall (solve_instr (fn_mkl_trsm_l_matrix N M_)
                        (ft_tiles, slot (n - 1) n (n - 1))
                        (ft_rhs, slot (n - 1) m (m - 1)))).
    destruct Hall as [Hd _].
    - apply list_elem_of_In, in_flat_map. exists (m - 1).
      split; [apply in_seq; lia|].
      apply (sweep_solve_in _ _ (fun k => (ft_tiles, slot k n k))
               (fun t k => (ft_tiles, slot t n k))
               (fun k => (ft_rhs, slot k m (m - 1)))).
      apply in_seq. lia.
    - simpl in Hd.
      rewrite (proj1 (slot_in_grid (n - 1) n m (m - 1) Hmax ltac:(lia) ltac:(lia)))
        in Hd.
      nia. }
  assert (∃ evs, issued (snd (for_each (forward_matrix_instrs N M_ n m)
                                run_instr w))
                 = issued w
                   ++ Event (fn_mkl_trsm_l_matrix N M_)
                        [(ft_tiles, 0); (ft_rhs, 0)] (ft_rhs, 0) :: evs)
    as [evs Hlog].
  { destruct n as [|n']; [lia|]. destruct m as [|m']; [lia|].
    unfold forward_matrix_instrs, forward_matrix_column.
    change (seq 0 (S m')) with (0 :: seq 1 m').
    change (seq 0 (S n')) with (0 :: seq 1 n').
    cbn [flat_map sweep app for_each].
    erewrite tiled_bind_returned; cycle 1.
    { apply tiled_run_instr_exec. split; simpl; [exact Hr|].
      constructor; [exact Ht|]. constructor; [exact Hr|constructor]. }
    match goal with
    | |- ∃ evs, issued (snd (for_each ?l run_instr ?w1)) = _ =>
        destruct (run_instrs_log l w1) as [evs ->]
    end.
    exists evs. simpl. by rewrite <- app_assoc. }
  destruct (for_each (forward_matrix_instrs N M_ n m) run_instr w) as [o w'].
  simpl in Hub, Hlog. subst o. by exists w', evs.
Qed.

End Unchecked.

Lemma forward_solve_tiled_matrix_unchecked_witness :
  ∃ w', forward_solve_tiled_matrix 1 1 2 2 demo = (Thrown undefined_behaviour, w').
Proof.
  destruct (forward_solve_tiled_matrix_unchecked 1 1 2 2 demo)
    as (w' & evs & Hrun & _).
  - lia.
  - lia.
  - by vm_compute.
  - simpl. lia.
  - simpl. lia.
  - simpl. lia.
  - exists w'. exact Hrun.
Defined.

End TiledFacts.

(** * More about the Cholesky routine and the factorize kernel *)

Section CholeskyFrame.

Context {tile : Type}.
Implicit Types w : world tile.

Lemma cholesky_dsts_lower N n :
  Forall (fun i => ∃ a b, b ≤ a ∧ a < n ∧ i_dst i = (ft_tiles, slot a n b))
    (cholesky_instrs N n).
Proof.
  apply Forall_flat_map'. intros k [_ Hk]%in_seq.
  unfold cholesky_stage_instrs. constructor; [|apply Forall_app; split].
  - exists k, k. split_and!; [lia..|done].
  - apply Forall_map'. intros m [? ?]%in_seq.
    exists m, k. split_and!; [lia..|done].
  - apply Forall_flat_map'. intros m [? ?]%in_seq.
    unfold update_row_instrs. constructor.
    + exists m, m. split_and!; [lia..|done].
    + apply Forall_map'. intros j [? ?]%in_seq.
      exists m, j. split_and!; [lia..|done].
Qed.

(** X10.  The tiled Cholesky works in the lower triangle only: when it
    returns, every tile above the diagonal of [ft_tiles] still holds the
    future the caller put there, and the other vectors and the optimizer's
    arrays are as they were. *)
Theorem cholesky_keeps_upper_triangle (N n : nat) w :
  grid (mem w ft_tiles) n n →
  ∃ w', right_looking_cholesky_tiled_mkl N n w = (Returned tt, w') ∧
    (∀ i j, i < j → j < n →
       mem w' ft_tiles !! (i * n + j) = mem w ft_tiles !! (i * n + j)) ∧
    (∀ r, r ≠ ft_tiles → mem w' r = mem w r) ∧
    hyperparameters w' = hyperparameters w ∧
    m_T w' = m_T w ∧ v_T w' = v_T w.
Proof.
  intros Hgrid. pose proof Hgrid as [_ Hmax].
  eexists. split; [by apply cholesky_returns|]. split_and!.
  - intros i j Hij Hj. apply fold_exec_lookup_other.
    eapply Forall_impl; [apply cholesky_dsts_lower|].
    intros ins (a & b & Hb & Ha & ->) [= Heq].
    rewrite (proj1 (slot_in_grid a n n b Hmax Ha ltac:(lia))) in Heq.
    assert (a = i) by nia. lia.
  - intros r Hr. apply fold_exec_mem_other.
    eapply Forall_impl; [apply cholesky_dsts_lower|].
    intros ins (a & b & _ & _ & ->). simpl. congruence.
  - apply fold_exec_hyperparameters.
  - apply fold_exec_m_T.
  - apply fold_exec_v_T.
Qed.

Lemma update_rows_length N n k d :
  2 * length (flat_map (update_row_instrs N n k) (seq (k + 1) d)) = d * (d + 1).
Proof.
  induction d as [|d IH]; [done|].
  rewrite seq_snoc, flat_map_app, length_app, flat_map_singleton.
  unfold update_row_instrs at 2. cbn [length].
  rewrite length_map, length_seq.
  set (U := length (flat_map (update_row_instrs N n k) (seq (k + 1) d))) in *.
  replace (k + 1 + d - (k + 1)) with d by lia. nia.
Qed.

Lemma cholesky_stage_length N n k :
  k < n → 2 * length (cholesky_stage_instrs N n k) = (n - k) * (n - k + 1).
Proof.
  intros Hk. unfold cholesky_stage_instrs. cbn [length].
  rewrite length_app, length_map, length_seq.
  pose proof (update_rows_length N n k (n - (k + 1))) as Hu.
  set (U := length (flat_map (update_row_instrs N n k)
                      (seq (k + 1) (n - (k + 1))))) in *.
  remember (n - (k + 1)) as d eqn:Hd.
  replace (n - k) with (d + 1) by lia. nia.
Qed.

Lemma cholesky_length_upto N n j :
  j ≤ n →
  6 * length (flat_map (cholesky_stage_instrs N n) (seq 0 j))
  + (n - j) * (n - j + 1) * (n - j + 2)
  = n * (n + 1) * (n + 2).
Proof.
  induction j as [|j IH]; intros Hj.
  - simpl. rewrite Nat.sub_0_r. lia.
  - rewrite seq_snoc, flat_map_app, length_app, flat_map_singleton.
    change (0 + j) with j.
    pose proof (cholesky_stage_length N n j ltac:(lia)) as Hs.
    specialize (IH ltac:(lia)).
    set (A := length (flat_map (cholesky_stage_instrs N n) (seq 0 j))) in *.
    set (B := length (cholesky_stage_instrs N n j)) in *.
    remember (n - S j) as a eqn:Ha.
    replace (n - j) with (a + 1) in * by lia. nia.
Qed.

(** X11.  The tiled Cholesky of an [n × n] grid issues [n(n+1)(n+2)/6] kernel
    invocations. *)
Theorem cholesky_invocation_count (N n : nat) w :
  grid (mem w ft_tiles) n n →
  ∃ w', right_looking_cholesky_tiled_mkl N n w = (Returned tt, w') ∧
    6 * length (issued w') = 6 * length (issued w) + n * (n + 1) * (n + 2).
Proof.
  intros Hgrid. eexists. split; [by apply cholesky_returns|].
  rewrite fold_exec_issued, length_app, length_map.
  pose proof (cholesky_length_upto N n n ltac:(lia)) as Hlen.
  rewrite Nat.sub_diag in Hlen. unfold cholesky_instrs. simpl in Hlen. lia.
Qed.

End CholeskyFrame.

Lemma cholesky_keeps_upper_triangle_witness :
  ∃ w', right_looking_cholesky_tiled_mkl 1 2 Scalar.demo = (Returned tt, w') ∧
    mem w' ft_tiles !! 1 = Some (ready 0%R).
Proof.
  destruct (cholesky_keeps_upper_triangle 1 2 Scalar.demo)
    as (w' & Hrun & Hup & _).
  - split; [reflexivity|]. by vm_compute.
  - exists w'. split; [exact Hrun|]. apply (Hup 0 1); lia.
Defined.

Lemma cholesky_invocation_count_witness :
  ∃ w', right_looking_cholesky_tiled_mkl 1 2 Scalar.demo = (Returned tt, w') ∧
    length (issued w') = 4.
Proof.
  destruct (cholesky_invocation_count 1 2 Scalar.demo) as (w' & Hrun & Hlen).
  - split; [reflexivity|]. by vm_compute.
  - exists w'. split; [exact Hrun|]. simpl in Hlen. lia.
Defined.

(** ** When [potrf] fails *)

(** X12.  [potrf] returns exactly when its input future holds the pointer
    and every call into the runtime succeeds.  A failed allocation, or an
    input future that holds an exception, throws before the solver is called
    and leaves the tile as it was.  After a failed synchronization nothing is
    known of the tile.  A failed release throws after the solver has
    overwritten the tile: the caller gets the exception and the buffer holds
    what the solver left, there is no roll-back. *)
Theorem potrf_no_rollback
    (solver : list PrimFloat.float → nat → list PrimFloat.float * Z)
    (rt : Cublas.runtime) (f_A : Cublas.device_future)
    (A : list PrimFloat.float) (N : nat) :
  ((∃ L, fst (Cublas.potrf solver rt f_A A N) = Returned L)
   ↔ f_A = Cublas.holds_pointer ∧ allocations_ok rt ∧ releases_ok rt) ∧
  (¬ (f_A = Cublas.holds_pointer ∧ allocations_ok rt) →
   ∃ e, Cublas.potrf solver rt f_A A N = (Thrown e, Cublas.contents A)) ∧
  (f_A = Cublas.holds_pointer → allocations_ok rt →
   Cublas.cudaStreamSynchronize_stream rt ≠ Cublas.cudaSuccess →
   Cublas.potrf solver rt f_A A N
   = (Thrown (cuda_exception (Cublas.cudaStreamSynchronize_stream rt)),
      Cublas.unspecified)) ∧
  (f_A = Cublas.holds_pointer → allocations_ok rt →
   Cublas.cudaStreamSynchronize_stream rt = Cublas.cudaSuccess →
   ¬ releases_ok rt →
   ∃ e, Cublas.potrf solver rt f_A A N
        = (Thrown e, Cublas.contents (fst (solver A N)))).
Proof.
  unfold allocations_ok, releases_ok, Cublas.potrf.
  destruct (decide (Cublas.cudaMalloc_d_info rt = Cublas.cudaSuccess)) as [H1|H1];
    cycle 1.
  { rewrite (check_cuda_error_failed _ H1). split_and!.
    - split; [by intros [L [=]]|tauto].
    - intros _. by eexists.
    - tauto.
    - tauto. }
  rewrite (proj2 (check_cuda_error_ok _) H1).
  destruct f_A as [|e0].
  2: { split_and!.
       - split; [by intros [L [=]]|by intros [[=] _]].
       - intros _. by eexists.
       - by intros [=].
       - by intros [=]. }
  destruct (decide (Cublas.cudaMalloc_d_work rt = Cublas.cudaSuccess)) as [H2|H2];
    cycle 1.
  { rewrite (check_cuda_error_failed _ H2). split_and!.
    - split; [by intros [L [=]]|tauto].
    - intros _. by eexists.
    - tauto.
    - tauto. }
  rewrite (proj2 (check_cuda_error_ok _) H2).
  destruct (decide (Cublas.workspaceInBytesOnHost rt = 0%N
                    ∨ Cublas.malloc_h_work_ok rt = true)) as [Hh|Hh]; cycle 1.
  { assert (((0 <? Cublas.workspaceInBytesOnHost rt)%N
             && negb (Cublas.malloc_h_work_ok rt))%bool = true) as ->.
    { destruct (N.ltb_spec 0 (Cublas.workspaceInBytesOnHost rt));
        destruct (Cublas.malloc_h_work_ok rt); try done;
        exfalso; apply Hh; auto; left; lia. }
    split_and!.
    - split; [by intros [L [=]]|tauto].
    - intros _. by eexists.
    - tauto.
    - tauto. }
  rewrite (host_workspace_ok _ Hh).
  destruct (solver A N) as [F info]; simpl.
  destruct (decide (Cublas.cudaStreamSynchronize_stream rt = Cublas.cudaSuccess))
    as [H3|H3]; cycle 1.
  { rewrite (check_cuda_error_failed _ H3). split_and!.
    - split; [by intros [L [=]]|tauto].
    - tauto.
    - done.
    - tauto. }
  rewrite (proj2 (check_cuda_error_ok _) H3).
  destruct (decide (Cublas.cudaFree_d_work rt = Cublas.cudaSuccess)) as [H4|H4];
    cycle 1.
  { rewrite (check_cuda_error_failed _ H4). split_and!.
    - split; [by intros [L [=]]|tauto].
    - tauto.
    - tauto.
    - intros. by eexists. }
  rewrite (proj2 (check_cuda_error_ok _) H4).
  destruct (decide (Cublas.cudaFree_d_info rt = Cublas.cudaSuccess)) as [H5|H5];
    cycle 1.
  { rewrite (check_cuda_error_failed _ H5). split_and!.
    - split; [by intros [L [=]]|tauto].
    - tauto.
    - tauto.
    - intros. by eexists. }
  rewrite (proj2 (check_cuda_error_ok _) H5). split_and!.
  - split; [tauto|intros _; by eexists].
  - tauto.
  - tauto.
  - tauto.
Qed.

(** * The solve pipeline reads the lower triangle only *)

Section Pipeline.

Context {tile : Type}.
Implicit Types w : world tile.

Lemma token_at_exec_other w i s : s ≠ i_dst i → token_at (exec w i) s = token_at w s.
Proof.
  intros Hne. unfold token_at. destruct s as [r k]. cbn [fst snd].
  by rewrite exec_lookup_other.
Qed.

Lemma token_at_exec_dst w i :
  in_range w i →
  token_at (exec w i) (i_dst i) = dataflow (i_fn i) (map (token_at w) (i_srcs i)).
Proof.
  intros Hi. unfold token_at at 1. by rewrite exec_lookup_dst.
Qed.

Lemma agree_on_exec (S : ref * nat → Prop) (i : instr) w1 w2 :
  Forall S (i_srcs i) → in_range w1 i → in_range w2 i →
  agree_on S w1 w2 → agree_on S (exec w1 i) (exec w2 i).
Proof.
  intros Hsrcs H1 H2 Hagree s Hs.
  destruct (decide (s = i_dst i)) as [->|Hne].
  - rewrite !token_at_exec_dst by done. f_equal.
    apply map_ext_in. intros s Hin. apply Hagree.
    rewrite Forall_forall in Hsrcs. apply Hsrcs. by apply list_elem_of_In.
  - rewrite !token_at_exec_other by done. by apply Hagree.
Qed.

Lemma agree_on_fold (S : ref * nat → Prop) (l : list instr) w1 w2 :
  Forall (fun i => Forall S (i_srcs i)) l →
  Forall (in_range w1) l → Forall (in_range w2) l →
  agree_on S w1 w2 →
  agree_on S (fold_left exec l w1) (fold_left exec l w2).
Proof.
  revert w1 w2. induction l as [|i l IH]; intros w1 w2 Hsrcs H1 H2 Hagree;
    [done|].
  apply Forall_cons in Hsrcs as [Hi Hsrcs].
  apply Forall_cons in H1 as [Hi1 H1]. apply Forall_cons in H2 as [Hi2 H2].
  simpl. apply IH; [done|..].
  - eapply Forall_impl; [exact H1|]. intros j.
    apply in_range_same_shape. intros r. apply exec_length.
  - eapply Forall_impl; [exact H2|]. intros j.
    apply in_range_same_shape. intros r. apply exec_length.
  - by apply agree_on_exec.
Qed.

Lemma lower_tile n i j :
  (N.of_nat (n * n) ≤ vector_max_size)%N →
  j ≤ i → i < n → lower_triangle_inputs n (ft_tiles, slot i n j).
Proof.
  intros Hmax Hj Hi. left. exists i, j. split_and!; [done..|].
  by rewrite (proj1 (slot_in_grid i n n j Hmax Hi ltac:(lia))).
Qed.

Lemma lower_rhs n k : k < n → lower_triangle_inputs n (ft_rhs, k).
Proof. intros Hk. right. by exists k. Qed.

Ltac lower_srcs Hmax :=
  lazymatch goal with
  | |- Forall _ [] => apply Forall_nil_2
  | |- Forall _ (_ :: _) =>
      apply Forall_cons_2;
      [first [apply (lower_tile _ _ _ Hmax); lia | apply lower_rhs; lia]
      |lower_srcs Hmax]
  end.

Lemma cholesky_reads_lower N n :
  (N.of_nat (n * n) ≤ vector_max_size)%N →
  Forall (fun i => Forall (lower_triangle_inputs n) (i_srcs i)) (cholesky_instrs N n).
Proof.
  intros Hmax. apply Forall_flat_map'. intros k [_ Hk]%in_seq.
  unfold cholesky_stage_instrs. constructor; [|apply Forall_app; split].
  - simpl. lower_srcs Hmax.
  - apply Forall_map'. intros m [? ?]%in_seq. simpl. lower_srcs Hmax.
  - apply Forall_flat_map'. intros m [? ?]%in_seq.
    unfold update_row_instrs. constructor.
    + simpl. lower_srcs Hmax.
    + apply Forall_map'. intros j [? ?]%in_seq. simpl. lower_srcs Hmax.
Qed.

Lemma forward_reads_lower N n :
  (N.of_nat (n * n) ≤ vector_max_size)%N →
  Forall (fun i => Forall (lower_triangle_inputs n) (i_srcs i)) (forward_instrs N n).
Proof.
  intros Hmax. apply Forall_flat_map'. intros k [_ Hk]%in_seq.
  unfold forward_stage_instrs. constructor.
  - simpl. lower_srcs Hmax.
  - apply Forall_map'. intros m [? ?]%in_seq. simpl. lower_srcs Hmax.
Qed.

Lemma backward_reads_lower N n :
  (N.of_nat (n * n) ≤ vector_max_size)%N →
  Forall (fun i => Forall (lower_triangle_inputs n) (i_srcs i)) (backward_instrs N n).
Proof.
  intros Hmax. apply Forall_flat_map'. intros k [_ Hk]%in_rev%in_seq.
  unfold backward_stage_instrs. constructor.
  - simpl. lower_srcs Hmax.
  - apply Forall_map'. intros m [? ?]%in_rev%in_seq. simpl. lower_srcs Hmax.
Qed.

Lemma pipeline_run N n w :
  grid (mem w ft_tiles) n n → vector_ok (mem w ft_rhs) n →
  (right_looking_cholesky_tiled_mkl N n;; forward_solve_tiled N n;;
   backward_solve_tiled N n) w
  = (Returned tt,
     fold_left exec (backward_instrs N n)
       (fold_left exec (forward_instrs N n)
          (fold_left exec (cholesky_instrs N n) w))).
Proof.
  intros Ht Hr.
  erewrite bind_returned by (by apply cholesky_returns).
  set (w1 := fold_left exec (cholesky_instrs N n) w).
  assert (grid (mem w1 ft_tiles) n n) as Ht1.
  { unfold grid, vector_ok, w1. rewrite fold_exec_length. exact Ht. }
  assert (vector_ok (mem w1 ft_rhs) n) as Hr1.
  { unfold vector_ok, w1. rewrite fold_exec_length. exact Hr. }
  erewrite bind_returned; cycle 1.
  { rewrite forward_run. apply run_instrs_exec. by apply forward_in_range. }
  set (w2 := fold_left exec (forward_instrs N n) w1).
  rewrite backward_run by (apply grid_side_small; by destruct Ht).
  apply run_instrs_exec. apply backward_in_range.
  - unfold grid, vector_ok, w2. rewrite fold_exec_length. exact Ht1.
  - unfold vector_ok, w2. rewrite fold_exec_length. exact Hr1.
Qed.

(** X13.  The tiled Cholesky followed by the forward and the backward solve,
    run on two states that hold the same futures in the lower triangle of
    [ft_tiles] and in [ft_rhs], return with the same futures in [ft_rhs]: the
    solution does not depend on what the tiles above the diagonal hold. *)
Theorem solve_pipeline_ignores_upper_triangle (N n : nat) w1 w2 :
  grid (mem w1 ft_tiles) n n → vector_ok (mem w1 ft_rhs) n →
  grid (mem w2 ft_tiles) n n → vector_ok (mem w2 ft_rhs) n →
  agree_on (lower_triangle_inputs n) w1 w2 →
  ∃ w1' w2',
    (right_looking_cholesky_tiled_mkl N n;; forward_solve_tiled N n;;
     backward_solve_tiled N n) w1 = (Returned tt, w1') ∧
    (right_looking_cholesky_tiled_mkl N n;; forward_solve_tiled N n;;
     backward_solve_tiled N n) w2 = (Returned tt, w2') ∧
    mem w1' ft_rhs = mem w2' ft_rhs.
Proof.
  intros Ht1 Hr1 Ht2 Hr2 Hagree. pose proof Ht1 as [_ Hmax].
  eexists _, _. split; [by apply pipeline_run|].
  split; [by apply pipeline_run|].
  set (c1 := fold_left exec (cholesky_instrs N n) w1).
  set (c2 := fold_left exec (cholesky_instrs N n) w2).
  set (f1 := fold_left exec (forward_instrs N n) c1).
  set (f2 := fold_left exec (forward_instrs N n) c2).
  assert (∀ w, grid (mem w ft_tiles) n n →
               grid (mem (fold_left exec (cholesky_instrs N n) w) ft_tiles) n n)
    as Hgc.
  { intros w Hg. unfold grid, vector_ok. rewrite fold_exec_length. exact Hg. }
  assert (∀ w, vector_ok (mem w ft_rhs) n →
               vector_ok (mem (fold_left exec (cholesky_instrs N n) w) ft_rhs) n)
    as Hrc.
  { intros w Hg. unfold vector_ok. rewrite fold_exec_length. exact Hg. }
  assert (∀ w, grid (mem w ft_tiles) n n →
               grid (mem (fold_left exec (forward_instrs N n) w) ft_tiles) n n)
    as Hgf.
  { intros w Hg. unfold grid, vector_ok. rewrite fold_exec_length. exact Hg. }
  assert (∀ w, vector_ok (mem w ft_rhs) n →
               vector_ok (mem (fold_left exec (forward_instrs N n) w) ft_rhs) n)
    as Hrf.
  { intros w Hg. unfold vector_ok. rewrite fold_exec_length. exact Hg. }
  assert (agree_on (lower_triangle_inputs n)
            (fold_left exec (backward_instrs N n) f1)
            (fold_left exec (backward_instrs N n) f2)) as Hfinal.
  { apply agree_on_fold.
    - by apply backward_reads_lower.
    - apply backward_in_range; [apply Hgf, Hgc, Ht1|apply Hrf, Hrc, Hr1].
    - apply backward_in_range; [apply Hgf, Hgc, Ht2|apply Hrf, Hrc, Hr2].
    - apply agree_on_fold.
      + by apply forward_reads_lower.
      + apply forward_in_range; [apply Hgc, Ht1|apply Hrc, Hr1].
      + apply forward_in_range; [apply Hgc, Ht2|apply Hrc, Hr2].
      + apply agree_on_fold; [by apply cholesky_reads_lower|..|done].
        * by apply cholesky_in_range.
        * by apply cholesky_in_range. }
  apply list_eq. intros k.
  assert (∀ w, vector_ok (mem w ft_rhs) n →
               length (mem (fold_left exec (backward_instrs N n)
                              (fold_left exec (forward_instrs N n)
                                 (fold_left exec (cholesky_instrs N n) w)))
                         ft_rhs) = n) as Hlen.
  { intros w [Hl _]. by rewrite !fold_exec_length. }
  destruct (decide (k < n)) as [Hk|Hk].
  - specialize (Hfinal (ft_rhs, k) (lower_rhs n k Hk)).
    unfold token_at in Hfinal. simpl in Hfinal.
    destruct (lookup_lt_is_Some_2 (mem (fold_left exec (backward_instrs N n) f1) ft_rhs) k)
      as [t1 Ht1']; [unfold f1, c1; rewrite Hlen; done|].
    destruct (lookup_lt_is_Some_2 (mem (fold_left exec (backward_instrs N n) f2) ft_rhs) k)
      as [t2 Ht2']; [unfold f2, c2; rewrite Hlen; done|].
    rewrite Ht1', Ht2' in Hfinal. simpl in Hfinal.
    fold c1 f1 c2 f2. rewrite Ht1', Ht2'. by f_equal.
  - unfold f1, f2, c1, c2.
    rewrite !lookup_ge_None_2; [done|rewrite Hlen; [lia|done]..].
Qed.

End Pipeline.

Lemma solve_pipeline_ignores_upper_triangle_witness :
  ∃ w1' w2',
    (right_looking_cholesky_tiled_mkl 1 2;; forward_solve_tiled 1 2;;
     backward_solve_tiled 1 2) Scalar.demo = (Returned tt, w1') ∧
    (right_looking_cholesky_tiled_mkl 1 2;; forward_solve_tiled 1 2;;
     backward_solve_tiled 1 2) demo_upper = (Returned tt, w2') ∧
    mem w1' ft_rhs = mem w2' ft_rhs.
Proof.
  apply (solve_pipeline_ignores_upper_triangle 1 2 Scalar.demo demo_upper).
  - split; [reflexivity|]. by vm_compute.
  - split; [reflexivity|]. by vm_compute.
  - split; [reflexivity|]. by vm_compute.
  - split; [reflexivity|]. by vm_compute.
  - intros s [(i & j & Hj & Hi & ->)|(k & Hk & ->)].
    + destruct i as [|[|i]]; [| |lia].
      * by replace j with 0 by lia.
      * destruct j as [|[|j]]; [done|done|lia].
    + destruct k as [|[|k]]; [done|done|lia].
Defined.

(** * The kernels on host vectors *)

Section HostKernels.

Context {double : Type} `{Arithmetic double}.
Implicit Types A B r : list double.

Lemma to_int_exact (x : nat) :
  (Z.of_nat x ≤ INT_MAX)%Z → Host.to_int x = Z.of_nat x.
Proof.
  unfold INT_MAX, Host.to_int, int_of_size_t. intros Hx.
  rewrite nat_N_Z.
  change (2 ^ 31)%Z with 2147483648%Z in *.
  change (2 ^ 32)%Z with 4294967296%Z.
  rewrite Z.mod_small by lia.
  destruct (Z.ltb_spec (Z.of_nat x) 2147483648); [done|lia].
Qed.

Lemma stride_forward (n i inc : nat) : Host.stride n i (Z.of_nat inc) = i * inc.
Proof.
  unfold Host.stride. destruct (Z.leb_spec 0 (Z.of_nat inc)); [|lia].
  by rewrite Nat2Z.id.
Qed.

Lemma mapM_lookups {X : Type} (f : nat → option X) (l : list nat) :
  (∀ i, In i l → is_Some (f i)) → mapM f l = Some (omap f l).
Proof.
  induction l as [|i l IH]; intros Hin; [done|].
  destruct (Hin i ltac:(by left)) as [x Hx].
  apply mapM_Some. cbn [omap list_omap]. rewrite Hx.
  constructor; [done|].
  apply mapM_Some, IH. intros k Hk. apply Hin. by right.
Qed.

Lemma row_lookup A M i k :
  k < M → Host.row A M i !! k = A !! (i * M + k).
Proof.
  intros Hk. unfold Host.row. by rewrite lookup_take_lt, lookup_drop.
Qed.

(** Walking over [n] elements from [&A[off]], with [n] and the increment
    within [int], reads the elements at [off + i * inc]. *)
Lemma walk_forward (n : nat) A off (inc : nat) :
  (∀ i, i < n → off + i * inc < length A) →
  Host.walk (Z.of_nat n) A off (Z.of_nat inc)
  = Some (omap (fun i => A !! (off + i * inc)) (seq 0 n)).
Proof.
  intros Hin. unfold Host.walk. rewrite Nat2Z.id.
  rewrite <- (mapM_lookups (fun i => A !! (off + i * inc))).
  - apply mapM_ext. intros i. by rewrite stride_forward.
  - intros i [_ Hi]%in_seq. apply lookup_lt_is_Some_2, Hin. lia.
Qed.

Lemma walk_row A M i :
  i * M + M ≤ length A →
  omap (fun k => A !! (i * M + k * 1)) (seq 0 M) = Host.row A M i.
Proof.
  intros Hlen.
  assert (mapM (fun k => A !! (i * M + k * 1)) (seq 0 M) = Some (Host.row A M i))
    as Hrow.
  { apply mapM_Some, Forall2_same_length_lookup. split.
    - unfold Host.row. rewrite length_seq, length_take, length_drop. lia.
    - intros k x y Hk Hy. apply lookup_seq in Hk as [-> Hk]. simpl.
      rewrite Nat.mul_1_r, <- row_lookup by done. exact Hy. }
  rewrite mapM_lookups in Hrow; [by injection Hrow|].
  intros k [_ Hk]%in_seq. apply lookup_lt_is_Some_2. lia.
Qed.

Lemma walk_column A N M j :
  j < M →
  omap (fun i => A !! (j + i * M)) (seq 0 N) = Host.column A N M j.
Proof.
  intros Hj. unfold Host.column. apply list_omap_ext, Forall2_same_length_lookup.
  split; [done|]. intros i x y Hx Hy.
  assert (x = y) as -> by congruence.
  rewrite row_lookup by done. f_equal. lia.
Qed.

Lemma loop_add_at (D : nat → option double) (d : nat → double)
    (l : list nat) r :
  NoDup l →
  (∀ j, In j l → j < length r ∧ D j = Some (d j)) →
  ∃ r', Host.loop l (fun r j => Host.add_at r j (D j)) r = Returned r' ∧
    length r' = length r ∧
    (∀ j x, In j l → r !! j = Some x → r' !! j = Some (dadd x (d j))) ∧
    (∀ j, ¬ In j l → r' !! j = r !! j).
Proof.
  revert r. induction l as [|j0 l IH]; intros r Hnd Hin.
  { exists r. split_and!; try done. }
  apply NoDup_cons in Hnd as [Hj0 Hnd].
  destruct (Hin j0 ltac:(by left)) as [Hlt HD].
  destruct (lookup_lt_is_Some_2 _ _ Hlt) as [x Hx].
  cbn [Host.loop]. unfold Host.add_at at 1. rewrite Hx, HD.
  destruct (IH (<[j0 := dadd x (d j0)]> r) Hnd) as (r' & Hrun & Hlen & Hupd & Hkeep).
  { intros j Hj. rewrite length_insert. apply Hin. by right. }
  exists r'. split; [exact Hrun|]. split_and!.
  - by rewrite Hlen, length_insert.
  - intros j y [<-|Hj] Hy.
    + rewrite Hkeep by (intros Hj; apply Hj0; by apply list_elem_of_In).
      rewrite list_lookup_insert_eq by done. congruence.
    + apply Hupd; [done|]. rewrite list_lookup_insert_ne; [done|].
      intros ->. apply Hj0. by apply list_elem_of_In.
  - intros j Hj. rewrite Hkeep by (intros Hj'; apply Hj; by right).
    apply list_lookup_insert_ne. intros ->. apply Hj. by left.
Qed.

Lemma loop_undefined (body : list double → nat → outcome (list double))
    (j0 : nat) (l : list nat) r :
  (∀ r, body r j0 = Thrown undefined_behaviour) →
  Host.loop (j0 :: l) body r = Thrown undefined_behaviour.
Proof. intros Hbody. cbn [Host.loop]. by rewrite Hbody. Qed.

Lemma add_at_undefined r j : Host.add_at r j None = Thrown undefined_behaviour.
Proof. unfold Host.add_at. by destruct (r !! j). Qed.

(** X14.  [dot_diag_syrk] on a row-major [N × M] matrix [A] and a vector [r]
    of at least [M] elements, [N] and [M] within [int].  With at least one
    row it returns [r] with the result of [cblas_ddot] on column [j] of [A]
    and itself added to element [j], for every [j < M]; the elements from [M]
    on are as they were.  With no row and [0 < M] the vector [A] is empty
    and [&A[0]] is outside the precondition of [operator[]]: the behaviour
    is undefined. *)
Theorem dot_diag_syrk_adds_column_products A r (N M : nat) :
  length A = N * M →
  M ≤ length r →
  (Z.of_nat N ≤ INT_MAX)%Z →
  (Z.of_nat M ≤ INT_MAX)%Z →
  (0 < N →
   ∃ r', Host.dot_diag_syrk A r N M = Returned r' ∧
     length r' = length r ∧
     (∀ j x, j < M → r !! j = Some x →
        r' !! j = Some (dadd x (ddot (Host.column A N M j)
                                  (Host.column A N M j)))) ∧
     (∀ j, M ≤ j → r' !! j = r !! j)) ∧
  (N = 0 → 0 < M → Host.dot_diag_syrk A r N M = Thrown undefined_behaviour).
Proof.
  intros HA Hr HN HM. unfold Host.dot_diag_syrk. rewrite decide_True by done.
  split.
  - intros HN0. rewrite !to_int_exact by done.
    destruct (loop_add_at
                (fun j => p ← Host.address_of A j;
                          Host.cblas_ddot (Z.of_nat N) A p (Z.of_nat M) A p
                            (Z.of_nat M))
                (fun j => ddot (Host.column A N M j) (Host.column A N M j))
                (seq 0 M) r (NoDup_seq 0 M))
      as (r' & Hrun & Hlen & Hupd & Hkeep).
    { intros j [_ Hj]%in_seq. split; [lia|].
      unfold Host.address_of. rewrite decide_True by (rewrite HA; nia). simpl.
      unfold Host.cblas_ddot.
      rewrite walk_forward by (intros i Hi; rewrite HA; nia). simpl.
      by rewrite walk_column by lia. }
    exists r'. split_and!; [done..| |].
    + intros j x Hj. apply Hupd. apply in_seq. lia.
    + intros j Hj. apply Hkeep. rewrite in_seq. lia.
  - intros -> HM0. destruct M as [|M]; [lia|].
    apply loop_undefined. intros r0.
    unfold Host.address_of. rewrite decide_False by (rewrite HA; simpl; lia).
    apply add_at_undefined.
Qed.

(** X15.  [dot_diag_gemm] on a row-major [N × M] matrix [A], a row-major
    [M × N] matrix [B] and a vector [r] of at least [N] elements, [N] and [M]
    within [int].  With at least one column in [A] it returns [r] with the
    result of [cblas_ddot] on row [i] of [A] and column [i] of [B] added to
    element [i], for every [i < N]; the elements from [N] on are as they
    were.  With [M = 0] and [0 < N] both matrices are empty and [&A[0]] is
    outside the precondition of [operator[]]: the behaviour is undefined. *)
Theorem dot_diag_gemm_adds_row_column_products A B r (N M : nat) :
  length A = N * M →
  length B = M * N →
  N ≤ length r →
  (Z.of_nat N ≤ INT_MAX)%Z →
  (Z.of_nat M ≤ INT_MAX)%Z →
  (0 < M →
   ∃ r', Host.dot_diag_gemm A B r N M = Returned r' ∧
     length r' = length r ∧
     (∀ i x, i < N → r !! i = Some x →
        r' !! i = Some (dadd x (ddot (Host.row A M i)
                                  (Host.column B M N i)))) ∧
     (∀ i, N ≤ i → r' !! i = r !! i)) ∧
  (M = 0 → 0 < N → Host.dot_diag_gemm A B r N M = Thrown undefined_behaviour).
Proof.
  intros HA HB Hr HN HM. unfold Host.dot_diag_gemm. split.
  - intros HM0. rewrite !to_int_exact by done.
    destruct (loop_add_at
                (fun i => p ← Host.address_of A (slot i M 0);
                          q ← Host.address_of B i;
                          Host.cblas_ddot (Z.of_nat M) A p 1 B q (Z.of_nat N))
                (fun i => ddot (Host.row A M i) (Host.column B M N i))
                (seq 0 N) r (NoDup_seq 0 N))
      as (r' & Hrun & Hlen & Hupd & Hkeep).
    { intros i [_ Hi]%in_seq. split; [lia|].
      assert (slot i M 0 = i * M) as ->.
      { rewrite slot_exact; [lia|]. unfold size_t_modulus, INT_MAX in *.
        change (2 ^ 31)%Z with 2147483648%Z in *.
        change (2 ^ 64)%N with 18446744073709551616%N. nia. }
      unfold Host.address_of.
      rewrite !decide_True by (rewrite ?HA, ?HB; nia). simpl.
      unfold Host.cblas_ddot. change 1%Z with (Z.of_nat 1).
      rewrite !walk_forward by (intros k Hk; rewrite ?HA, ?HB; nia). simpl.
      rewrite walk_row by (rewrite HA; nia).
      by rewrite walk_column by lia. }
    exists r'. split_and!; [done..| |].
    + intros i x Hi. apply Hupd. apply in_seq. lia.
    + intros i Hi. apply Hkeep. rewrite in_seq. lia.
  - intros -> HN0. destruct N as [|N]; [lia|].
    apply loop_undefined. intros r0.
    assert (Host.address_of A (slot 0 0 0) = None) as ->.
    { unfold Host.address_of. apply decide_False. rewrite HA. lia. }
    apply add_at_undefined.
Qed.

End HostKernels.

Lemma dot_diag_syrk_adds_column_products_witness :
  Host.dot_diag_syrk Host.demo_A Host.demo_r 2 2 = Returned Host.demo_r_syrk.
Proof.
  destruct (dot_diag_syrk_adds_column_products Host.demo_A Host.demo_r 2 2)
    as [[r' (Hrun & Hlen & Hupd & _)] _].
  - reflexivity.
  - simpl. lia.
  - by vm_compute.
  - by vm_compute.
  - lia.
  - rewrite Hrun. f_equal.
    destruct r' as [|a [|b [|c r']]]; try discriminate Hlen.
    pose proof (Hupd 0 _ ltac:(lia) eq_refl) as H0.
    pose proof (Hupd 1 _ ltac:(lia) eq_refl) as H1.
    vm_compute in H0, H1. by injection H0 as ->; injection H1 as ->.
Defined.

Lemma dot_diag_gemm_adds_row_column_products_witness :
  Host.dot_diag_gemm Host.demo_A Host.demo_A Host.demo_r 2 2
  = Returned Host.demo_r_gemm.
Proof.
  destruct (dot_diag_gemm_adds_row_column_products Host.demo_A Host.demo_A
              Host.demo_r 2 2)
    as [[r' (Hrun & Hlen & Hupd & _)] _].
  - reflexivity.
  - reflexivity.
  - simpl. lia.
  - by vm_compute.
  - by vm_compute.
  - lia.
  - rewrite Hrun. f_equal.
    destruct r' as [|a [|b [|c r']]]; try discriminate Hlen.
    pose proof (Hupd 0 _ ltac:(lia) eq_refl) as H0.
    pose proof (Hupd 1 _ ltac:(lia) eq_refl) as H1.
    vm_compute in H0, H1. by injection H0 as ->; injection H1 as ->.
Defined.

(** * The data flow of the tiled Cholesky *)

Section CholeskyDataFlow.

Context {tile : Type}.
Implicit Types w : world tile.

(** With kernels that build the node of their invocation, the values of a
    run are its tokens. *)
Lemma tokens_vexec (K : Kernels (future tile)) (l : list instr) w s :
  Forall (fun i => ∀ args, length args = length (i_srcs i) →
            unwrapping (i_fn i) (map Some args) = Some (dataflow (i_fn i) args)) l →
  Forall (in_range w) l →
  fold_left vexec l (fun s => Some (token_at w s)) s
  = Some (token_at (fold_left exec l w) s).
Proof.
  revert w s. induction l as [|i l IH]; intros w s Hnode Hl; simpl; [done|].
  apply Forall_cons in Hnode as [Hi_node Hnode].
  apply Forall_cons in Hl as [Hi Hl].
  rewrite <- IH; [|done|].
  - apply fold_vexec_ext. intros s'. unfold vexec. case_decide as Hs.
    + subst s'. rewrite token_at_exec_dst by done.
      rewrite <- (map_map (token_at w) Some).
      apply Hi_node. by rewrite length_map.
    + by rewrite token_at_exec_other.
  - eapply Forall_impl; [done|]. intros i'.
    apply in_range_same_shape. intros r. apply exec_length.
Qed.

(** X16.  The tiled Cholesky on an [n × n] grid returns, and the future it
    leaves in each tile of the lower triangle is the invocation tree of the
    right-looking recurrence on the futures the caller passed: [mkl_potrf]
    on the diagonal tile after one [mkl_syrk] per earlier column, [mkl_trsm]
    below the diagonal after one [mkl_gemm] per earlier column.  With a
    single tile the routine issues exactly one invocation, [mkl_potrf] on
    that tile. *)
Theorem cholesky_dependencies (N n : nat) w :
  grid (mem w ft_tiles) n n →
  ∃ w' L,
    right_looking_cholesky_tiled_mkl N n w = (Returned tt, w') ∧
    cholesky_tokens N n (fun i j => token_at w (ft_tiles, i * n + j)) L ∧
    (∀ i j, j ≤ i → i < n → mem w' ft_tiles !! (i * n + j) = Some (L i j)) ∧
    (n = 1 →
     issued w' = issued w ++ [Spec.factorize N 1 0] ∧
     L 0 0 = dataflow (fn_mkl_potrf N) [token_at w (ft_tiles, 0)]).
Proof.
  intros Hgrid. pose proof Hgrid as [Hlen Hmax].
  pose proof (cholesky_in_range N n w Hgrid) as Hrange.
  set (K := {| mkl_potrf := fun A N => dataflow (fn_mkl_potrf N) [A];
               mkl_trsm := fun L A N => dataflow (fn_mkl_trsm N) [L; A];
               mkl_syrk := fun A B N => dataflow (fn_mkl_syrk N) [A; B];
               mkl_gemm := fun A B C N => dataflow (fn_mkl_gemm N) [A; B; C];
               mkl_trsv_l := fun L a N => dataflow (fn_mkl_trsv_l N) [L; a];
               mkl_gemv_l := fun A a b N => dataflow (fn_mkl_gemv_l N) [A; a; b];
               mkl_trsv_u := fun L a N => dataflow (fn_mkl_trsv_u N) [L; a];
               mkl_gemv_u := fun A a b N => dataflow (fn_mkl_gemv_u N) [A; a; b];
               mkl_gemv_p := fun A a b N_row N_col =>
                 dataflow (fn_mkl_gemv_p N_row N_col) [A; a; b];
               mkl_gemm_uncertainty_matrix := fun A B C N M =>
                 dataflow (fn_mkl_gemm_uncertainty_matrix N M) [A; B; C];
               gen_tile_zeros_diag := fun N => dataflow (fn_gen_tile_zeros_diag N) [];
               mkl_gemm_diag := fun A B C N => dataflow (fn_mkl_gemm_diag N) [A; B; C];
               compute_gradient := fun _ _ _ => 0%R;
               compute_gradient_noise := fun _ _ _ _ => 0%R |}
            : Kernels (future tile)).
  set (T := fun i j => token_at w (ft_tiles, i * n + j)).
  assert (Forall (fun i => ∀ args, length args = length (i_srcs i) →
            unwrapping (H := K) (i_fn i) (map Some args)
            = Some (dataflow (i_fn i) args)) (cholesky_instrs N n)) as Hnode.
  { apply Forall_flat_map'. intros k _. constructor; [|apply Forall_app; split].
    - by intros [|a [|? ?]] [=].
    - apply Forall_map'. by intros m _ [|a [|b [|? ?]]] [=].
    - apply Forall_flat_map'. intros m _. constructor.
      + by intros [|a [|b [|? ?]]] [=].
      + apply Forall_map'. by intros j _ [|a [|b [|c [|? ?]]]] [=]. }
  destruct (cholesky_values (H := K) N n (fun s => Some (token_at w s)) T Hmax)
    as (L & Hblocked & HL).
  { intros i j Hj Hi.
    by rewrite (proj1 (slot_in_grid i n n j Hmax Hi ltac:(lia))). }
  exists (fold_left exec (cholesky_instrs N n) w), L. split_and!.
  - by apply cholesky_returns.
  - exact Hblocked.
  - intros i j Hj Hi. specialize (HL i j Hj Hi).
    rewrite (tokens_vexec K) in HL by done. injection HL as HL.
    destruct (slot_in_grid i n n j Hmax Hi ltac:(lia)) as [Hslot Hlt].
    rewrite Hslot in HL. unfold token_at in HL. cbn [fst snd] in HL.
    destruct (lookup_lt_is_Some_2
                (mem (fold_left exec (cholesky_instrs N n) w) ft_tiles) (i * n + j))
      as [x Hx].
    { rewrite fold_exec_length, Hlen. exact Hlt. }
    rewrite Hx in HL. simpl in HL. by rewrite Hx, HL.
  - intros ->. split.
    + rewrite fold_exec_issued, cholesky_events by done. reflexivity.
    + destruct Hblocked as [Hdiag _]. rewrite (Hdiag 0) by lia. reflexivity.
Qed.

End CholeskyDataFlow.

Lemma cholesky_dependencies_witness :
  ∃ w', right_looking_cholesky_tiled_mkl 1 2 Scalar.demo = (Returned tt, w') ∧
    mem w' ft_tiles !! 3
    = Some (dataflow (fn_mkl_potrf 1)
              [dataflow (fn_mkl_syrk 1)
                 [ready 5%R;
                  dataflow (fn_mkl_trsm 1)
                    [dataflow (fn_mkl_potrf 1) [ready 1%R]; ready 2%R]]]).
Proof.
  destruct (cholesky_dependencies 1 2 Scalar.demo)
    as (w' & L & Hrun & [Hdiag Hpanel] & Hmem & _).
  - split; [reflexivity|]. by vm_compute.
  - exists w'. split; [exact Hrun|].
    change 3 with (1 * 2 + 1). rewrite (Hmem 1 1) by lia.
    rewrite (Hdiag 1) by lia. unfold updated_token. simpl.
    rewrite (Hpanel 1 0) by lia. unfold updated_token. simpl.
    rewrite (Hdiag 0) by lia. reflexivity.
Defined.
